(** * mcp_postgres: the request validation and result-shaping pipeline

    A shallow embedding of [src/utils/response.ts], [src/db/pool.ts],
    [src/tools/query.ts], [src/tools/introspection.ts] and
    [src/tools/objects.ts], with the JavaScript built-ins those files call
    ([String.prototype.trim], [toLowerCase], [startsWith], [parseInt],
    [RegExp.prototype.test], [String.prototype.match] and [replace],
    [JSON.stringify]).

    The legacy entry point [src/index.ts] repeats the statements of the
    [execute_query] and [query_table] handlers word for word; the handlers
    modelled here are the registered tools of [src/tools].

    Strings are sequences of code units.  The model covers the code units
    0..255 (Latin-1), on which white space, lower-casing, [\s], [\w], [\b] and
    [\d] are written out exactly as ECMAScript defines them. *)

From Stdlib Require Import String Ascii List ZArith Lia Bool.
From Stdlib Require Import Numbers.DecimalString.
From Stdlib Require Numbers.DecimalPos.
Import ListNotations.

Local Open Scope list_scope.

(** ** Strings and characters *)

Definition jsstring := list ascii.

Definition str (s : string) : jsstring := list_ascii_of_string s.
Arguments str s%_string.

Definition code (c : ascii) : N := N_of_ascii c.

Definition in_range (lo hi : N) (c : ascii) : bool :=
  (lo <=? code c)%N && (code c <=? hi)%N.

(** ECMAScript WhiteSpace and LineTerminator code points below 256:
    TAB, LF, VT, FF, CR, SP and NBSP.  [trim] and the regular-expression
    class [\s] use the same set. *)
Definition isWhiteSpace (c : ascii) : bool :=
  in_range 9 13 c || (code c =? 32)%N || (code c =? 160)%N.

(** [\d] *)
Definition isDigit (c : ascii) : bool := in_range 48 57 c.

Definition is_letter (c : ascii) : bool := in_range 97 122 c || in_range 65 90 c.

(** [\w]: [A-Za-z0-9_] *)
Definition isWordChar (c : ascii) : bool :=
  in_range 97 122 c || in_range 65 90 c || in_range 48 57 c || (code c =? 95)%N.

Definition shift_code (d : Z) (c : ascii) : ascii :=
  ascii_of_N (Z.to_N (Z.of_N (code c) + d)).

(** [String.prototype.toLowerCase] on one code unit: A-Z and the Latin-1
    capitals U+00C0..U+00DE (without the multiplication sign U+00D7). *)
Definition lower_char (c : ascii) : ascii :=
  if in_range 65 90 c then shift_code 32 c
  else if in_range 192 222 c && negb (code c =? 215)%N then shift_code 32 c
  else c.

Definition toLowerCase (s : jsstring) : jsstring := map lower_char s.

(** Canonicalize of a regular expression with the [i] flag and without the
    [u] flag: the upper-case form, when it is a single code unit and does not
    turn a non-ASCII unit into an ASCII one.  U+00B5 and U+00FF have upper-case
    forms above U+00FF that no Latin-1 unit shares, so they stand for
    themselves. *)
Definition canonicalize (c : ascii) : ascii :=
  if in_range 97 122 c then shift_code (-32) c
  else if in_range 224 254 c && negb (code c =? 247)%N then shift_code (-32) c
  else c.

Fixpoint trimStart (s : jsstring) : jsstring :=
  match s with
  | c :: s' => if isWhiteSpace c then trimStart s' else s
  | [] => []
  end.

Definition trimEnd (s : jsstring) : jsstring := rev (trimStart (rev s)).

Definition trim (s : jsstring) : jsstring := trimEnd (trimStart s).

Fixpoint startsWith (s p : jsstring) : bool :=
  match p, s with
  | [], _ => true
  | a :: p', b :: s' => Ascii.eqb a b && startsWith s' p'
  | _ :: _, [] => false
  end.

(** ** Numbers

    The numbers the handlers compute with are integers; [NaN] is what
    [parseInt] gives on a text without digits.  The model computes with the
    integers themselves, which is what the code does as long as they stay
    within 2^53 in absolute value, where a double holds every integer; the
    properties that read or add such numbers state this bound.  Beyond it
    the code rounds, and only [Math.min] with a small bound is still the
    same. *)

Inductive number :=
| Num (z : Z)
| NaN.

Definition Math_min (a b : number) : number :=
  match a, b with
  | Num x, Num y => Num (Z.min x y)
  | _, _ => NaN
  end.

Definition Math_max (a b : number) : number :=
  match a, b with
  | Num x, Num y => Num (Z.max x y)
  | _, _ => NaN
  end.

Definition num_add (a b : number) : number :=
  match a, b with
  | Num x, Num y => Num (x + y)
  | _, _ => NaN
  end.

Definition num_gt (a b : number) : bool :=
  match a, b with
  | Num x, Num y => (x >? y)%Z
  | _, _ => false
  end.

Definition decimal (z : Z) : jsstring :=
  list_ascii_of_string (NilZero.string_of_int (Z.to_int z)).

(** Number::toString *)
Definition number_to_string (n : number) : jsstring :=
  match n with
  | Num z => decimal z
  | NaN => str "NaN"
  end.

Definition digit_value (radix : Z) (c : ascii) : option Z :=
  let v :=
    if isDigit c then Some (Z.of_N (code c) - 48)%Z
    else if in_range 97 122 c then Some (Z.of_N (code c) - 87)%Z
    else if in_range 65 90 c then Some (Z.of_N (code c) - 55)%Z
    else None in
  match v with
  | Some d => if (d <? radix)%Z then Some d else None
  | None => None
  end.

(** The value of the longest prefix of digits of the radix; [acc] is [None]
    until a digit has been read. *)
Fixpoint parse_digits (radix : Z) (s : jsstring) (acc : option Z) : option Z :=
  match s with
  | c :: s' =>
      match digit_value radix c with
      | Some d =>
          parse_digits radix s'
            (Some (match acc with Some a => a * radix + d | None => d end)%Z)
      | None => acc
      end
  | [] => acc
  end.

Definition strip_sign (s : jsstring) : Z * jsstring :=
  match s with
  | "-"%char :: t => ((-1)%Z, t)
  | "+"%char :: t => (1%Z, t)
  | _ => (1%Z, s)
  end.

Definition strip_hex_prefix (s : jsstring) : Z * jsstring :=
  match s with
  | "0"%char :: "x"%char :: t => (16%Z, t)
  | "0"%char :: "X"%char :: t => (16%Z, t)
  | _ => (10%Z, s)
  end.

(** [parseInt(s)] with no radix argument. *)
Definition parseInt (s : jsstring) : number :=
  let '(sign, s2) := strip_sign (trimStart s) in
  let '(radix, s3) := strip_hex_prefix s2 in
  match parse_digits radix s3 None with
  | Some v => Num (sign * v)
  | None => NaN
  end.

(** ** Regular expressions

    The constructs the patterns of [query.ts] use, matched by backtracking
    with continuations as the ECMAScript specification describes it: a
    matcher takes the state reached so far and the continuation for the
    rest of the pattern.  The quantifier [+] occurs in the source on
    character classes only ([\s+], [\d+]) and is greedy. *)

Inductive regex :=
| Empty
| Char (c : ascii)
| WordBoundary
| Seq (r1 r2 : regex)
| Alt (r1 r2 : regex)
| PlusClass (p : ascii -> bool)
| Group (r : regex).

(** The input is split at the current position: [before] holds the
    characters to the left, nearest first. *)
Record mstate := mkState {
  before : jsstring;
  after : jsstring;
  captures : list jsstring
}.

Definition cont := mstate -> option mstate.

Definition char_match (ignoreCase : bool) (p c : ascii) : bool :=
  if ignoreCase then Ascii.eqb (canonicalize p) (canonicalize c)
  else Ascii.eqb p c.

Definition word_at (s : jsstring) : bool :=
  match s with
  | c :: _ => isWordChar c
  | [] => false
  end.

(** [\b]: exactly one of the two neighbours is a word character. *)
Definition is_boundary (l s : jsstring) : bool := xorb (word_at l) (word_at s).

(** After the first character of a class: as many more as possible, then
    one fewer each time the continuation fails. *)
Fixpoint plus_rest (p : ascii -> bool) (k : cont)
    (l s : jsstring) (cs : list jsstring) : option mstate :=
  match s with
  | c :: s' =>
      if p c then
        match plus_rest p k (c :: l) s' cs with
        | Some y => Some y
        | None => k (mkState l s cs)
        end
      else k (mkState l s cs)
  | [] => k (mkState l s cs)
  end.

Definition consumed (x y : mstate) : jsstring :=
  firstn (length (after x) - length (after y)) (after x).

Fixpoint matcher (ignoreCase : bool) (r : regex) (k : cont) (x : mstate)
    : option mstate :=
  match r with
  | Empty => k x
  | Char c =>
      match after x with
      | a :: s' =>
          if char_match ignoreCase c a
          then k (mkState (a :: before x) s' (captures x))
          else None
      | [] => None
      end
  | WordBoundary => if is_boundary (before x) (after x) then k x else None
  | Seq r1 r2 => matcher ignoreCase r1 (matcher ignoreCase r2 k) x
  | Alt r1 r2 =>
      match matcher ignoreCase r1 k x with
      | Some y => Some y
      | None => matcher ignoreCase r2 k x
      end
  | PlusClass p =>
      match after x with
      | a :: s' =>
          if p a then plus_rest p k (a :: before x) s' (captures x) else None
      | [] => None
      end
  | Group r' =>
      matcher ignoreCase r'
        (fun y => k (mkState (before y) (after y)
                       (captures y ++ [consumed x y]))) x
  end.

Record RegExp := mkRegExp {
  pattern : regex;
  ignoreCase : bool
}.

(** The result of a successful match: the text before it, the matched
    text, the captured groups and the text after it. *)
Record MatchResult := mkMatch {
  m_pre : jsstring;
  m_text : jsstring;
  m_groups : list jsstring;
  m_post : jsstring
}.

(** The first position, from the left, at which the pattern matches. *)
Fixpoint exec_from (re : RegExp) (l s : jsstring) : option MatchResult :=
  match matcher (ignoreCase re) (pattern re) Some (mkState l s []) with
  | Some y =>
      Some (mkMatch (rev l) (consumed (mkState l s []) y) (captures y) (after y))
  | None =>
      match s with
      | c :: s' => exec_from re (c :: l) s'
      | [] => None
      end
  end.

Definition RegExp_exec (re : RegExp) (s : jsstring) : option MatchResult :=
  exec_from re [] s.

(** [re.test(s)] *)
Definition RegExp_test (re : RegExp) (s : jsstring) : bool :=
  match RegExp_exec re s with
  | Some _ => true
  | None => false
  end.

(** [s.match(re)] for a pattern without the [g] flag. *)
Definition String_match (s : jsstring) (re : RegExp) : option MatchResult :=
  RegExp_exec re s.

(** [s.replace(re, replacement)] for a pattern without the [g] flag and a
    replacement text without [$]. *)
Definition String_replace (s : jsstring) (re : RegExp) (replacement : jsstring)
    : jsstring :=
  match RegExp_exec re s with
  | Some mr => m_pre mr ++ replacement ++ m_post mr
  | None => s
  end.

Fixpoint literal (s : jsstring) : regex :=
  match s with
  | c :: s' => Seq (Char c) (literal s')
  | [] => Empty
  end.

Definition seq_of (rs : list regex) : regex := fold_right Seq Empty rs.

Fixpoint alt_of (r : regex) (rs : list regex) : regex :=
  match rs with
  | [] => r
  | r' :: rs' => Alt r (alt_of r' rs')
  end.

(** ** JSON values and [JSON.stringify(data, null, 2)] *)

#[warnings="-register-all"]
Inductive Json :=
| JNull
| JBool (b : bool)
| JNum (n : number)
| JStr (s : jsstring)
| JArr (items : list Json)
| JObj (props : list (jsstring * Json)).

Definition newline : ascii := "010"%char.
Definition dquote : ascii := "034"%char.
Definition backslash : ascii := "092"%char.

Definition hex_digit (n : N) : ascii :=
  if (n <? 10)%N then ascii_of_N (48 + n) else ascii_of_N (87 + n).

(** QuoteJSONString on one code unit. *)
Definition quote_char (c : ascii) : jsstring :=
  if (code c =? 8)%N then [backslash; "b"%char]
  else if (code c =? 9)%N then [backslash; "t"%char]
  else if (code c =? 10)%N then [backslash; "n"%char]
  else if (code c =? 12)%N then [backslash; "f"%char]
  else if (code c =? 13)%N then [backslash; "r"%char]
  else if (code c =? 34)%N then [backslash; dquote]
  else if (code c =? 92)%N then [backslash; backslash]
  else if (code c <? 32)%N then
    [backslash; "u"%char; "0"%char; "0"%char;
     hex_digit (code c / 16); hex_digit (code c mod 16)]
  else [c].

Definition quote (s : jsstring) : jsstring :=
  dquote :: flat_map quote_char s ++ [dquote].

Fixpoint join (sep : jsstring) (parts : list jsstring) : jsstring :=
  match parts with
  | [] => []
  | [p] => p
  | p :: ps => p ++ sep ++ join sep ps
  end.

Definition gap : jsstring := str "  ".

Fixpoint serialize (indent : jsstring) (j : Json) {struct j} : jsstring :=
  match j with
  | JNull => str "null"
  | JBool true => str "true"
  | JBool false => str "false"
  | JNum (Num z) => decimal z
  | JNum NaN => str "null"
  | JStr s => quote s
  | JArr [] => str "[]"
  | JArr items =>
      let inner := indent ++ gap in
      str "[" ++ [newline] ++ inner
        ++ join (str "," ++ [newline] ++ inner) (map (serialize inner) items)
        ++ [newline] ++ indent ++ str "]"
  | JObj [] => str "{}"
  | JObj props =>
      let inner := indent ++ gap in
      str "{" ++ [newline] ++ inner
        ++ join (str "," ++ [newline] ++ inner)
             (map (fun kv => match kv with
                             | (k, v) => quote k ++ str ": " ++ serialize inner v
                             end) props)
        ++ [newline] ++ indent ++ str "}"
  end.

Definition JSON_stringify (data : Json) : jsstring := serialize [] data.

(** Property access [obj.key]; [None] is [undefined]. *)
Definition string_eqb (a b : jsstring) : bool :=
  if list_eq_dec ascii_dec a b then true else false.

Fixpoint assoc (key : jsstring) (props : list (jsstring * Json)) : option Json :=
  match props with
  | [] => None
  | (k, v) :: rest => if string_eqb k key then Some v else assoc key rest
  end.

Definition get_prop (key : jsstring) (j : Json) : option Json :=
  match j with
  | JObj props => assoc key props
  | _ => None
  end.

(** ToString of a value that may be [undefined]. *)
Fixpoint toString (j : Json) : jsstring :=
  match j with
  | JNull => str "null"
  | JBool true => str "true"
  | JBool false => str "false"
  | JNum n => number_to_string n
  | JStr s => s
  | JArr items =>
      join (str ",")
        (map (fun e => match e with JNull => [] | _ => toString e end) items)
  | JObj _ => str "[object Object]"
  end.

Definition toString_opt (v : option Json) : jsstring :=
  match v with
  | Some j => toString j
  | None => str "undefined"
  end.

(** ** Errors

    Every [throw new Error(...)] of the modelled files, and what the driver
    or the runtime can throw.  [kind] is the taxonomy of the specification. *)

Inductive Exn :=
| SchemaNotAllowed (schema : jsstring)
| NotSelectOrWith
| ForbiddenKeyword (keyword : jsstring)
| FunctionNotFound (function_name schema : jsstring)
| DriverError (msg : jsstring)
| TypeError (msg : jsstring).

Definition o_acute : ascii := "243"%char.
Definition a_acute : ascii := "225"%char.

Definition message (e : Exn) : jsstring :=
  match e with
  | SchemaNotAllowed schema =>
      str "Schema '" ++ schema ++ str "' is not in the allowed schemas list"
  | NotSelectOrWith =>
      str "Solo se permiten consultas SELECT o WITH (CTE). No se permiten INSERT, UPDATE, DELETE, DROP, ALTER, CREATE u otras operaciones de modificaci"
        ++ [o_acute] ++ str "n."
  | ForbiddenKeyword keyword =>
      str "Operaci" ++ [o_acute] ++ str "n no permitida: la query contiene '"
        ++ keyword
        ++ str "' seguido de un contexto de modificaci" ++ [o_acute]
        ++ str "n. Solo se permiten consultas de lectura (SELECT/WITH)."
  | FunctionNotFound function_name schema =>
      str "Function '" ++ function_name ++ str "' not found in schema '"
        ++ schema ++ str "'"
  | DriverError msg => msg
  | TypeError msg => msg
  end.

Inductive ErrorKind :=
| PermissionDenied
| InvalidOperation
| NotFound
| UpstreamFailure
| RuntimeFault.

Definition kind (e : Exn) : ErrorKind :=
  match e with
  | SchemaNotAllowed _ => PermissionDenied
  | NotSelectOrWith => InvalidOperation
  | ForbiddenKeyword _ => InvalidOperation
  | FunctionNotFound _ _ => NotFound
  | DriverError _ => UpstreamFailure
  | TypeError _ => RuntimeFault
  end.

Inductive result (A : Type) :=
| Ok (a : A)
| Throw (e : Exn).
Arguments Ok {A} a.
Arguments Throw {A} e.

(** [v.key] for a value [v] that may be [undefined] ([None]).  Reading a
    property of [undefined] or of [null] throws; a value that is no object
    has none of the properties read in the handlers. *)
Definition member (key : jsstring) (v : option Json) : result (option Json) :=
  match v with
  | None =>
      Throw (TypeError (str "Cannot read properties of undefined (reading '"
                          ++ key ++ str "')"))
  | Some JNull =>
      Throw (TypeError (str "Cannot read properties of null (reading '"
                          ++ key ++ str "')"))
  | Some j => Ok (get_prop key j)
  end.

(** [items.map(f)] for a callback that can throw: the first throw ends it. *)
Fixpoint map_result {A B} (f : A -> result B) (items : list A)
    : result (list B) :=
  match items with
  | [] => Ok []
  | a :: rest =>
      match f a with
      | Throw e => Throw e
      | Ok b =>
          match map_result f rest with
          | Throw e => Throw e
          | Ok bs => Ok (b :: bs)
          end
      end
  end.

(** ** [src/utils/response.ts] *)

Definition CHARACTER_LIMIT : Z := 25000.

(** [s.length] and [s.slice(0, n)] *)
Definition str_length (s : jsstring) : Z := Z.of_nat (length s).

Definition slice0 (s : jsstring) (n : Z) : jsstring := firstn (Z.to_nat n) s.

Record TextContent := mkText {
  type_ : jsstring;
  text : jsstring
}.

Record McpToolResult := mkResult {
  content : list TextContent
}.

Definition notice_head : jsstring :=
  [newline; newline] ++ str "...[RESPUESTA TRUNCADA: ".

Definition notice_tail : jsstring :=
  str " chars totales. Usa filtros de columnas, cl" ++ [a_acute]
    ++ str "usula WHERE o paginaci" ++ [o_acute]
    ++ str "n para reducir los resultados.]".

Definition formatResult (data : Json) : McpToolResult :=
  let text := JSON_stringify data in
  if (str_length text <=? CHARACTER_LIMIT)%Z then
    mkResult [mkText (str "text") text]
  else
    let truncated := slice0 text CHARACTER_LIMIT in
    mkResult
      [mkText (str "text")
         (truncated ++ notice_head
            ++ number_to_string (Num (str_length text))
            ++ notice_tail)].

(** [allowedSchemas.includes(schema)] *)
Definition includes (l : list jsstring) (s : jsstring) : bool :=
  existsb (string_eqb s) l.

Definition assertSchemaAllowed (schema : jsstring) (allowedSchemas : list jsstring)
    : result unit :=
  if (0 <? length allowedSchemas) && negb (includes allowedSchemas schema)
  then Throw (SchemaNotAllowed schema)
  else Ok tt.

(** ** [src/db/pool.ts] *)

Definition isSchemaAllowed (allowedSchemas : list jsstring) (schema : jsstring)
    : bool :=
  if length allowedSchemas =? 0 then true
  else includes allowedSchemas schema.

(** ** The database driver

    [pg] is outside the repository: a handler sees it through the calls it
    makes.  A computation threads the log of the calls made so far (oldest
    first) and either returns or throws. *)

Record QueryResult := mkQueryResult {
  rows : list Json;
  fields : list jsstring
}.

(** What a call to the driver gives: a result, or the message of the error
    it throws. *)
Record Driver := mkDriver {
  pool_query : jsstring -> list Json -> jsstring + QueryResult;
  pool_connect : jsstring + unit;
  client_query : jsstring -> jsstring + QueryResult
}.

Definition of_driver {A} (r : jsstring + A) : result A :=
  match r with
  | inr a => Ok a
  | inl msg => Throw (DriverError msg)
  end.

Inductive Event :=
| PoolQuery (sql : jsstring) (params : list Json)
| PoolConnect
| ClientQuery (sql : jsstring)
| ClientRelease.

Definition M (A : Type) : Type := list Event -> list Event * result A.

Definition ret {A} (a : A) : M A := fun log => (log, Ok a).

Definition throw {A} (e : Exn) : M A := fun log => (log, Throw e).

Definition bind {A B} (m : M A) (f : A -> M B) : M B :=
  fun log =>
    match m log with
    | (log', Ok a) => f a log'
    | (log', Throw e) => (log', Throw e)
    end.

Notation "x <- m ;; k" := (bind m (fun x => k))
  (at level 61, m at next level, right associativity).

Definition lift {A} (r : result A) : M A := fun log => (log, r).

(** [try { body } finally { cleanup }] with a cleanup that does not throw. *)
Definition try_finally {A} (body : M A) (cleanup : M unit) : M A :=
  fun log =>
    match body log with
    | (log', r) => (fst (cleanup log'), r)
    end.

Definition emit {A} (ev : Event) (r : result A) : M A :=
  fun log => (log ++ [ev], r).

(** ** The queries of [query.ts] *)

Definition LIMIT_TEST : RegExp :=
  mkRegExp
    (seq_of [WordBoundary; literal (str "LIMIT");
             PlusClass isWhiteSpace; PlusClass isDigit])
    true.

Definition LIMIT_MATCH : RegExp :=
  mkRegExp
    (seq_of [WordBoundary; literal (str "LIMIT");
             PlusClass isWhiteSpace; Group (PlusClass isDigit)])
    true.

Definition forbiddenKeywords : list jsstring :=
  map list_ascii_of_string
    ["insert"; "update"; "delete"; "drop"; "alter"; "create"; "truncate";
     "grant"; "revoke"; "execute"; "copy"]%string.

Definition contextWords : list jsstring :=
  map list_ascii_of_string
    ["into"; "from"; "table"; "schema"; "database"; "index"; "function";
     "procedure"; "trigger"; "role"; "user"; "privileges"; "on"; "all"]%string.

Definition context_alternatives : regex :=
  alt_of (literal (str "into")) (map literal (tl contextWords)).

Definition forbidden_regex (keyword : jsstring) : RegExp :=
  mkRegExp
    (seq_of [WordBoundary; literal keyword; WordBoundary;
             PlusClass isWhiteSpace; Group context_alternatives; WordBoundary])
    true.

(** The [for] loop over [forbiddenKeywords]. *)
Fixpoint check_forbidden (keywords : list jsstring) (query : jsstring)
    : result unit :=
  match keywords with
  | [] => Ok tt
  | keyword :: rest =>
      if RegExp_test (forbidden_regex keyword) query
      then Throw (ForbiddenKeyword keyword)
      else check_forbidden rest query
  end.

(** Lines 73-85 of the [postgres_execute_query] handler. *)
Definition validate_query (query : jsstring) : result unit :=
  let normalizedQuery := toLowerCase (trim query) in
  if negb (startsWith normalizedQuery (str "select"))
     && negb (startsWith normalizedQuery (str "with"))
  then Throw NotSelectOrWith
  else check_forbidden forbiddenKeywords query.

(** The [safeLimit] of both handlers of [query.ts]. *)
Definition effective_cap (limit : Z) : number :=
  Math_min (Math_max (Num 1) (Num limit)) (Num 100).

(** Lines 87-99 of the [postgres_execute_query] handler. *)
Definition limit_query (query : jsstring) (limit : Z) : jsstring :=
  let safeLimit := Math_min (Math_max (Num 1) (Num limit)) (Num 100) in
  let finalQuery := trim query in
  let hasLimit := RegExp_test LIMIT_TEST finalQuery in
  if negb hasLimit then
    finalQuery ++ str " LIMIT " ++ number_to_string safeLimit
  else
    match String_match finalQuery LIMIT_MATCH with
    | Some limitMatch =>
        let effectiveLimit :=
          Math_min
            (match m_groups limitMatch with
             | g :: _ => parseInt g
             | [] => NaN
             end)
            (Num 100) in
        String_replace finalQuery LIMIT_TEST
          (str "LIMIT " ++ number_to_string effectiveLimit)
    | None => finalQuery
    end.

Definition count_of (l : list Json) : number := Num (Z.of_nat (length l)).

Definition count_tables_sql : jsstring :=
  str "SELECT COUNT(" ++ str "*) as total FROM information_schema.tables
         WHERE table_schema = $1 AND table_type = 'BASE TABLE'".

Definition list_tables_sql : jsstring :=
  str "
        SELECT
          t.table_name,
          pg_catalog.obj_description(pgc.oid, 'pg_class') as table_description,
          (SELECT COUNT(" ++ str "*) FROM information_schema.columns c
           WHERE c.table_schema = t.table_schema AND c.table_name = t.table_name) as column_count
        FROM information_schema.tables t
        LEFT JOIN pg_catalog.pg_class pgc ON pgc.relname = t.table_name
        LEFT JOIN pg_catalog.pg_namespace pgn
          ON pgn.oid = pgc.relnamespace AND pgn.nspname = t.table_schema
        WHERE t.table_schema = $1 AND t.table_type = 'BASE TABLE'
        ORDER BY t.table_name
        LIMIT $2 OFFSET $3
        ".

Definition function_definition_sql : jsstring :=
  str "
        SELECT
          p.proname as function_name,
          pg_catalog.pg_get_functiondef(p.oid) as definition,
          pg_catalog.obj_description(p.oid, 'pg_proc') as description
        FROM pg_catalog.pg_proc p
        JOIN pg_catalog.pg_namespace n ON n.oid = p.pronamespace
        WHERE n.nspname = $1 AND p.proname = $2
        ".

Section Handlers.

Variable db : Driver.
Variable allowedSchemas : list jsstring.

Definition query (sql : jsstring) (params : list Json) : M QueryResult :=
  emit (PoolQuery sql params) (of_driver (pool_query db sql params)).

Definition connect : M unit := emit PoolConnect (of_driver (pool_connect db)).

Definition client_run (sql : jsstring) : M QueryResult :=
  emit (ClientQuery sql) (of_driver (client_query db sql)).

Definition release : M unit := emit ClientRelease (Ok tt).

(** [src/tools/query.ts], [postgres_query_table] *)
Definition postgres_query_table (schema table columns : jsstring)
    (where_ : option jsstring) (limit : Z) : M McpToolResult :=
  _ <- lift (assertSchemaAllowed schema allowedSchemas) ;;
  let safeLimit := Math_min (Math_max (Num 1) (Num limit)) (Num 100) in
  let query0 :=
    str "SELECT " ++ columns ++ str " FROM " ++ [dquote] ++ schema
      ++ [dquote] ++ str "." ++ [dquote] ++ table ++ [dquote] in
  let params0 : list Json := [] in
  let query1 :=
    match where_ with
    | Some (c :: w) => query0 ++ str " WHERE " ++ c :: w
    | _ => query0
    end in
  let query2 :=
    query1 ++ str " LIMIT $"
      ++ number_to_string (Num (Z.of_nat (length params0) + 1)) in
  let params1 := params0 ++ [JNum safeLimit] in
  result <- query query2 params1 ;;
  ret (formatResult
         (JObj [(str "schema", JStr schema);
                (str "table", JStr table);
                (str "query", JStr query2);
                (str "rows", JArr (rows result));
                (str "row_count", JNum (count_of (rows result)));
                (str "limit", JNum safeLimit)])).

(** [src/tools/query.ts], [postgres_execute_query] *)
Definition postgres_execute_query (query : jsstring) (limit : Z)
    : M McpToolResult :=
  _ <- lift (validate_query query) ;;
  let finalQuery := limit_query query limit in
  _ <- connect ;;
  try_finally
    (_ <- client_run (str "SET statement_timeout = 30000") ;;
     _ <- (if 0 <? length allowedSchemas then
             let searchPath :=
               join (str ", ")
                 (map (fun s => [dquote] ++ s ++ [dquote]) allowedSchemas) in
             _ <- client_run (str "SET search_path = " ++ searchPath) ;;
             ret tt
           else ret tt) ;;
     result <- client_run finalQuery ;;
     ret (formatResult
            (JObj [(str "query", JStr finalQuery);
                   (str "rows", JArr (rows result));
                   (str "row_count", JNum (count_of (rows result)));
                   (str "fields", JArr (map JStr (fields result)))])))
    release.

(** [src/tools/introspection.ts], [postgres_list_tables].  Reading
    [countResult.rows[0].total] throws when there is no first row or when it
    is [null].  [total] and [offset + count] are computed on the integers
    (see Numbers). *)
Definition postgres_list_tables (schema : jsstring) (limit offset : Z)
    : M McpToolResult :=
  _ <- lift (assertSchemaAllowed schema allowedSchemas) ;;
  countResult <- query count_tables_sql [JStr schema] ;;
  total_field <- lift (member (str "total") (nth_error (rows countResult) 0)) ;;
  let total := parseInt (toString_opt total_field) in
  result <- query list_tables_sql
              [JStr schema; JNum (Num limit); JNum (Num offset)] ;;
  let count := count_of (rows result) in
  ret (formatResult
         (JObj ([(str "schema", JStr schema);
                 (str "tables", JArr (rows result));
                 (str "count", JNum count);
                 (str "total", JNum total);
                 (str "offset", JNum (Num offset));
                 (str "has_more",
                   JBool (num_gt total (num_add (Num offset) count)))]
                ++ (if num_gt total (num_add (Num offset) count)
                    then [(str "next_offset",
                            JNum (num_add (Num offset) count))]
                    else [])))).

(** [src/tools/objects.ts], [postgres_get_function_definition] *)
Definition postgres_get_function_definition (schema function_name : jsstring)
    : M McpToolResult :=
  _ <- lift (assertSchemaAllowed schema allowedSchemas) ;;
  result <- query function_definition_sql [JStr schema; JStr function_name] ;;
  match rows result with
  | [] => throw (FunctionNotFound function_name schema)
  | row0 :: _ => ret (formatResult row0)
  end.

End Handlers.

(** ** Vocabulary of the properties *)

(** Equality of two texts up to the case folding of the [i] flag. *)
Definition eq_ci (a b : jsstring) : Prop :=
  map canonicalize a = map canonicalize b.

Definition all_of (p : ascii -> bool) (s : jsstring) : Prop :=
  s <> [] /\ forallb p s = true.

(** The character just before a position, and the one at it. *)
Definition no_word_before (pre : jsstring) : Prop := word_at (rev pre) = false.

Definition no_word_after (post : jsstring) : Prop := word_at post = false.

Definition no_digit_ahead (post : jsstring) : Prop :=
  match post with
  | c :: _ => isDigit c = false
  | [] => True
  end.

Definition digits_value (ds : jsstring) : Z :=
  fold_left (fun acc c => acc * 10 + (Z.of_N (code c) - 48))%Z ds 0%Z.

(** An occurrence of [LIMIT <integer>] in [s]: the keyword in any case, not
    glued to a word on its left, white space, and the whole run of digits
    that follows. *)
Record LimitClause (s pre kw ws ds post : jsstring) : Prop := mkLimitClause {
  lc_split : s = pre ++ kw ++ ws ++ ds ++ post;
  lc_before : no_word_before pre;
  lc_keyword : eq_ci kw (str "LIMIT");
  lc_space : all_of isWhiteSpace ws;
  lc_digits : all_of isDigit ds;
  lc_whole : no_digit_ahead post
}.

Definition FirstLimitClause (s pre kw ws ds post : jsstring) : Prop :=
  LimitClause s pre kw ws ds post
  /\ forall pre' kw' ws' ds' post',
       LimitClause s pre' kw' ws' ds' post' -> length pre <= length pre'.

Definition NoLimitClause (s : jsstring) : Prop :=
  forall pre kw ws ds post, ~ LimitClause s pre kw ws ds post.

(** [s] has one [LIMIT] clause, no more, and its value is [v]. *)
Definition ExactlyOneLimit (s : jsstring) (v : Z) : Prop :=
  exists pre kw ws ds post,
    LimitClause s pre kw ws ds post
    /\ digits_value ds = v
    /\ forall pre' kw' ws' ds' post',
         LimitClause s pre' kw' ws' ds' post' -> pre' = pre.

(** An occurrence of a deny-listed keyword, as a whole word, followed by
    white space and an object-context word, as a whole word. *)
Record DenyPattern (q pre kw ws ctx post : jsstring) : Prop := mkDenyPattern {
  dp_split : q = pre ++ kw ++ ws ++ ctx ++ post;
  dp_before : no_word_before pre;
  dp_keyword : exists k, In k forbiddenKeywords /\ eq_ci kw k;
  dp_space : all_of isWhiteSpace ws;
  dp_context : exists o, In o contextWords /\ eq_ci ctx o;
  dp_after : no_word_after post
}.

Definition HasDenyPattern (q : jsstring) : Prop :=
  exists pre kw ws ctx post, DenyPattern q pre kw ws ctx post.

(** The prefix test of the handler. *)
Definition select_or_with (q : jsstring) : bool :=
  startsWith (toLowerCase (trim q)) (str "select")
  || startsWith (toLowerCase (trim q)) (str "with").

(** [s.includes(sub)] *)
Fixpoint contains (s sub : jsstring) : bool :=
  startsWith s sub
  || match s with
     | _ :: s' => contains s' sub
     | [] => false
     end.

Definition response_text (r : McpToolResult) : jsstring :=
  match content r with
  | [item] => text item
  | _ => []
  end.

(** The notice [formatResult] appends, for a serialization of [total]
    characters, and the length of its fixed text. *)
Definition truncation_notice (total : Z) : jsstring :=
  notice_head ++ decimal total ++ notice_tail.

Definition notice_fixed_length : Z :=
  str_length notice_head + str_length notice_tail.

(** The rewriting that keeps the text of the first clause and replaces its
    digits alone. *)
Definition digits_replaced (q : jsstring) (limit : Z) : Prop :=
  forall pre kw ws ds post,
    FirstLimitClause (trim q) pre kw ws ds post ->
    limit_query q limit =
    pre ++ kw ++ ws ++ decimal (Z.min (digits_value ds) 100) ++ post.

(** One [LIMIT] clause with the requested cap, whatever the input. *)
Definition one_limit_of_requested_cap (q : jsstring) (limit : Z) : Prop :=
  validate_query q = Ok tt ->
  effective_cap limit = Num (Z.min limit 100)
  /\ ExactlyOneLimit (limit_query q limit) (Z.min limit 100).

(** The decimal text of [n] is a run of digits of value [n]. *)
Definition decimal_reads_back (n : Z) : bool :=
  forallb isDigit (decimal n)
  && match decimal n with [] => false | _ :: _ => true end
  && (digits_value (decimal n) =? n)%Z.

(** A bound on the response by the fixed text of the notice alone. *)
Definition bounded_by_fixed_notice (data : Json) : Prop :=
  let t := JSON_stringify data in
  ((str_length t <= CHARACTER_LIMIT)%Z ->
   formatResult data = mkResult [mkText (str "text") t])
  /\ ((CHARACTER_LIMIT < str_length t)%Z ->
      response_text (formatResult data) =
      slice0 t CHARACTER_LIMIT ++ truncation_notice (str_length t)
      /\ (str_length (response_text (formatResult data))
           <= CHARACTER_LIMIT + notice_fixed_length)%Z).

(** What a handler leaves: the calls it made and how it ended. *)
Definition outcome {A} (m : M A) (log : list Event) : result A := snd (m log).

Definition calls {A} (m : M A) (log : list Event) : list Event := fst (m log).

(** A text whose serialization is longer than the limit. *)
Definition long_text : Json :=
  JStr (repeat "a"%char (Z.to_nat CHARACTER_LIMIT)).

(** Validation fails with InvalidOperation exactly when the statement
    holds a deny pattern. *)
Definition fails_exactly_on_deny_pattern (q : jsstring) : Prop :=
  (exists e, validate_query q = Throw e /\ kind e = InvalidOperation)
  <-> HasDenyPattern q.

(** A non-empty word of ASCII letters. *)
Definition is_word (k : jsstring) : bool :=
  forallb is_letter k && match k with [] => false | _ :: _ => true end.

(** *** The patterns in closed form *)

Fixpoint span (p : ascii -> bool) (s : jsstring) : jsstring * jsstring :=
  match s with
  | c :: s' =>
      if p c then let '(w, rest) := span p s' in (c :: w, rest) else ([], s)
  | [] => ([], [])
  end.

(** The prefix of [s] that equals [p] up to case, and what follows it. *)
Fixpoint strip_ci (p s : jsstring) : option (jsstring * jsstring) :=
  match p, s with
  | [], _ => Some ([], s)
  | a :: p', b :: s' =>
      if char_match true a b then
        match strip_ci p' s' with
        | Some (w, rest) => Some (b :: w, rest)
        | None => None
        end
      else None
  | _ :: _, [] => None
  end.

(** [\bLIMIT\s+\d+] at one position: keyword, white space, digits, rest. *)
Definition limit_at (l s : jsstring)
    : option (jsstring * jsstring * jsstring * jsstring) :=
  if is_boundary l s then
    match strip_ci (str "LIMIT") s with
    | Some (kw, s1) =>
        match span isWhiteSpace s1 with
        | ([], _) => None
        | (ws, s2) =>
            match span isDigit s2 with
            | ([], _) => None
            | (ds, s3) => Some (kw, ws, ds, s3)
            end
        end
    | None => None
    end
  else None.

Fixpoint find_limit (l s : jsstring)
    : option (jsstring * (jsstring * jsstring * jsstring * jsstring)) :=
  match limit_at l s with
  | Some r => Some (rev l, r)
  | None =>
      match s with
      | c :: s' => find_limit (c :: l) s'
      | [] => None
      end
  end.

(** The pattern of a deny-listed keyword at one position. *)
Definition deny_at (keyword l s : jsstring) : bool :=
  is_boundary l s
  && match strip_ci keyword s with
     | Some (kw, s1) =>
         is_boundary (rev kw ++ l) s1
         && match span isWhiteSpace s1 with
            | ([], _) => false
            | (ws, s2) =>
                existsb
                  (fun o =>
                     match strip_ci o s2 with
                     | Some (ctx, s3) =>
                         is_boundary (rev ctx ++ rev ws ++ rev kw ++ l) s3
                     | None => false
                     end)
                  contextWords
            end
     | None => false
     end.

Definition is_some {A} (o : option A) : bool :=
  match o with
  | Some _ => true
  | None => false
  end.

(** A driver for the examples: a catalogue of [tables] in one schema,
    answering the two statements of [postgres_list_tables]. *)
Definition tables_driver (tables : list jsstring) : Driver :=
  mkDriver
    (fun sql params =>
       if string_eqb sql count_tables_sql then
         inr (mkQueryResult
                [JObj [(str "total",
                         JStr (decimal (Z.of_nat (length tables))))]]
                [str "total"])
       else
         match params with
         | [_; JNum (Num limit); JNum (Num offset)] =>
             inr (mkQueryResult
                    (map (fun t => JObj [(str "table_name", JStr t)])
                       (firstn (Z.to_nat limit)
                          (skipn (Z.to_nat offset) tables)))
                    [str "table_name"])
         | _ => inl (str "bind message supplies the wrong number of parameters")
         end)
    (inr tt)
    (fun sql => inr (mkQueryResult [] [])).

(** A driver for the examples that answers every statement with [res]. *)
Definition constant_driver (res : QueryResult) : Driver :=
  mkDriver (fun _ _ => inr res) (inr tt) (fun _ => inr res).

(** When the continuation cannot succeed in front of a character of the
    class, or cannot fail at all, the greedy quantifier takes the whole run. *)
Definition takes_all (p : ascii -> bool) (k : cont) : Prop :=
  (forall l c s cs, p c = true -> k (mkState l (c :: s) cs) = None)
  \/ (forall x, k x <> None).

Definition all_ascii : list ascii := map ascii_of_nat (seq 0 256).


(** ** More of the code

    [src/db/pool.ts]: the configuration read from the environment.  A
    variable of the environment is absent ([None]) or a text. *)

(** [s.split(',')], for a separator of one character *)
Fixpoint split_on (sep : ascii) (s : jsstring) : list jsstring :=
  match s with
  | [] => [[]]
  | c :: s' =>
      if Ascii.eqb c sep then [] :: split_on sep s'
      else
        match split_on sep s' with
        | p :: ps => (c :: p) :: ps
        | [] => [[c]]
        end
  end.

(** [allowedSchemas] of [pool.ts], from [process.env.DB_SCHEMAS] *)
Definition pool_allowedSchemas (DB_SCHEMAS : option jsstring) : list jsstring :=
  match DB_SCHEMAS with
  | Some (c :: s) => map trim (split_on ","%char (c :: s))
  | _ => []
  end.

(** [defaultLimit] of [pool.ts], from [process.env.DEFAULT_LIMIT] *)
Definition pool_defaultLimit (DEFAULT_LIMIT : option jsstring) : number :=
  parseInt (match DEFAULT_LIMIT with
            | Some (c :: s) => c :: s
            | _ => str "5"
            end).

(** *** The other tools of [introspection.ts] and [objects.ts] *)

Definition list_schemas_sql : jsstring :=
  str "
        SELECT schema_name
        FROM information_schema.schemata
        WHERE schema_name NOT IN ('pg_catalog', 'information_schema', 'pg_toast')
        ORDER BY schema_name
      ".

Definition describe_columns_sql : jsstring :=
  str "
          SELECT
            c.column_name,
            c.data_type,
            c.character_maximum_length,
            c.is_nullable,
            c.column_default,
            pg_catalog.col_description(pgc.oid, c.ordinal_position) as column_description
          FROM information_schema.columns c
          LEFT JOIN pg_catalog.pg_class pgc ON pgc.relname = c.table_name
          LEFT JOIN pg_catalog.pg_namespace pgn
            ON pgn.oid = pgc.relnamespace AND pgn.nspname = c.table_schema
          WHERE c.table_schema = $1 AND c.table_name = $2
          ORDER BY c.ordinal_position
          ".

Definition describe_constraints_sql : jsstring :=
  str "
          SELECT
            tc.constraint_name,
            tc.constraint_type,
            kcu.column_name,
            ccu.table_schema AS foreign_table_schema,
            ccu.table_name AS foreign_table_name,
            ccu.column_name AS foreign_column_name
          FROM information_schema.table_constraints AS tc
          LEFT JOIN information_schema.key_column_usage AS kcu
            ON tc.constraint_name = kcu.constraint_name
            AND tc.table_schema = kcu.table_schema
          LEFT JOIN information_schema.constraint_column_usage AS ccu
            ON ccu.constraint_name = tc.constraint_name
            AND ccu.table_schema = tc.table_schema
          WHERE tc.table_schema = $1 AND tc.table_name = $2
          ORDER BY tc.constraint_type, tc.constraint_name
          ".

Definition describe_indexes_sql : jsstring :=
  str "
          SELECT
            i.relname as index_name,
            a.attname as column_name,
            ix.indisunique as is_unique,
            ix.indisprimary as is_primary
          FROM pg_class t
          JOIN pg_index ix ON t.oid = ix.indrelid
          JOIN pg_class i ON i.oid = ix.indexrelid
          JOIN pg_attribute a ON a.attrelid = t.oid AND a.attnum = ANY(ix.indkey)
          JOIN pg_namespace n ON n.oid = t.relnamespace
          WHERE n.nspname = $1 AND t.relname = $2
          ORDER BY i.relname, a.attnum
          ".

Definition count_functions_sql : jsstring :=
  str "SELECT COUNT(" ++ str "*) as total
         FROM pg_catalog.pg_proc p
         JOIN pg_catalog.pg_namespace n ON n.oid = p.pronamespace
         WHERE n.nspname = $1".

Definition list_functions_sql : jsstring :=
  str "
        SELECT
          p.proname as function_name,
          pg_catalog.pg_get_function_arguments(p.oid) as arguments,
          pg_catalog.pg_get_function_result(p.oid) as return_type,
          CASE
            WHEN p.prokind = 'f' THEN 'function'
            WHEN p.prokind = 'p' THEN 'procedure'
            WHEN p.prokind = 'a' THEN 'aggregate'
            WHEN p.prokind = 'w' THEN 'window'
          END as function_type,
          l.lanname as language,
          pg_catalog.obj_description(p.oid, 'pg_proc') as description
        FROM pg_catalog.pg_proc p
        JOIN pg_catalog.pg_namespace n ON n.oid = p.pronamespace
        JOIN pg_catalog.pg_language l ON l.oid = p.prolang
        WHERE n.nspname = $1
        ORDER BY p.proname
        LIMIT $2 OFFSET $3
        ".

Definition count_triggers_sql : jsstring :=
  str "SELECT COUNT(" ++ str "*) as total FROM information_schema.triggers
         WHERE trigger_schema = $1".

Definition list_triggers_sql : jsstring :=
  str "
        SELECT
          t.trigger_name,
          t.event_manipulation as event,
          t.event_object_table as table_name,
          t.action_timing as timing,
          t.action_statement as action,
          pg_catalog.obj_description(
            (SELECT oid FROM pg_trigger WHERE tgname = t.trigger_name LIMIT 1),
            'pg_trigger'
          ) as description
        FROM information_schema.triggers t
        WHERE t.trigger_schema = $1
        ORDER BY t.event_object_table, t.trigger_name
        LIMIT $2 OFFSET $3
        ".

Definition trigger_definition_sql : jsstring :=
  str "
        SELECT
          t.trigger_name,
          t.event_manipulation as event,
          t.event_object_table as table_name,
          t.action_timing as timing,
          t.action_statement as action,
          pg_get_triggerdef(
            (SELECT oid FROM pg_trigger WHERE tgname = t.trigger_name LIMIT 1)
          ) as trigger_definition
        FROM information_schema.triggers t
        WHERE t.trigger_schema = $1 AND t.trigger_name = $2
        ".

(** [allowedSchemas.includes(s)] for a value [s] that may be [undefined] or
    no text: only a text can equal an element. *)
Definition includes_value (l : list jsstring) (v : option Json) : bool :=
  match v with
  | Some (JStr s) => includes l s
  | _ => false
  end.

(** An element of an array as [JSON.stringify] writes it: [undefined]
    becomes [null]. *)
Definition array_item (v : option Json) : Json :=
  match v with
  | Some j => j
  | None => JNull
  end.

(** The messages of the calls that failed, in the order of the calls. *)
Fixpoint rejections {A} (rs : list (jsstring + A)) : list jsstring :=
  match rs with
  | [] => []
  | inl msg :: rest => msg :: rejections rest
  | inr _ :: rest => rejections rest
  end.

(** What [objects.ts] throws: the errors of the other files and the
    error of [postgres_get_trigger_definition]. *)
Inductive ObjectExn :=
| Raised (e : Exn)
| TriggerNotFound (trigger_name schema : jsstring).

Definition object_message (e : ObjectExn) : jsstring :=
  match e with
  | Raised e' => message e'
  | TriggerNotFound trigger_name schema =>
      str "Trigger '" ++ trigger_name ++ str "' not found in schema '"
        ++ schema ++ str "'"
  end.

Definition object_kind (e : ObjectExn) : ErrorKind :=
  match e with
  | Raised e' => kind e'
  | TriggerNotFound _ _ => NotFound
  end.

Section MoreHandlers.

Variable db : Driver.
Variable allowedSchemas : list jsstring.

(** [src/tools/introspection.ts], [postgres_list_schemas] *)
Definition postgres_list_schemas : M McpToolResult :=
  result <- query db list_schemas_sql [] ;;
  schemas <- lift (map_result
                     (fun row => member (str "schema_name") (Some row))
                     (rows result)) ;;
  let filtered :=
    if 0 <? length allowedSchemas
    then filter (fun s => includes_value allowedSchemas s) schemas
    else schemas in
  ret (formatResult
         (JObj [(str "schemas", JArr (map array_item filtered));
                (str "total", JNum (Num (Z.of_nat (length filtered))));
                (str "configured_schemas",
                  if 0 <? length allowedSchemas
                  then JArr (map JStr allowedSchemas)
                  else JStr (str "all"))])).

(** [src/tools/introspection.ts], [postgres_describe_table].  The three
    calls of [Promise.all] are made before any of them is awaited; when
    some fail, the handler throws the rejection that comes first in time,
    which [race] picks among the failures. *)
Definition postgres_describe_table (race : list jsstring -> jsstring)
    (schema table : jsstring) : M McpToolResult :=
  _ <- lift (assertSchemaAllowed schema allowedSchemas) ;;
  fun log =>
    let columnsResult :=
      pool_query db describe_columns_sql [JStr schema; JStr table] in
    let constraintsResult :=
      pool_query db describe_constraints_sql [JStr schema; JStr table] in
    let indexesResult :=
      pool_query db describe_indexes_sql [JStr schema; JStr table] in
    let log' :=
      log ++ [PoolQuery describe_columns_sql [JStr schema; JStr table];
              PoolQuery describe_constraints_sql [JStr schema; JStr table];
              PoolQuery describe_indexes_sql [JStr schema; JStr table]] in
    match columnsResult, constraintsResult, indexesResult with
    | inr columns, inr constraints, inr indexes =>
        (log',
         Ok (formatResult
               (JObj [(str "schema", JStr schema);
                      (str "table", JStr table);
                      (str "columns", JArr (rows columns));
                      (str "constraints", JArr (rows constraints));
                      (str "indexes", JArr (rows indexes))])))
    | _, _, _ =>
        (log',
         Throw (DriverError
                  (race (rejections
                           [columnsResult; constraintsResult; indexesResult]))))
    end.

(** [src/tools/objects.ts], [postgres_list_functions] *)
Definition postgres_list_functions (schema : jsstring) (limit offset : Z)
    : M McpToolResult :=
  _ <- lift (assertSchemaAllowed schema allowedSchemas) ;;
  countResult <- query db count_functions_sql [JStr schema] ;;
  total_field <- lift (member (str "total") (nth_error (rows countResult) 0)) ;;
  let total := parseInt (toString_opt total_field) in
  result <- query db list_functions_sql
              [JStr schema; JNum (Num limit); JNum (Num offset)] ;;
  let count := count_of (rows result) in
  ret (formatResult
         (JObj ([(str "schema", JStr schema);
                 (str "functions", JArr (rows result));
                 (str "count", JNum count);
                 (str "total", JNum total);
                 (str "offset", JNum (Num offset));
                 (str "has_more",
                   JBool (num_gt total (num_add (Num offset) count)))]
                ++ (if num_gt total (num_add (Num offset) count)
                    then [(str "next_offset",
                            JNum (num_add (Num offset) count))]
                    else [])))).

(** [src/tools/objects.ts], [postgres_list_triggers] *)
Definition postgres_list_triggers (schema : jsstring) (limit offset : Z)
    : M McpToolResult :=
  _ <- lift (assertSchemaAllowed schema allowedSchemas) ;;
  countResult <- query db count_triggers_sql [JStr schema] ;;
  total_field <- lift (member (str "total") (nth_error (rows countResult) 0)) ;;
  let total := parseInt (toString_opt total_field) in
  result <- query db list_triggers_sql
              [JStr schema; JNum (Num limit); JNum (Num offset)] ;;
  let count := count_of (rows result) in
  ret (formatResult
         (JObj ([(str "schema", JStr schema);
                 (str "triggers", JArr (rows result));
                 (str "count", JNum count);
                 (str "total", JNum total);
                 (str "offset", JNum (Num offset));
                 (str "has_more",
                   JBool (num_gt total (num_add (Num offset) count)))]
                ++ (if num_gt total (num_add (Num offset) count)
                    then [(str "next_offset",
                            JNum (num_add (Num offset) count))]
                    else [])))).

(** [src/tools/objects.ts], [postgres_get_trigger_definition] *)
Definition postgres_get_trigger_definition (schema trigger_name : jsstring)
    (log : list Event) : list Event * (ObjectExn + McpToolResult) :=
  match assertSchemaAllowed schema allowedSchemas with
  | Throw e => (log, inl (Raised e))
  | Ok _ =>
      match query db trigger_definition_sql [JStr schema; JStr trigger_name]
              log with
      | (log', Throw e) => (log', inl (Raised e))
      | (log', Ok result) =>
          match rows result with
          | [] => (log', inl (TriggerNotFound trigger_name schema))
          | row0 :: _ => (log', inr (formatResult row0))
          end
      end
  end.

End MoreHandlers.

(** *** Vocabulary of the further properties *)

(** The three tools that list a page of a catalogue. *)
Inductive ListTool :=
| Tables
| Functions
| Triggers.

Definition list_tool (t : ListTool) (db : Driver) (allowedSchemas : list jsstring)
    : jsstring -> Z -> Z -> M McpToolResult :=
  match t with
  | Tables => postgres_list_tables db allowedSchemas
  | Functions => postgres_list_functions db allowedSchemas
  | Triggers => postgres_list_triggers db allowedSchemas
  end.

Definition count_sql (t : ListTool) : jsstring :=
  match t with
  | Tables => count_tables_sql
  | Functions => count_functions_sql
  | Triggers => count_triggers_sql
  end.

Definition page_sql (t : ListTool) : jsstring :=
  match t with
  | Tables => list_tables_sql
  | Functions => list_functions_sql
  | Triggers => list_triggers_sql
  end.

Definition items_key (t : ListTool) : jsstring :=
  match t with
  | Tables => str "tables"
  | Functions => str "functions"
  | Triggers => str "triggers"
  end.

(** The statements [postgres_execute_query] means to send on its
    connection, in order. *)
Definition session_plan (allowedSchemas : list jsstring) (finalQuery : jsstring)
    : list jsstring :=
  [str "SET statement_timeout = 30000"]
    ++ (if 0 <? length allowedSchemas
        then [str "SET search_path = "
                ++ join (str ", ")
                     (map (fun s => [dquote] ++ s ++ [dquote]) allowedSchemas)]
        else [])
    ++ [finalQuery].

(** The statements of a plan that are sent: each one up to the first that
    fails, that one included. *)
Fixpoint run_plan (db : Driver) (plan : list jsstring) : list jsstring :=
  match plan with
  | [] => []
  | s :: rest =>
      match client_query db s with
      | inr _ => s :: run_plan db rest
      | inl _ => [s]
      end
  end.

(** The message of the first statement of a plan that fails. *)
Fixpoint first_failure (db : Driver) (plan : list jsstring) : option jsstring :=
  match plan with
  | [] => None
  | s :: rest =>
      match client_query db s with
      | inr _ => first_failure db rest
      | inl msg => Some msg
      end
  end.

Definition passes (r : result unit) : bool :=
  match r with
  | Ok _ => true
  | Throw _ => false
  end.

Definition connects (db : Driver) : bool :=
  match pool_connect db with
  | inr _ => true
  | inl _ => false
  end.

(** The object a list tool formats: the page, and where it stands. *)
Definition page_object (t : ListTool) (schema : jsstring) (offset : Z)
    (total : number) (items : list Json) : Json :=
  JObj ([(str "schema", JStr schema);
         (items_key t, JArr items);
         (str "count", JNum (count_of items));
         (str "total", JNum total);
         (str "offset", JNum (Num offset));
         (str "has_more",
           JBool (num_gt total (num_add (Num offset) (count_of items))))]
        ++ (if num_gt total (num_add (Num offset) (count_of items))
            then [(str "next_offset",
                    JNum (num_add (Num offset) (count_of items)))]
            else [])).

(** The statement [postgres_query_table] builds. *)
Definition table_query (schema table columns : jsstring)
    (where_ : option jsstring) : jsstring :=
  str "SELECT " ++ columns ++ str " FROM " ++ [dquote] ++ schema ++ [dquote]
    ++ str "." ++ [dquote] ++ table ++ [dquote]
    ++ match where_ with
       | Some (c :: w) => str " WHERE " ++ c :: w
       | _ => []
       end
    ++ str " LIMIT $1".

(** The texts found under [key] in the rows, in order. *)
Definition text_values (key : jsstring) (rows : list Json) : list jsstring :=
  flat_map (fun row => match get_prop key row with
                       | Some (JStr s) => [s]
                       | _ => []
                       end) rows.

Definition table_row (t : jsstring) : Json :=
  JObj [(str "table_name", JStr t)].

Definition blank_or_comma (c : ascii) : bool :=
  isWhiteSpace c || Ascii.eqb c ","%char.

(** A name as [DB_SCHEMAS] can list it: no comma, no white space around. *)
Definition plain_name (s : jsstring) : Prop :=
  ~ In ","%char s /\ trim s = s.

Definition count_events (p : Event -> bool) (log : list Event) : nat :=
  length (filter p log).

Definition is_release (ev : Event) : bool :=
  match ev with
  | ClientRelease => true
  | _ => false
  end.

Definition is_connect (ev : Event) : bool :=
  match ev with
  | PoolConnect => true
  | _ => false
  end.

(** *** Vocabulary of the responses *)

(** An integer that a double holds exactly, as it does every integer up to
    2^53 in absolute value. *)
Definition exact_double (z : Z) : Prop := (Z.abs z <= 2 ^ 53)%Z.

(** The JSON text of [data] has at most 25000 characters. *)
Definition fits (data : Json) : Prop :=
  (str_length (JSON_stringify data) <= CHARACTER_LIMIT)%Z.

(** The response that carries the whole JSON text of [data]. *)
Definition whole (data : Json) : McpToolResult :=
  mkResult [mkText (str "text") (JSON_stringify data)].

(** The response that carries the first 25000 characters of the JSON text
    of [data], followed by the notice. *)
Definition cut (data : Json) : McpToolResult :=
  mkResult
    [mkText (str "text")
       (slice0 (JSON_stringify data) CHARACTER_LIMIT
          ++ truncation_notice (str_length (JSON_stringify data)))].

(** A handler ended with a response whose text holds ["key": value]. *)
Definition shown_in (end_ : result McpToolResult) (key value : jsstring)
    : bool :=
  match end_ with
  | Ok r => contains (response_text r) (quote key ++ str ": " ++ value)
  | Throw _ => false
  end.

(** The object a list tool reports for a page of [items] that starts at
    offset [O] of [T] entries. *)
Definition page_report (key schema : jsstring) (items : list Json) (T O : Z)
    : Json :=
  let k := Z.of_nat (length items) in
  JObj ([(str "schema", JStr schema);
         (key, JArr items);
         (str "count", JNum (Num k));
         (str "total", JNum (Num T));
         (str "offset", JNum (Num O));
         (str "has_more", JBool (T >? O + k)%Z)]
        ++ (if (T >? O + k)%Z
            then [(str "next_offset", JNum (Num (O + k)))]
            else [])).

(** Whatever the page, the response of [postgres_list_tables] shows count,
    total, offset and has_more, and next_offset when more remain. *)
Definition pagination_always_shown (db : Driver) (schema : jsstring)
    (limit offset : Z) : Prop :=
  forall countResult row0 others T page,
    pool_query db count_tables_sql [JStr schema] = inr countResult ->
    rows countResult = row0 :: others ->
    get_prop (str "total") row0 = Some (JStr (decimal T)) ->
    pool_query db list_tables_sql
      [JStr schema; JNum (Num limit); JNum (Num offset)] = inr page ->
    let k := Z.of_nat (length (rows page)) in
    let end_ := outcome (postgres_list_tables db [] schema limit offset) [] in
    shown_in end_ (str "count") (decimal k) = true
    /\ shown_in end_ (str "total") (decimal T) = true
    /\ shown_in end_ (str "offset") (decimal offset) = true
    /\ shown_in end_ (str "has_more")
         (if (T >? offset + k)%Z then str "true" else str "false") = true
    /\ ((T >? offset + k)%Z = true ->
        shown_in end_ (str "next_offset") (decimal (offset + k)) = true).

(** A catalogue of 600 tables. *)
Definition archive_tables : list jsstring :=
  map (fun n => str "customer_orders_archive_" ++ decimal (Z.of_nat n))
    (seq 0 600).

(** Whenever the lookup returns a row, the response of
    [postgres_get_function_definition] shows the definition of the first
    one. *)
Definition definition_always_returned (db : Driver)
    (schema function_name : jsstring) : Prop :=
  forall res row0 others def,
    pool_query db function_definition_sql [JStr schema; JStr function_name]
    = inr res ->
    rows res = row0 :: others ->
    get_prop (str "definition") row0 = Some (JStr def) ->
    shown_in
      (outcome (postgres_get_function_definition db [] schema function_name) [])
      (str "definition") (quote def) = true.

(** The definition of a function with a body of 25000 characters. *)
Definition long_definition : jsstring :=
  str "CREATE FUNCTION report() RETURNS void LANGUAGE sql AS $$ "
    ++ repeat "-"%char (Z.to_nat CHARACTER_LIMIT) ++ str " $$".

(** The statements of a plan all succeed. *)
Definition all_succeed (db : Driver) (plan : list jsstring) : Prop :=
  forall s, In s plan -> exists res, client_query db s = inr res.

(** * Properties *)

(** ** Characters *)

Lemma all_ascii_complete (c : ascii) : In c all_ascii.
Proof.
  unfold all_ascii. rewrite <- (ascii_nat_embedding c).
  apply in_map, in_seq. pose proof (nat_ascii_bounded c). lia.
Qed.

Lemma forall_ascii (P : ascii -> bool) :
  forallb P all_ascii = true -> forall c, P c = true.
Proof.
  intros H c. rewrite forallb_forall in H. apply H, all_ascii_complete.
Qed.

Lemma forall_ascii2 (P : ascii -> ascii -> bool) :
  forallb (fun a => forallb (P a) all_ascii) all_ascii = true ->
  forall a c, P a c = true.
Proof.
  intros H a c.
  apply (forall_ascii (P a)). revert a. apply forall_ascii. exact H.
Qed.

Lemma space_not_digit c : isWhiteSpace c = true -> isDigit c = false.
Proof.
  intros H.
  generalize (forall_ascii (fun c => implb (isWhiteSpace c) (negb (isDigit c)))
                eq_refl c).
  rewrite H. simpl. now destruct (isDigit c).
Qed.

Lemma digit_not_space c : isDigit c = true -> isWhiteSpace c = false.
Proof.
  intros H. destruct (isWhiteSpace c) eqn:E; trivial.
  apply space_not_digit in E. congruence.
Qed.

Lemma digit_is_word c : isDigit c = true -> isWordChar c = true.
Proof.
  intros H.
  generalize (forall_ascii (fun c => implb (isDigit c) (isWordChar c)) eq_refl c).
  now rewrite H.
Qed.

Lemma space_not_word c : isWhiteSpace c = true -> isWordChar c = false.
Proof.
  intros H.
  generalize (forall_ascii (fun c => implb (isWhiteSpace c) (negb (isWordChar c)))
                eq_refl c).
  rewrite H. simpl. now destruct (isWordChar c).
Qed.

(** What the [i] flag lets an ASCII letter of a pattern match: a letter,
    hence a word character, neither white space nor a digit. *)
Lemma letter_match a c :
  is_letter a = true -> char_match true a c = true ->
  is_letter c = true /\ isWordChar c = true /\ isWhiteSpace c = false
  /\ isDigit c = false.
Proof.
  intros Ha Hc.
  generalize (forall_ascii2
    (fun a c => implb (is_letter a && char_match true a c)
                  (is_letter c && isWordChar c && negb (isWhiteSpace c)
                   && negb (isDigit c)))
    eq_refl a c).
  rewrite Ha, Hc. simpl.
  destruct (is_letter c), (isWordChar c), (isWhiteSpace c), (isDigit c);
    simpl; intros; try discriminate; auto.
Qed.

Lemma char_match_canon a c :
  char_match true a c = true <-> canonicalize a = canonicalize c.
Proof.
  unfold char_match. apply Ascii.eqb_eq.
Qed.

(** ** Lists of characters *)

Lemma span_app p s :
  s = fst (span p s) ++ snd (span p s).
Proof.
  induction s as [|c s IH]; simpl; trivial.
  destruct (p c); simpl; trivial.
  destruct (span p s) as [w rest]. simpl in *. now f_equal.
Qed.

Lemma span_all p s : forallb p (fst (span p s)) = true.
Proof.
  induction s as [|c s IH]; simpl; trivial.
  destruct (p c) eqn:E; simpl; trivial.
  destruct (span p s) as [w rest]. simpl in *. now rewrite E.
Qed.

Lemma span_stop p s :
  match snd (span p s) with
  | c :: _ => p c = false
  | [] => True
  end.
Proof.
  induction s as [|c s IH]; simpl; trivial.
  destruct (p c) eqn:E; simpl; trivial.
  destruct (span p s) as [w rest]. simpl in *. exact IH.
Qed.

Lemma span_intro p w rest :
  forallb p w = true ->
  match rest with c :: _ => p c = false | [] => True end ->
  span p (w ++ rest) = (w, rest).
Proof.
  intros Hw Hr. induction w as [|c w IH]; simpl in *.
  - destruct rest as [|c r]; simpl; trivial. now rewrite Hr.
  - apply andb_true_iff in Hw as [Hc Hw]. rewrite Hc, (IH Hw). reflexivity.
Qed.

Lemma strip_ci_sound p s w rest :
  strip_ci p s = Some (w, rest) -> s = w ++ rest /\ eq_ci w p.
Proof.
  unfold eq_ci. revert s w rest.
  induction p as [|a p IH]; intros s w rest; cbn [strip_ci].
  - intros H. inversion H; subst. auto.
  - destruct s as [|b s]; [discriminate|].
    destruct (char_match true a b) eqn:E; [|discriminate].
    destruct (strip_ci p s) as [[w' rest']|] eqn:E'; [|discriminate].
    intros H. inversion H; subst.
    apply IH in E' as [-> Hw']. apply char_match_canon in E.
    simpl. split; congruence.
Qed.

Lemma strip_ci_complete p w rest :
  eq_ci w p -> strip_ci p (w ++ rest) = Some (w, rest).
Proof.
  unfold eq_ci. revert w.
  induction p as [|a p IH]; intros w H; cbn [strip_ci].
  - destruct w; [reflexivity|discriminate].
  - destruct w as [|b w]; [discriminate|].
    simpl in H. inversion H as [[Hb Hw]].
    cbn [app].
    assert (char_match true a b = true) as ->
      by (apply char_match_canon; congruence).
    now rewrite (IH _ Hw).
Qed.


Lemma firstn_consumed (a b : jsstring) :
  firstn (length (a ++ b) - length b) (a ++ b) = a.
Proof.
  rewrite length_app.
  replace (length a + length b - length b) with (length a + 0) by lia.
  rewrite firstn_app_2. simpl. apply app_nil_r.
Qed.

(** ** The matcher on the constructs of the patterns *)

Lemma matcher_literal p k x :
  matcher true (literal p) k x =
  match strip_ci p (after x) with
  | Some (w, rest) => k (mkState (rev w ++ before x) rest (captures x))
  | None => None
  end.
Proof.
  revert x. induction p as [|a p IH]; intros [l s cs]; cbn [literal matcher strip_ci].
  - reflexivity.
  - cbn [after before captures]. destruct s as [|b s]; trivial.
    destruct (char_match true a b); trivial.
    rewrite IH. cbn [after before captures].
    destruct (strip_ci p s) as [[w rest]|]; trivial.
    simpl. now rewrite <- app_assoc.
Qed.

Lemma plus_rest_span p k :
  takes_all p k ->
  forall s l cs,
    plus_rest p k l s cs =
    k (mkState (rev (fst (span p s)) ++ l) (snd (span p s)) cs).
Proof.
  intros Hk. induction s as [|c s IH]; intros l cs; cbn [plus_rest span].
  - reflexivity.
  - destruct (p c) eqn:E; [|reflexivity].
    rewrite IH. destruct (span p s) as [w rest]. cbn [fst snd rev].
    rewrite <- app_assoc. cbn [app].
    destruct (k (mkState (rev w ++ c :: l) rest cs)) eqn:K; trivial.
    destruct Hk as [Hk|Hk]; [now apply Hk|].
    now apply Hk in K.
Qed.

Lemma matcher_plus ic p k x :
  takes_all p k ->
  matcher ic (PlusClass p) k x =
  match fst (span p (after x)) with
  | [] => None
  | w => k (mkState (rev w ++ before x) (snd (span p (after x))) (captures x))
  end.
Proof.
  intros Hk. destruct x as [l s cs]. cbn [matcher after before captures].
  destruct s as [|a s]; [reflexivity|]. cbn [span].
  destruct (p a) eqn:E; [|reflexivity].
  rewrite (plus_rest_span p k Hk).
  destruct (span p s) as [w rest]. cbn [fst snd rev].
  now rewrite <- app_assoc.
Qed.

Lemma matcher_seq ic a b k x :
  matcher ic (Seq a b) k x = matcher ic a (matcher ic b k) x.
Proof. reflexivity. Qed.

Lemma matcher_boundary ic k x :
  matcher ic WordBoundary k x =
  if is_boundary (before x) (after x) then k x else None.
Proof. reflexivity. Qed.

Lemma matcher_group ic r k x :
  matcher ic (Group r) k x =
  matcher ic r
    (fun y => k (mkState (before y) (after y) (captures y ++ [consumed x y]))) x.
Proof. reflexivity. Qed.

Lemma matcher_empty ic k x : matcher ic Empty k x = k x.
Proof. reflexivity. Qed.

Lemma matcher_plus_head ic p k l c s cs :
  p c = false -> matcher ic (PlusClass p) k (mkState l (c :: s) cs) = None.
Proof. intros H. cbn [matcher after]. now rewrite H. Qed.

(** [\bLIMIT\s+(\d+)] at one position. *)
Lemma limit_match_at l s :
  matcher true (pattern LIMIT_MATCH) Some (mkState l s []) =
  match limit_at l s with
  | Some (kw, ws, ds, post) =>
      Some (mkState (rev ds ++ rev ws ++ rev kw ++ l) post [ds])
  | None => None
  end.
Proof.
  unfold LIMIT_MATCH, limit_at, seq_of. cbn [pattern fold_right].
  rewrite matcher_seq, matcher_boundary. cbn [before after].
  destruct (is_boundary l s); [|reflexivity].
  rewrite matcher_seq, matcher_literal. cbn [before after captures].
  destruct (strip_ci (str "LIMIT") s) as [[kw s1]|]; [|reflexivity].
  rewrite matcher_seq, matcher_plus.
  2:{ left. intros l' c s' cs Hc.
      rewrite matcher_seq, matcher_group.
      apply matcher_plus_head, space_not_digit, Hc. }
  cbn [before after captures].
  destruct (span isWhiteSpace s1) as [ws s2]. cbn [fst snd].
  destruct ws as [|w0 ws]; [reflexivity|].
  rewrite matcher_seq, matcher_group, matcher_plus.
  2:{ right. intros x. rewrite matcher_empty. discriminate. }
  cbn [before after captures].
  pose proof (span_app isDigit s2) as Hs2.
  destruct (span isDigit s2) as [ds post]. cbn [fst snd] in *.
  destruct ds as [|d0 ds]; [reflexivity|].
  rewrite matcher_empty.
  unfold consumed. cbn [after app]. rewrite Hs2 at 1 2.
  now rewrite firstn_consumed.
Qed.

(** [\bLIMIT\s+\d+] at one position. *)
Lemma limit_test_at l s :
  matcher true (pattern LIMIT_TEST) Some (mkState l s []) =
  match limit_at l s with
  | Some (kw, ws, ds, post) =>
      Some (mkState (rev ds ++ rev ws ++ rev kw ++ l) post [])
  | None => None
  end.
Proof.
  unfold LIMIT_TEST, limit_at, seq_of. cbn [pattern fold_right].
  rewrite matcher_seq, matcher_boundary. cbn [before after].
  destruct (is_boundary l s); [|reflexivity].
  rewrite matcher_seq, matcher_literal. cbn [before after captures].
  destruct (strip_ci (str "LIMIT") s) as [[kw s1]|]; [|reflexivity].
  rewrite matcher_seq, matcher_plus.
  2:{ left. intros l' c s' cs Hc.
      rewrite matcher_seq.
      apply matcher_plus_head, space_not_digit, Hc. }
  cbn [before after captures].
  destruct (span isWhiteSpace s1) as [ws s2]. cbn [fst snd].
  destruct ws as [|w0 ws]; [reflexivity|].
  rewrite matcher_seq, matcher_plus.
  2:{ right. intros x. rewrite matcher_empty. discriminate. }
  cbn [before after captures].
  destruct (span isDigit s2) as [ds post]. cbn [fst snd].
  destruct ds as [|d0 ds]; reflexivity.
Qed.

(** ** [LIMIT <integer>] at a position, and its first occurrence *)

Lemma all_of_head p s :
  all_of p s -> exists c t, s = c :: t /\ p c = true.
Proof.
  intros [Hn Hp]. destruct s as [|c t]; [congruence|].
  simpl in Hp. apply andb_true_iff in Hp as [Hc _]. eauto.
Qed.

Lemma keyword_head kw k0 k :
  is_letter k0 = true -> eq_ci kw (k0 :: k) ->
  exists c t, kw = c :: t /\ isWordChar c = true.
Proof.
  unfold eq_ci. intros Hk H. destruct kw as [|c t]; [discriminate|].
  simpl in H. inversion H.
  assert (char_match true k0 c = true) as Hc
    by (apply char_match_canon; congruence).
  destruct (letter_match _ _ Hk Hc) as (_ & Hw & _). eauto.
Qed.

Lemma limit_at_sound l s kw ws ds post :
  limit_at l s = Some (kw, ws, ds, post) ->
  s = kw ++ ws ++ ds ++ post /\ word_at l = false
  /\ eq_ci kw (str "LIMIT") /\ all_of isWhiteSpace ws
  /\ all_of isDigit ds /\ no_digit_ahead post.
Proof.
  unfold limit_at. destruct (is_boundary l s) eqn:B; [|discriminate].
  destruct (strip_ci (str "LIMIT") s) as [[kw' s1]|] eqn:K; [|discriminate].
  pose proof (span_app isWhiteSpace s1) as A1.
  pose proof (span_all isWhiteSpace s1) as W1.
  destruct (span isWhiteSpace s1) as [ws' s2]. cbn [fst snd] in *.
  destruct ws' as [|w0 ws']; [discriminate|].
  pose proof (span_app isDigit s2) as A2.
  pose proof (span_all isDigit s2) as W2.
  pose proof (span_stop isDigit s2) as S2.
  destruct (span isDigit s2) as [ds' s3]. cbn [fst snd] in *.
  destruct ds' as [|d0 ds']; [discriminate|].
  intros H. inversion H; subst kw' ws ds post. clear H.
  apply strip_ci_sound in K as [-> K].
  repeat split; trivial; try discriminate.
  - rewrite A1, A2. reflexivity.
  - destruct (keyword_head kw "L"%char (str "IMIT") eq_refl K)
      as (c & t & -> & Hc).
    unfold is_boundary in B. simpl in B. rewrite Hc in B.
    now destruct (word_at l).
Qed.

Lemma limit_at_complete l kw ws ds post :
  word_at l = false -> eq_ci kw (str "LIMIT") -> all_of isWhiteSpace ws ->
  all_of isDigit ds -> no_digit_ahead post ->
  limit_at l (kw ++ ws ++ ds ++ post) = Some (kw, ws, ds, post).
Proof.
  intros Hl Hk Hw Hd Hp. unfold limit_at.
  destruct (keyword_head kw "L"%char (str "IMIT") eq_refl Hk)
    as (c & t & E & Hc).
  assert (is_boundary l (kw ++ ws ++ ds ++ post) = true) as ->.
  { unfold is_boundary. rewrite Hl, E. simpl. now rewrite Hc. }
  rewrite (strip_ci_complete _ _ _ Hk).
  destruct (all_of_head _ _ Hd) as (d & dt & Ed & Hd0).
  rewrite (span_intro isWhiteSpace ws (ds ++ post)).
  - destruct (all_of_head _ _ Hw) as (w & wt & -> & _).
    rewrite (span_intro isDigit ds post).
    + now rewrite Ed.
    + apply Hd.
    + exact Hp.
  - apply Hw.
  - rewrite Ed. simpl. now apply digit_not_space.
Qed.

Lemma limit_clause_iff s pre kw ws ds post :
  LimitClause s pre kw ws ds post <->
  s = pre ++ kw ++ ws ++ ds ++ post
  /\ limit_at (rev pre) (kw ++ ws ++ ds ++ post) = Some (kw, ws, ds, post).
Proof.
  split.
  - intros [H1 H2 H3 H4 H5 H6]. split; trivial.
    now apply limit_at_complete.
  - intros [H1 H2]. apply limit_at_sound in H2 as (_ & ? & ? & ? & ? & ?).
    now constructor.
Qed.

Lemma find_limit_first s : forall l a b r,
  s = a ++ b ->
  limit_at (rev a ++ l) b = Some r ->
  (forall a' b', s = a' ++ b' -> length a' < length a ->
                 limit_at (rev a' ++ l) b' = None) ->
  find_limit l s = Some (rev l ++ a, r).
Proof.
  intros l a. revert s l.
  induction a as [|c a IH]; intros s l b r Hs Hr Hfirst.
  - simpl in *. subst b. destruct s; simpl; rewrite Hr, app_nil_r; reflexivity.
  - subst s. cbn [app find_limit].
    assert (limit_at l (c :: a ++ b) = None) as ->
      by (apply (Hfirst [] (c :: a ++ b) eq_refl); simpl; lia).
    rewrite (IH (a ++ b) (c :: l) b r eq_refl).
    + simpl. now rewrite <- app_assoc.
    + simpl in Hr. now rewrite <- app_assoc in Hr.
    + intros a' b' E Hlen.
      specialize (Hfirst (c :: a') b'). simpl in Hfirst.
      rewrite <- app_assoc in Hfirst. apply Hfirst; [now f_equal|lia].
Qed.

Lemma find_limit_sound s : forall l pre r,
  find_limit l s = Some (pre, r) ->
  exists a b,
    s = a ++ b /\ pre = rev l ++ a /\ limit_at (rev a ++ l) b = Some r
    /\ forall a' b', s = a' ++ b' -> length a' < length a ->
                     limit_at (rev a' ++ l) b' = None.
Proof.
  induction s as [|c s IH]; intros l pre r; cbn [find_limit].
  - destruct (limit_at l []) eqn:E; [|discriminate].
    intros H. inversion H; subst. exists [], [].
    split; [reflexivity|]. split; [now rewrite app_nil_r|].
    split; [exact E|]. simpl. intros; lia.
  - destruct (limit_at l (c :: s)) eqn:E.
    + intros H. inversion H; subst. exists [], (c :: s).
      split; [reflexivity|]. split; [now rewrite app_nil_r|].
      split; [exact E|]. simpl. intros; lia.
    + intros H. apply IH in H as (a & b & -> & -> & Hr & Hfirst).
      exists (c :: a), b. simpl. rewrite <- !app_assoc. repeat split; trivial.
      intros a' b' E' Hlen. destruct a' as [|c' a'].
      * simpl in *. now subst b'.
      * simpl in *. inversion E'; subst c'. rewrite <- app_assoc.
        apply Hfirst; [assumption|lia].
Qed.

Lemma find_limit_none s : forall l,
  find_limit l s = None ->
  forall a b, s = a ++ b -> limit_at (rev a ++ l) b = None.
Proof.
  induction s as [|c s IH]; intros l; cbn [find_limit].
  - destruct (limit_at l []) eqn:E; [discriminate|].
    intros _ a b H. symmetry in H. apply app_eq_nil in H as [-> ->]. exact E.
  - destruct (limit_at l (c :: s)) eqn:E; [discriminate|].
    intros H a b Hs. destruct a as [|c' a].
    + simpl in *. now subst b.
    + simpl in *. inversion Hs; subst c'. rewrite <- app_assoc.
      now apply (IH (c :: l)).
Qed.

Lemma first_clause_found s pre kw ws ds post :
  FirstLimitClause s pre kw ws ds post ->
  find_limit [] s = Some (pre, (kw, ws, ds, post)).
Proof.
  intros [Hc Hfirst]. apply limit_clause_iff in Hc as [Hs Hat].
  apply (find_limit_first s [] pre (kw ++ ws ++ ds ++ post)); trivial.
  - now rewrite app_nil_r.
  - intros a' b' E Hlen. rewrite app_nil_r.
    destruct (limit_at (rev a') b') as [[[[kw' ws'] ds'] post']|] eqn:E';
      trivial.
    exfalso.
    assert (LimitClause s a' kw' ws' ds' post') as Hc'.
    { pose proof (limit_at_sound _ _ _ _ _ _ E') as (Hb & _).
      apply limit_clause_iff. subst b'. split; trivial. }
    apply Hfirst in Hc'. lia.
Qed.

Lemma found_first_clause s pre kw ws ds post :
  find_limit [] s = Some (pre, (kw, ws, ds, post)) ->
  FirstLimitClause s pre kw ws ds post.
Proof.
  intros H. apply find_limit_sound in H as (a & b & Hs & Hpre & Hat & Hfirst).
  simpl in Hpre. subst a. rewrite app_nil_r in Hat.
  pose proof (limit_at_sound _ _ _ _ _ _ Hat) as (Hb & _). subst b.
  split.
  - apply limit_clause_iff. split; trivial.
  - intros pre' kw' ws' ds' post' Hc'.
    apply limit_clause_iff in Hc' as [Hs' Hat'].
    destruct (Nat.le_gt_cases (length pre) (length pre')) as [|Hlt]; trivial.
    specialize (Hfirst pre' _ Hs' Hlt). rewrite app_nil_r in Hfirst.
    congruence.
Qed.

Lemma no_clause_iff s : NoLimitClause s <-> find_limit [] s = None.
Proof.
  split.
  - intros H. destruct (find_limit [] s) as [[pre [[[kw ws] ds] post]]|] eqn:E;
      trivial.
    apply found_first_clause in E as [E _]. now apply H in E.
  - intros H pre kw ws ds post Hc.
    apply limit_clause_iff in Hc as [Hs Hat].
    pose proof (find_limit_none s [] H pre _ Hs) as Hn.
    rewrite app_nil_r in Hn. congruence.
Qed.

(** ** [parseInt] on a run of digits *)

Lemma strip_sign_digit c t :
  isDigit c = true -> strip_sign (c :: t) = (1%Z, c :: t).
Proof.
  destruct c as [[] [] [] [] [] [] [] []]; try discriminate; reflexivity.
Qed.

Lemma strip_hex_prefix_digits s :
  forallb isDigit s = true -> strip_hex_prefix s = (10%Z, s).
Proof.
  destruct s as [|c [|c2 t]]; trivial.
  - destruct c as [[] [] [] [] [] [] [] []]; reflexivity.
  - intros H. cbn [forallb] in H.
    apply andb_true_iff in H as [H1 H]. apply andb_true_iff in H as [H2 _].
    destruct c as [[] [] [] [] [] [] [] []]; try discriminate H1; trivial;
      destruct c2 as [[] [] [] [] [] [] [] []]; try discriminate H2; trivial.
Qed.

Lemma digit_value_decimal c :
  isDigit c = true -> digit_value 10 c = Some (Z.of_N (code c) - 48)%Z.
Proof.
  intros H. unfold digit_value. rewrite H.
  unfold isDigit, in_range in H. apply andb_true_iff in H as [H1 H2].
  apply N.leb_le in H1, H2.
  destruct (Z.ltb_spec (Z.of_N (code c) - 48) 10); trivial. lia.
Qed.

Lemma parse_digits_all ds : forall acc,
  forallb isDigit ds = true ->
  parse_digits 10 ds (Some acc) =
  Some (fold_left (fun a c => a * 10 + (Z.of_N (code c) - 48))%Z ds acc).
Proof.
  induction ds as [|c ds IH]; intros acc H; cbn [parse_digits fold_left].
  - reflexivity.
  - cbn [forallb] in H. apply andb_true_iff in H as [Hc H].
    rewrite (digit_value_decimal c Hc). now apply IH.
Qed.

Lemma parseInt_digits ds :
  all_of isDigit ds -> parseInt ds = Num (digits_value ds).
Proof.
  intros Hd. destruct (all_of_head _ _ Hd) as (c & t & -> & Hc).
  destruct Hd as [_ Hd]. unfold parseInt.
  cbn [trimStart]. rewrite (digit_not_space c Hc).
  rewrite (strip_sign_digit c t Hc), (strip_hex_prefix_digits _ Hd).
  cbn [parse_digits]. rewrite (digit_value_decimal c Hc).
  cbn [forallb] in Hd. apply andb_true_iff in Hd as [_ Hd].
  rewrite (parse_digits_all t _ Hd).
  unfold digits_value. cbn [fold_left]. rewrite Z.mul_1_l. reflexivity.
Qed.

(** ** The rewriting of the statement in closed form *)

Lemma exec_limit_match s : forall l,
  exec_from LIMIT_MATCH l s =
  match find_limit l s with
  | Some (pre, (kw, ws, ds, post)) =>
      Some (mkMatch pre (kw ++ ws ++ ds) [ds] post)
  | None => None
  end.
Proof.
  assert (forall l s,
    match matcher (ignoreCase LIMIT_MATCH) (pattern LIMIT_MATCH) Some
            (mkState l s []) with
    | Some y => Some (mkMatch (rev l) (consumed (mkState l s []) y)
                        (captures y) (after y))
    | None => None
    end =
    match limit_at l s with
    | Some (kw, ws, ds, post) => Some (mkMatch (rev l) (kw ++ ws ++ ds) [ds] post)
    | None => None
    end) as Hstep.
  { clear s. intros l s. change (ignoreCase LIMIT_MATCH) with true.
    rewrite limit_match_at.
    destruct (limit_at l s) as [[[[kw ws] ds] post]|] eqn:E; trivial.
    apply limit_at_sound in E as (-> & _).
    unfold consumed. cbn [after captures].
    replace (kw ++ ws ++ ds ++ post) with ((kw ++ ws ++ ds) ++ post)
      by now rewrite <- !app_assoc.
    now rewrite firstn_consumed. }
  induction s as [|c s IH]; intros l; cbn [exec_from find_limit];
    specialize (Hstep l).
  - specialize (Hstep []).
    destruct (matcher (ignoreCase LIMIT_MATCH) (pattern LIMIT_MATCH) Some
                (mkState l [] [])); destruct (limit_at l [])
      as [[[[kw ws] ds] post]|]; congruence.
  - specialize (Hstep (c :: s)).
    destruct (matcher (ignoreCase LIMIT_MATCH) (pattern LIMIT_MATCH) Some
                (mkState l (c :: s) [])); destruct (limit_at l (c :: s))
      as [[[[kw ws] ds] post]|]; try congruence.
    apply IH.
Qed.

Lemma exec_limit_test s : forall l,
  exec_from LIMIT_TEST l s =
  match find_limit l s with
  | Some (pre, (kw, ws, ds, post)) =>
      Some (mkMatch pre (kw ++ ws ++ ds) [] post)
  | None => None
  end.
Proof.
  assert (forall l s,
    match matcher (ignoreCase LIMIT_TEST) (pattern LIMIT_TEST) Some
            (mkState l s []) with
    | Some y => Some (mkMatch (rev l) (consumed (mkState l s []) y)
                        (captures y) (after y))
    | None => None
    end =
    match limit_at l s with
    | Some (kw, ws, ds, post) => Some (mkMatch (rev l) (kw ++ ws ++ ds) [] post)
    | None => None
    end) as Hstep.
  { clear s. intros l s. change (ignoreCase LIMIT_TEST) with true.
    rewrite limit_test_at.
    destruct (limit_at l s) as [[[[kw ws] ds] post]|] eqn:E; trivial.
    apply limit_at_sound in E as (-> & _).
    unfold consumed. cbn [after captures].
    replace (kw ++ ws ++ ds ++ post) with ((kw ++ ws ++ ds) ++ post)
      by now rewrite <- !app_assoc.
    now rewrite firstn_consumed. }
  induction s as [|c s IH]; intros l; cbn [exec_from find_limit];
    specialize (Hstep l).
  - specialize (Hstep []).
    destruct (matcher (ignoreCase LIMIT_TEST) (pattern LIMIT_TEST) Some
                (mkState l [] [])); destruct (limit_at l [])
      as [[[[kw ws] ds] post]|]; congruence.
  - specialize (Hstep (c :: s)).
    destruct (matcher (ignoreCase LIMIT_TEST) (pattern LIMIT_TEST) Some
                (mkState l (c :: s) [])); destruct (limit_at l (c :: s))
      as [[[[kw ws] ds] post]|]; try congruence.
    apply IH.
Qed.

Lemma limit_query_closed q limit :
  limit_query q limit =
  match find_limit [] (trim q) with
  | Some (pre, (kw, ws, ds, post)) =>
      pre ++ str "LIMIT "
        ++ number_to_string (Math_min (parseInt ds) (Num 100)) ++ post
  | None => trim q ++ str " LIMIT " ++ number_to_string (effective_cap limit)
  end.
Proof.
  unfold limit_query, RegExp_test, String_match, String_replace, RegExp_exec.
  rewrite exec_limit_test, exec_limit_match.
  destruct (find_limit [] (trim q)) as [[pre [[[kw ws] ds] post]]|];
    cbn [negb m_groups m_pre m_post]; reflexivity.
Qed.

Lemma all_of_last p s :
  all_of p s -> exists c t, rev s = c :: t /\ p c = true.
Proof.
  intros [Hn Hp]. destruct (rev s) as [|c t] eqn:E.
  - apply (f_equal (@rev ascii)) in E. rewrite rev_involutive in E.
    simpl in E. congruence.
  - exists c, t. split; trivial.
    rewrite forallb_forall in Hp. apply Hp, in_rev. rewrite E. now left.
Qed.

Lemma word_before_app x a :
  a <> [] -> word_at (rev (x ++ a)) = word_at (rev a).
Proof.
  intros Ha. rewrite rev_app_distr.
  destruct (rev a) as [|c t] eqn:E; trivial.
  apply (f_equal (@rev ascii)) in E. rewrite rev_involutive in E.
  simpl in E. congruence.
Qed.

Lemma word_before_digits x ds :
  all_of isDigit ds -> word_at (rev (x ++ ds)) = true.
Proof.
  intros Hd. rewrite word_before_app by apply Hd.
  destruct (all_of_last _ _ Hd) as (c & t & -> & Hc).
  simpl. now apply digit_is_word.
Qed.

Lemma min_with_ceiling ds :
  number_to_string (Math_min (Num (digits_value ds)) (Num 100)) =
  decimal (Z.min (digits_value ds) 100).
Proof. reflexivity. Qed.

Lemma limit_query_first q limit pre kw ws ds post :
  FirstLimitClause (trim q) pre kw ws ds post ->
  limit_query q limit =
  pre ++ str "LIMIT " ++ decimal (Z.min (digits_value ds) 100) ++ post.
Proof.
  intros H. rewrite limit_query_closed, (first_clause_found _ _ _ _ _ _ H).
  destruct H as [[_ _ _ _ Hd _] _].
  now rewrite (parseInt_digits ds Hd), min_with_ceiling.
Qed.

Lemma limit_query_none q limit :
  NoLimitClause (trim q) ->
  limit_query q limit =
  trim q ++ str " LIMIT " ++ decimal (Z.min (Z.max 1 limit) 100).
Proof.
  intros H. apply no_clause_iff in H.
  rewrite limit_query_closed, H. reflexivity.
Qed.

Lemma bind_throw {A B} (r : result A) (f : A -> M B) e log :
  r = Throw e -> (x <- lift r ;; f x) log = (log, Throw e).
Proof. intros ->. reflexivity. Qed.

Lemma bind_ok {A B} (r : result A) (f : A -> M B) a log :
  r = Ok a -> (x <- lift r ;; f x) log = f a log.
Proof. intros ->. reflexivity. Qed.

(** What [postgres_execute_query] sends is the rewritten statement: a
    call that succeeds has sent it on its connection, released the
    connection last, and reports it in the [query] field. *)
Lemma execute_query_sends_final db allowedSchemas q limit log r :
  outcome (postgres_execute_query db allowedSchemas q limit) log = Ok r ->
  exists sent res,
    calls (postgres_execute_query db allowedSchemas q limit) log =
    log ++ [PoolConnect] ++ sent
        ++ [ClientQuery (limit_query q limit); ClientRelease]
    /\ r = formatResult
             (JObj [(str "query", JStr (limit_query q limit));
                    (str "rows", JArr (rows res));
                    (str "row_count", JNum (count_of (rows res)));
                    (str "fields", JArr (map JStr (fields res)))]).
Proof.
  unfold outcome, calls, postgres_execute_query.
  destruct (validate_query q) as [[]|e] eqn:V; [|discriminate].
  rewrite (bind_ok _ _ tt log eq_refl).
  cbv [bind connect emit of_driver try_finally client_run release ret].
  destruct (pool_connect db) as [msg|[]]; [discriminate|].
  destruct (client_query db (str "SET statement_timeout = 30000"))
    as [msg|r0]; [discriminate|].
  destruct (0 <? length allowedSchemas).
  - destruct (client_query db _) as [msg|r1]; [discriminate|].
    destruct (client_query db (limit_query q limit)) as [msg|res];
      [discriminate|].
    cbn [fst snd]. intros H. inversion H; subst r.
    eexists [_; _], res. split; [|reflexivity].
    rewrite <- !app_assoc. reflexivity.
  - destruct (client_query db (limit_query q limit)) as [msg|res];
      [discriminate|].
    cbn [fst snd]. intros H. inversion H; subst r.
    eexists [_], res. split; [|reflexivity].
    rewrite <- !app_assoc. reflexivity.
Qed.

(** ** The claims on the rewriting of [LIMIT] *)

(** C1, as stated, fails: the rewriting does not keep the text of the
    clause and replace its digits alone.  On [select 1 limit 5] the handler
    gives [select 1 LIMIT 5], the keyword in upper case. *)
Lemma limit_clause_text_not_kept :
  ~ digits_replaced (str "select 1 limit 5") 3.
Proof.
  intros H.
  specialize (H (str "select 1 ") (str "limit") (str " ") (str "5") []).
  assert (FirstLimitClause (trim (str "select 1 limit 5"))
            (str "select 1 ") (str "limit") (str " ") (str "5") []) as F
    by (apply found_first_clause; vm_compute; reflexivity).
  apply H in F. vm_compute in F. discriminate F.
Qed.

(** C1, amended: when the trimmed statement contains [LIMIT <integer>], the
    requested cap plays no part and the first such clause, keyword, white
    space and digits, is replaced by [LIMIT ] and min(its value, 100); when
    it contains none, [ LIMIT ] and min(max(1, cap), 100) is appended to the
    trimmed statement.  [SELECT * FROM t LIMIT 500] with cap 5 passes the
    validation and becomes [SELECT * FROM t LIMIT 100], which is what the
    handler sends. *)
Theorem execute_query_limit_rewrite q limit :
  (forall pre kw ws ds post,
     FirstLimitClause (trim q) pre kw ws ds post ->
     limit_query q limit =
     pre ++ str "LIMIT " ++ decimal (Z.min (digits_value ds) 100) ++ post)
  /\ (NoLimitClause (trim q) ->
      limit_query q limit =
      trim q ++ str " LIMIT " ++ decimal (Z.min (Z.max 1 limit) 100))
  /\ validate_query (str "SELECT * FROM t LIMIT 500") = Ok tt
  /\ limit_query (str "SELECT * FROM t LIMIT 500") 5 =
     str "SELECT * FROM t LIMIT 100"
  /\ calls (postgres_execute_query (constant_driver (mkQueryResult [] [])) []
              (str "SELECT * FROM t LIMIT 500") 5) [] =
     [PoolConnect; ClientQuery (str "SET statement_timeout = 30000");
      ClientQuery (str "SELECT * FROM t LIMIT 100"); ClientRelease].
Proof.
  split; [|split; [|split; [|split]]].
  - intros pre kw ws ds post. apply limit_query_first.
  - apply limit_query_none.
  - vm_compute. reflexivity.
  - vm_compute. reflexivity.
  - vm_compute. reflexivity.
Qed.

Lemma execute_query_limit_rewrite_witness :
  FirstLimitClause (trim (str "  select 1 limit   500 offset 2 "))
    (str "select 1 ") (str "limit") (str "   ") (str "500") (str " offset 2")
  /\ limit_query (str "  select 1 limit   500 offset 2 ") 7 =
     str "select 1 LIMIT 100 offset 2"
  /\ NoLimitClause (trim (str "SELECT 1 "))
  /\ limit_query (str "SELECT 1 ") 7 = str "SELECT 1 LIMIT 7".
Proof.
  assert (FirstLimitClause (trim (str "  select 1 limit   500 offset 2 "))
            (str "select 1 ") (str "limit") (str "   ") (str "500")
            (str " offset 2")) as F
    by (apply found_first_clause; vm_compute; reflexivity).
  assert (NoLimitClause (trim (str "SELECT 1 "))) as N
    by (apply no_clause_iff; vm_compute; reflexivity).
  split; [exact F|]. split.
  - exact (proj1 (execute_query_limit_rewrite
                    (str "  select 1 limit   500 offset 2 ") 7) _ _ _ _ _ F).
  - split; [exact N|].
    exact (proj1 (proj2 (execute_query_limit_rewrite (str "SELECT 1 ") 7)) N).
Defined.

(** C10: only the first [LIMIT <integer>] of the statement is rewritten, to
    min(its value, 100); the text after it is kept as it is, so every later
    clause stays a clause with the same keyword, white space and digits; a
    statement whose only [LIMIT] is not followed by digits, such as
    [LIMIT ALL], has no clause for the handler, which appends [ LIMIT ] and
    the effective cap at its end. *)
Theorem limit_rewrite_first_only q limit :
  (forall pre kw ws ds post,
     FirstLimitClause (trim q) pre kw ws ds post ->
     limit_query q limit =
     pre ++ str "LIMIT " ++ decimal (Z.min (digits_value ds) 100) ++ post
     /\ forall a kw2 ws2 ds2 post2,
          LimitClause (trim q) (pre ++ kw ++ ws ++ ds ++ a) kw2 ws2 ds2 post2 ->
          LimitClause (limit_query q limit)
            (pre ++ str "LIMIT " ++ decimal (Z.min (digits_value ds) 100) ++ a)
            kw2 ws2 ds2 post2)
  /\ (NoLimitClause (trim q) ->
      limit_query q limit =
      trim q ++ str " LIMIT " ++ number_to_string (effective_cap limit))
  /\ limit_query
       (str "SELECT * FROM (SELECT * FROM t LIMIT 500) x LIMIT 700") 5 =
     str "SELECT * FROM (SELECT * FROM t LIMIT 100) x LIMIT 700"
  /\ NoLimitClause (trim (str "SELECT * FROM t LIMIT ALL"))
  /\ limit_query (str "SELECT * FROM t LIMIT ALL") 5 =
     str "SELECT * FROM t LIMIT ALL LIMIT 5".
Proof.
  split; [|split; [|split; [|split]]].
  - intros pre kw ws ds post F.
    pose proof (limit_query_first q limit _ _ _ _ _ F) as E.
    split; [exact E|].
    intros a kw2 ws2 ds2 post2 [H1 H2 H3 H4 H5 H6].
    destruct F as [[G1 _ _ _ Gd _] _].
    assert (post = a ++ kw2 ++ ws2 ++ ds2 ++ post2) as ->.
    { rewrite G1 in H1. rewrite <- !app_assoc in H1.
      now repeat apply app_inv_head in H1. }
    constructor; trivial.
    + rewrite E. now rewrite <- !app_assoc.
    + unfold no_word_before in *. destruct a as [|c a].
      * rewrite !app_nil_r in H2.
        replace (pre ++ kw ++ ws ++ ds) with ((pre ++ kw ++ ws) ++ ds) in H2
          by now rewrite <- !app_assoc.
        rewrite word_before_digits in H2 by assumption. discriminate.
      * replace (pre ++ kw ++ ws ++ ds ++ c :: a)
          with ((pre ++ kw ++ ws ++ ds) ++ c :: a) in H2
          by now rewrite <- !app_assoc.
        rewrite word_before_app in H2 by discriminate.
        replace (pre ++ str "LIMIT "
                   ++ decimal (Z.min (digits_value ds) 100) ++ c :: a)
          with ((pre ++ str "LIMIT "
                   ++ decimal (Z.min (digits_value ds) 100)) ++ c :: a)
          by now rewrite <- !app_assoc.
        rewrite word_before_app by discriminate. exact H2.
  - apply limit_query_none.
  - vm_compute. reflexivity.
  - apply no_clause_iff. vm_compute. reflexivity.
  - vm_compute. reflexivity.
Qed.

Lemma limit_rewrite_first_only_witness :
  FirstLimitClause (trim (str "select (select 1 limit 500) limit 700"))
    (str "select (select 1 ") (str "limit") (str " ") (str "500")
    (str ") limit 700")
  /\ limit_query (str "select (select 1 limit 500) limit 700") 5 =
     str "select (select 1 LIMIT 100) limit 700"
  /\ LimitClause (limit_query (str "select (select 1 limit 500) limit 700") 5)
       (str "select (select 1 LIMIT 100) ") (str "limit") (str " ")
       (str "700") []
  /\ NoLimitClause (trim (str "SELECT * FROM t LIMIT ALL"))
  /\ limit_query (str "SELECT * FROM t LIMIT ALL") 5 =
     str "SELECT * FROM t LIMIT ALL LIMIT 5".
Proof.
  assert (FirstLimitClause (trim (str "select (select 1 limit 500) limit 700"))
            (str "select (select 1 ") (str "limit") (str " ") (str "500")
            (str ") limit 700")) as F
    by (apply found_first_clause; vm_compute; reflexivity).
  assert (LimitClause (trim (str "select (select 1 limit 500) limit 700"))
            (str "select (select 1 " ++ str "limit" ++ str " " ++ str "500"
               ++ str ") ")
            (str "limit") (str " ") (str "700") []) as L
    by (apply limit_clause_iff; split; vm_compute; reflexivity).
  assert (NoLimitClause (trim (str "SELECT * FROM t LIMIT ALL"))) as N
    by (apply no_clause_iff; vm_compute; reflexivity).
  destruct (limit_rewrite_first_only
              (str "select (select 1 limit 500) limit 700") 5) as (H1 & _).
  destruct (H1 _ _ _ _ _ F) as (E & K).
  destruct (limit_rewrite_first_only (str "SELECT * FROM t LIMIT ALL") 5)
    as (_ & H2 & _).
  split; [exact F|]. split; [exact E|]. split; [exact (K _ _ _ _ _ L)|].
  split; [exact N|]. exact (H2 N).
Defined.

(** ** Appending [ LIMIT <cap>] to a statement without a clause *)

Lemma strip_ci_app_some p m w r x :
  strip_ci p m = Some (w, r) -> strip_ci p (m ++ x) = Some (w, r ++ x).
Proof.
  intros H. apply strip_ci_sound in H as [-> H].
  rewrite <- app_assoc. now apply strip_ci_complete.
Qed.

Lemma strip_ci_app_none p c x : forall m,
  strip_ci p m = None ->
  (forall a, In a p -> char_match true a c = false) ->
  strip_ci p (m ++ c :: x) = None.
Proof.
  induction p as [|a p IH]; intros m H Hc; cbn [strip_ci] in *.
  - discriminate.
  - destruct m as [|b m]; cbn [app].
    + now rewrite (Hc a (or_introl eq_refl)).
    + destruct (char_match true a b); trivial.
      destruct (strip_ci p m) as [[w r]|] eqn:E; [discriminate|].
      rewrite (IH m E); trivial.
      intros a' Ha'. apply Hc. now right.
Qed.

Lemma span_app_stop p m x c r :
  snd (span p m) = c :: r ->
  span p (m ++ x) = (fst (span p m), (c :: r) ++ x).
Proof.
  intros H. pose proof (span_app p m) as A. pose proof (span_stop p m) as S.
  rewrite H in A, S. rewrite A at 1. rewrite <- app_assoc.
  apply span_intro; [apply span_all|exact S].
Qed.

Lemma span_app_all p m x :
  snd (span p m) = [] ->
  span p (m ++ x) = (m ++ fst (span p x), snd (span p x)).
Proof.
  intros H. pose proof (span_app p m) as A. rewrite H, app_nil_r in A.
  pose proof (span_all p m) as Hm. rewrite <- A in Hm.
  rewrite (span_app p x) at 1. rewrite app_assoc.
  apply span_intro; [|apply span_stop].
  rewrite forallb_app, Hm. apply span_all.
Qed.

Lemma limit_at_nil l : limit_at l [] = None.
Proof. unfold limit_at. now destruct (is_boundary l []). Qed.

Lemma limit_at_head l c r :
  limit_at l (c :: r) <> None -> char_match true "L"%char c = true.
Proof.
  unfold limit_at. destruct (is_boundary l (c :: r)); [|congruence].
  cbn [str list_ascii_of_string strip_ci].
  destruct (char_match true "L"%char c); congruence.
Qed.

Lemma limit_at_digit l c r : isDigit c = true -> limit_at l (c :: r) = None.
Proof.
  intros H. destruct (limit_at l (c :: r)) eqn:E; trivial.
  assert (char_match true "L"%char c = true) as M
    by (apply (limit_at_head l c r); congruence).
  destruct (letter_match "L"%char c eq_refl M) as (_ & _ & _ & D).
  congruence.
Qed.

Lemma not_limit_letter c :
  isWhiteSpace c = true ->
  forall a, In a (str "LIMIT") -> char_match true a c = false.
Proof.
  intros H a Ha.
  destruct (char_match true a c) eqn:M; trivial.
  assert (is_letter a = true) as La
    by (simpl in Ha; intuition (subst; reflexivity)).
  destruct (letter_match _ _ La M) as (_ & _ & W & _). congruence.
Qed.

(** A position inside the statement does not become a clause when
    [ LIMIT <digits>] is appended. *)
Lemma limit_at_extend l m d :
  limit_at l m = None -> limit_at l (m ++ str " LIMIT " ++ d) = None.
Proof.
  intros H. destruct m as [|b m].
  - unfold limit_at. cbn [app str list_ascii_of_string strip_ci].
    now destruct (is_boundary l _).
  - revert H. unfold limit_at.
    change (is_boundary l ((b :: m) ++ str " LIMIT " ++ d))
      with (is_boundary l (b :: m)).
    destruct (is_boundary l (b :: m)); trivial.
    destruct (strip_ci (str "LIMIT") (b :: m)) as [[kw m1]|] eqn:K.
    + rewrite (strip_ci_app_some _ _ _ _ _ K).
      destruct (snd (span isWhiteSpace m1)) as [|c r] eqn:S1.
      * intros _. rewrite (span_app_all _ _ _ S1).
        cbn [str list_ascii_of_string app span fst snd].
        change (isWhiteSpace " ") with true. cbn iota.
        change (isWhiteSpace "L") with false. cbn iota.
        cbn [fst snd]. destruct (m1 ++ [" "%char]) eqn:E.
        { now destruct m1. }
        reflexivity.
      * rewrite (span_app_stop _ _ _ _ _ S1).
        destruct (span isWhiteSpace m1) as [ws m2]. cbn [fst snd] in *.
        subst m2. destruct ws as [|w0 ws]; trivial.
        destruct (snd (span isDigit (c :: r))) as [|c' r'] eqn:S2.
        -- pose proof (span_app isDigit (c :: r)) as A.
           rewrite S2, app_nil_r in A.
           destruct (span isDigit (c :: r)) as [ds m3]. cbn [fst snd] in *.
           subst ds. discriminate.
        -- rewrite (span_app_stop _ _ _ _ _ S2).
           destruct (span isDigit (c :: r)) as [ds m3]. cbn [fst snd] in *.
           destruct ds; trivial. discriminate.
    + intros _.
      change (str " LIMIT " ++ d) with (" "%char :: str "LIMIT " ++ d).
      rewrite (strip_ci_app_none _ _ _ _ K); trivial.
      now apply not_limit_letter.
Qed.

(** Inside the appended text, only the position of its keyword is a
    clause. *)
Lemma limit_at_appended l d u rest :
  forallb isDigit d = true ->
  str " LIMIT " ++ d = u ++ rest ->
  limit_at l rest <> None -> u = str " ".
Proof.
  intros Hd E Hat.
  assert (forall r, (exists u', d = u' ++ r) -> limit_at l r = None) as Hdig.
  { intros r [u' E']. destruct r as [|c r]; [apply limit_at_nil|].
    apply limit_at_digit. rewrite forallb_forall in Hd. apply Hd.
    rewrite E'. apply in_or_app. right. now left. }
  cbn [str list_ascii_of_string app] in E.
  destruct u as [|c1 u]; cbn [app] in E.
  { subst rest. exfalso. apply Hat.
    unfold limit_at. cbn [str list_ascii_of_string strip_ci].
    now destruct (is_boundary l _). }
  inversion E as [[E1 E2]]. clear E.
  destruct u as [|c2 u]; [reflexivity|]. exfalso. apply Hat.
  cbn [app] in E2. inversion E2 as [[F1 F2]]. clear E2.
  do 5 (destruct u as [|? u];
        [ cbn [app] in F2; subst rest;
          unfold limit_at; cbn [str list_ascii_of_string strip_ci];
          now destruct (is_boundary l _)
        | cbn [app] in F2; injection F2 as _ G2; try clear F2;
          rename G2 into F2 ]).
  apply Hdig. now exists u.
Qed.

Lemma appended_clause_unique t d pre kw ws ds post :
  forallb isDigit d = true -> NoLimitClause t ->
  LimitClause (t ++ str " LIMIT " ++ d) pre kw ws ds post ->
  pre = t ++ str " ".
Proof.
  intros Hd Hno Hc. apply limit_clause_iff in Hc as [Hs Hat].
  apply no_clause_iff in Hno.
  apply app_eq_app in Hs as [u [[E1 E2]|[E1 E2]]].
  - exfalso. pose proof (find_limit_none t [] Hno pre u E1) as Hn.
    rewrite app_nil_r in Hn.
    apply (limit_at_extend _ _ d) in Hn. rewrite <- E2 in Hn. congruence.
  - subst pre. f_equal.
    apply (limit_at_appended (rev (t ++ u)) d u _ Hd E2). congruence.
Qed.

Lemma digits_value_nonneg ds :
  forallb isDigit ds = true -> (0 <= digits_value ds)%Z.
Proof.
  unfold digits_value. generalize (Z.le_refl 0).
  generalize 0%Z at 2 4 as acc.
  induction ds as [|c ds IH]; intros acc Hacc H; cbn [fold_left forallb] in *.
  - exact Hacc.
  - apply andb_true_iff in H as [D H]. apply IH; trivial.
    unfold isDigit, in_range in D.
    apply andb_true_iff in D as [D1 D2]. apply N.leb_le in D1, D2. lia.
Qed.

Lemma decimal_small n :
  (0 <= n <= 100)%Z ->
  all_of isDigit (decimal n) /\ digits_value (decimal n) = n.
Proof.
  intros Hn.
  assert (forallb (fun k => decimal_reads_back (Z.of_nat k)) (seq 0 101) = true)
    as H by (vm_compute; reflexivity).
  rewrite forallb_forall in H. specialize (H (Z.to_nat n)).
  rewrite Z2Nat.id in H by lia.
  assert (In (Z.to_nat n) (seq 0 101)) as Hin by (apply in_seq; lia).
  apply H in Hin. unfold decimal_reads_back in Hin.
  apply andb_true_iff in Hin as [Hin Hv].
  apply andb_true_iff in Hin as [Hd Hne].
  apply Z.eqb_eq in Hv. repeat split; trivial.
  destruct (decimal n); [discriminate|discriminate].
Qed.

Lemma limit_clause_same_position s pre kw ws ds post kw' ws' ds' post' :
  LimitClause s pre kw ws ds post -> LimitClause s pre kw' ws' ds' post' ->
  ds = ds'.
Proof.
  intros H H'. apply limit_clause_iff in H as [Hs Hat].
  apply limit_clause_iff in H' as [Hs' Hat'].
  rewrite Hs in Hs'. apply app_inv_head in Hs'. rewrite Hs' in Hat.
  congruence.
Qed.

Lemma appended_clause t d :
  all_of isDigit d ->
  LimitClause (t ++ str " LIMIT " ++ d) (t ++ str " ") (str "LIMIT") (str " ")
    d [].
Proof.
  intros Hd. constructor; trivial.
  - rewrite app_nil_r, <- app_assoc. reflexivity.
  - unfold no_word_before. rewrite rev_app_distr. reflexivity.
  - reflexivity.
  - split; [discriminate|reflexivity].
  - exact I.
Qed.

(** ** C2 *)

(** C2, as stated, fails: [SELECT * FROM t LIMIT 3] passes the validation,
    and with the requested cap 5 the final statement is the input itself,
    whose one [LIMIT] clause has the value 3, not min(5, 100). *)
Lemma existing_limit_overrides_requested_cap :
  ~ one_limit_of_requested_cap (str "SELECT * FROM t LIMIT 3") 5.
Proof.
  intros H. destruct H as (_ & pre & kw & ws & ds & post & Hc & Hv & Hu).
  { vm_compute. reflexivity. }
  assert (limit_query (str "SELECT * FROM t LIMIT 3") 5 =
          str "SELECT * FROM t LIMIT 3") as E by (vm_compute; reflexivity).
  rewrite E in *.
  assert (LimitClause (str "SELECT * FROM t LIMIT 3")
            (str "SELECT * FROM t ") (str "LIMIT") (str " ") (str "3") []) as L
    by (apply limit_clause_iff; split; vm_compute; reflexivity).
  pose proof (Hu _ _ _ _ _ L) as Hp. subst pre.
  pose proof (limit_clause_same_position _ _ _ _ _ _ _ _ _ _ Hc L) as Hd.
  subst ds. vm_compute in Hv. discriminate Hv.
Qed.

(** C2, amended: for a statement that passes the validation and a requested
    cap R of at least 1, the effective cap is min(R, 100); when the trimmed
    statement has no [LIMIT <integer>] clause the final statement has exactly
    one, of value min(R, 100); when it has one, its first clause becomes
    [LIMIT] and min(its own value, 100), whatever R is. *)
Theorem one_limit_clause_when_none_given q R :
  (1 <= R)%Z -> validate_query q = Ok tt ->
  effective_cap R = Num (Z.min R 100)
  /\ (NoLimitClause (trim q) ->
      ExactlyOneLimit (limit_query q R) (Z.min R 100))
  /\ (forall pre kw ws ds post,
        FirstLimitClause (trim q) pre kw ws ds post ->
        LimitClause (limit_query q R) pre (str "LIMIT") (str " ")
          (decimal (Z.min (digits_value ds) 100)) post
        /\ digits_value (decimal (Z.min (digits_value ds) 100)) =
           Z.min (digits_value ds) 100).
Proof.
  intros HR _. split; [|split].
  - unfold effective_cap. cbn [Math_max Math_min]. now rewrite Z.max_r by lia.
  - intros Hno. rewrite (limit_query_none q R Hno).
    rewrite Z.max_r by lia.
    destruct (decimal_small (Z.min R 100)) as [Hd Hv]; [lia|].
    exists (trim q ++ str " "), (str "LIMIT"), (str " "),
      (decimal (Z.min R 100)), [].
    split; [now apply appended_clause|]. split; [exact Hv|].
    intros pre' kw' ws' ds' post' Hc'.
    apply (appended_clause_unique _ _ _ _ _ _ _ (proj2 Hd) Hno Hc').
  - intros pre kw ws ds post F.
    rewrite (limit_query_first q R _ _ _ _ _ F).
    destruct F as [[H1 H2 H3 H4 H5 H6] _].
    pose proof (digits_value_nonneg ds (proj2 H5)) as Hnn.
    destruct (decimal_small (Z.min (digits_value ds) 100)) as [Hd Hv]; [lia|].
    split; [|exact Hv]. constructor; trivial.
    + reflexivity.
    + split; [discriminate|reflexivity].
Qed.

Lemma one_limit_clause_when_none_given_witness :
  (1 <= 250)%Z
  /\ validate_query (str "SELECT name FROM users") = Ok tt
  /\ NoLimitClause (trim (str "SELECT name FROM users"))
  /\ effective_cap 250 = Num 100
  /\ ExactlyOneLimit (limit_query (str "SELECT name FROM users") 250) 100.
Proof.
  assert (validate_query (str "SELECT name FROM users") = Ok tt) as V
    by (vm_compute; reflexivity).
  assert (NoLimitClause (trim (str "SELECT name FROM users"))) as N
    by (apply no_clause_iff; vm_compute; reflexivity).
  assert (1 <= 250)%Z as R by lia.
  destruct (one_limit_clause_when_none_given
              (str "SELECT name FROM users") 250 R V) as (H1 & H2 & _).
  split; [exact R|]. split; [exact V|]. split; [exact N|].
  split; [exact H1|]. exact (H2 N).
Defined.

(** ** The schema gate *)

Lemma string_eqb_eq a b : string_eqb a b = true <-> a = b.
Proof.
  unfold string_eqb. destruct (list_eq_dec ascii_dec a b); split; congruence.
Qed.

Lemma includes_In l s : includes l s = true <-> In s l.
Proof.
  unfold includes. rewrite existsb_exists. split.
  - intros (x & Hx & E). apply string_eqb_eq in E. now subst.
  - intros H. exists s. split; trivial. now apply string_eqb_eq.
Qed.

Lemma assert_allowed_iff schema allowed :
  assertSchemaAllowed schema allowed = Ok tt <-> allowed = [] \/ In schema allowed.
Proof.
  unfold assertSchemaAllowed. destruct allowed as [|a l].
  - simpl. tauto.
  - cbn [length Nat.ltb Nat.leb andb].
    destruct (includes (a :: l) schema) eqn:E; cbn [negb].
    + apply includes_In in E. split; auto.
    + split; [discriminate|]. intros [H|H]; [discriminate|].
      apply includes_In in H. congruence.
Qed.

Lemma assert_denied schema allowed :
  allowed <> [] -> ~ In schema allowed ->
  assertSchemaAllowed schema allowed = Throw (SchemaNotAllowed schema).
Proof.
  intros Hne Hin. unfold assertSchemaAllowed.
  destruct allowed as [|a l]; [congruence|].
  cbn [length Nat.ltb Nat.leb andb].
  destruct (includes (a :: l) schema) eqn:E; trivial.
  apply includes_In in E. contradiction.
Qed.

(** C3: with an empty list of allowed schemas every schema passes
    [isSchemaAllowed] and [assertSchemaAllowed]; with a non-empty list a
    schema passes exactly when it is an element of the list, the same text
    character for character, and otherwise [assertSchemaAllowed] throws the
    PermissionDenied error.  A different case, a prefix or a wildcard entry
    do not match. *)
Theorem schema_gate_exact allowed S :
  (allowed = [] ->
   isSchemaAllowed allowed S = true /\ assertSchemaAllowed S allowed = Ok tt)
  /\ (allowed <> [] ->
      (isSchemaAllowed allowed S = true <-> In S allowed)
      /\ (assertSchemaAllowed S allowed = Ok tt <-> In S allowed)
      /\ (~ In S allowed ->
          assertSchemaAllowed S allowed = Throw (SchemaNotAllowed S)
          /\ kind (SchemaNotAllowed S) = PermissionDenied))
  /\ isSchemaAllowed [str "public"] (str "Public") = false
  /\ isSchemaAllowed [str "public"] (str "pub") = false
  /\ isSchemaAllowed [str "pub"] (str "public") = false
  /\ isSchemaAllowed [str "pub*"] (str "public") = false.
Proof.
  split; [|split].
  - intros ->. split; reflexivity.
  - intros Hne. split; [|split].
    + unfold isSchemaAllowed. destruct allowed as [|a l]; [congruence|].
      cbn [length Nat.eqb]. apply includes_In.
    + rewrite assert_allowed_iff. tauto.
    + intros Hin. split; [now apply assert_denied|reflexivity].
  - repeat split; vm_compute; reflexivity.
Qed.

Lemma schema_gate_exact_witness :
  [str "public"; str "sales"] <> []
  /\ ~ In (str "Sales") [str "public"; str "sales"]
  /\ assertSchemaAllowed (str "Sales") [str "public"; str "sales"] =
     Throw (SchemaNotAllowed (str "Sales"))
  /\ isSchemaAllowed [] (str "Sales") = true.
Proof.
  assert ([str "public"; str "sales"] <> []) as Hne by discriminate.
  assert (~ In (str "Sales") [str "public"; str "sales"]) as Hin.
  { intros H. apply includes_In in H. vm_compute in H. discriminate H. }
  split; [exact Hne|]. split; [exact Hin|]. split.
  - exact (proj1 (proj2 (proj2 (proj1 (proj2
             (schema_gate_exact [str "public"; str "sales"] (str "Sales")))
             Hne)) Hin)).
  - exact (proj1 (proj1 (schema_gate_exact [] (str "Sales")) eq_refl)).
Defined.

(** ** The result packager *)

Lemma str_length_app a b : str_length (a ++ b) = (str_length a + str_length b)%Z.
Proof. unfold str_length. rewrite length_app. lia. Qed.

Lemma formatResult_cases data :
  (fits data -> formatResult data = whole data)
  /\ (~ fits data -> formatResult data = cut data).
Proof.
  unfold fits, formatResult, whole, cut.
  destruct (Z.leb_spec (str_length (JSON_stringify data)) CHARACTER_LIMIT)
    as [H|H]; split; intros F; try reflexivity; lia.
Qed.

Lemma formatted_outcome data (end_ : result McpToolResult) :
  end_ = Ok (formatResult data) ->
  (fits data -> end_ = Ok (whole data))
  /\ (~ fits data -> end_ = Ok (cut data)).
Proof.
  intros ->. destruct (formatResult_cases data) as [W C].
  split; intros F; f_equal; auto.
Qed.

Lemma member_row key row :
  row <> JNull -> member key (Some row) = Ok (get_prop key row).
Proof. destruct row; trivial. congruence. Qed.

Lemma member_null key :
  exists e, member key (Some JNull) = Throw e /\ kind e = RuntimeFault.
Proof. eexists. split; reflexivity. Qed.

Lemma member_undefined key :
  exists e, member key None = Throw e /\ kind e = RuntimeFault.
Proof. eexists. split; reflexivity. Qed.

(** C4, as stated, fails on the bound: for a text of 25000 letters, whose
    serialization has 25002 characters, the response is longer than 25000
    plus the fixed text of the notice, by the five digits of the total. *)
Lemma notice_carries_the_total_digits :
  ~ bounded_by_fixed_notice long_text.
Proof.
  intros [_ H]. destruct H as [_ H].
  - vm_compute. reflexivity.
  - apply Z.leb_le in H. vm_compute in H. discriminate H.
Qed.

(** C4, amended: when the serialization of the data has at most 25000
    characters the response is that serialization, unchanged and without a
    notice; when it has more, the response is its first 25000 characters
    followed by the notice that states the total number of characters (the
    response has no other mark of truncation), and its length is 25000 plus
    the length of the fixed text of the notice plus the number of decimal
    digits of the total. *)
Theorem format_result_truncates data :
  let t := JSON_stringify data in
  ((str_length t <= CHARACTER_LIMIT)%Z ->
   formatResult data = mkResult [mkText (str "text") t])
  /\ ((CHARACTER_LIMIT < str_length t)%Z ->
      formatResult data =
      mkResult [mkText (str "text")
                  (slice0 t CHARACTER_LIMIT ++ truncation_notice (str_length t))]
      /\ str_length (response_text (formatResult data)) =
         (CHARACTER_LIMIT + notice_fixed_length
          + str_length (decimal (str_length t)))%Z).
Proof.
  intros t. unfold formatResult. fold t. split.
  - intros H. apply Z.leb_le in H. now rewrite H.
  - intros H. apply Z.leb_gt in H. rewrite H.
    split; [reflexivity|].
    cbn [response_text content text number_to_string].
    rewrite !str_length_app. unfold notice_fixed_length.
    assert (str_length (slice0 t CHARACTER_LIMIT) = CHARACTER_LIMIT) as ->.
    { unfold slice0, str_length. rewrite length_firstn.
      apply Z.leb_gt in H. unfold str_length, CHARACTER_LIMIT in *. lia. }
    lia.
Qed.

Lemma format_result_truncates_witness :
  (str_length (JSON_stringify (JObj [(str "total", JNum (Num 5))]))
     <= CHARACTER_LIMIT)%Z
  /\ response_text (formatResult (JObj [(str "total", JNum (Num 5))])) =
     str "{" ++ [newline] ++ str "  " ++ [dquote] ++ str "total" ++ [dquote]
       ++ str ": 5" ++ [newline] ++ str "}"
  /\ (CHARACTER_LIMIT
        < str_length (JSON_stringify long_text))%Z
  /\ str_length (response_text (formatResult long_text)) =
     (CHARACTER_LIMIT + notice_fixed_length + 5)%Z.
Proof.
  assert (str_length (JSON_stringify (JObj [(str "total", JNum (Num 5))]))
            <= CHARACTER_LIMIT)%Z as Hs
    by (apply Z.leb_le; vm_compute; reflexivity).
  assert (CHARACTER_LIMIT
            < str_length (JSON_stringify long_text))%Z
    as Hl by (apply Z.ltb_lt; vm_compute; reflexivity).
  split; [exact Hs|]. split.
  - rewrite (proj1 (format_result_truncates
                      (JObj [(str "total", JNum (Num 5))])) Hs).
    vm_compute. reflexivity.
  - split; [exact Hl|].
    rewrite (proj2 (proj2 (format_result_truncates
                             long_text) Hl)).
    vm_compute. reflexivity.
Defined.

(** ** The handlers *)

(** C5: a statement whose trimmed, lower-cased text starts neither with
    [select] nor with [with] fails the validation with the InvalidOperation
    error whose message names SELECT and WITH, and the handler ends with
    that error without a call to the driver. *)
Theorem other_statements_rejected q :
  startsWith (toLowerCase (trim q)) (str "select") = false ->
  startsWith (toLowerCase (trim q)) (str "with") = false ->
  validate_query q = Throw NotSelectOrWith
  /\ kind NotSelectOrWith = InvalidOperation
  /\ contains (message NotSelectOrWith) (str "SELECT") = true
  /\ contains (message NotSelectOrWith) (str "WITH") = true
  /\ forall db allowedSchemas limit log,
       postgres_execute_query db allowedSchemas q limit log =
       (log, Throw NotSelectOrWith).
Proof.
  intros H1 H2.
  assert (validate_query q = Throw NotSelectOrWith) as V
    by (unfold validate_query; now rewrite H1, H2).
  split; [exact V|]. split; [reflexivity|].
  split; [vm_compute; reflexivity|]. split; [vm_compute; reflexivity|].
  intros db allowedSchemas limit log.
  unfold postgres_execute_query. now apply bind_throw.
Qed.

Lemma other_statements_rejected_witness :
  startsWith (toLowerCase (trim (str "  Update t SET x = 1"))) (str "select")
    = false
  /\ startsWith (toLowerCase (trim (str "  Update t SET x = 1"))) (str "with")
     = false
  /\ postgres_execute_query (constant_driver (mkQueryResult [] [])) []
       (str "  Update t SET x = 1") 5 [] = ([], Throw NotSelectOrWith).
Proof.
  assert (startsWith (toLowerCase (trim (str "  Update t SET x = 1")))
            (str "select") = false) as H1 by (vm_compute; reflexivity).
  assert (startsWith (toLowerCase (trim (str "  Update t SET x = 1")))
            (str "with") = false) as H2 by (vm_compute; reflexivity).
  split; [exact H1|]. split; [exact H2|].
  exact (proj2 (proj2 (proj2 (proj2
           (other_statements_rejected (str "  Update t SET x = 1") H1 H2))))
           (constant_driver (mkQueryResult [] [])) [] 5%Z []).
Defined.

(** C8: when the list of allowed schemas is not empty and does not hold
    the schema argument, [postgres_query_table] ends with the
    PermissionDenied error and the log of driver calls is the one it
    started with: no statement is built or sent. *)
Theorem query_table_gate_first db allowedSchemas schema table columns where_
    limit log :
  allowedSchemas <> [] -> ~ In schema allowedSchemas ->
  postgres_query_table db allowedSchemas schema table columns where_ limit log
  = (log, Throw (SchemaNotAllowed schema))
  /\ kind (SchemaNotAllowed schema) = PermissionDenied.
Proof.
  intros Hne Hin. split; [|reflexivity].
  unfold postgres_query_table. apply bind_throw. now apply assert_denied.
Qed.

Lemma query_table_gate_first_witness :
  [str "sales"] <> []
  /\ ~ In (str "public") [str "sales"]
  /\ postgres_query_table (constant_driver (mkQueryResult [] []))
       [str "sales"] (str "public") (str "users") (str "id,name") None 10 []
     = ([], Throw (SchemaNotAllowed (str "public"))).
Proof.
  assert ([str "sales"] <> []) as Hne by discriminate.
  assert (~ In (str "public") [str "sales"]) as Hin.
  { intros H. apply includes_In in H. vm_compute in H. discriminate H. }
  split; [exact Hne|]. split; [exact Hin|].
  exact (proj1 (query_table_gate_first
                  (constant_driver (mkQueryResult [] [])) [str "sales"]
                  (str "public") (str "users") (str "id,name") None 10%Z []
                  Hne Hin)).
Defined.

Lemma startsWith_app s b : startsWith (s ++ b) s = true.
Proof.
  induction s as [|c s IH]; simpl.
  - now destruct b.
  - now rewrite Ascii.eqb_refl, IH.
Qed.

Lemma startsWith_nil s : startsWith s [] = true.
Proof. now destruct s. Qed.

Lemma contains_middle a s b : contains (a ++ s ++ b) s = true.
Proof.
  induction a as [|c a IH].
  - cbn [app]. destruct (s ++ b) eqn:E; cbn [contains].
    + apply app_eq_nil in E as [-> _]. reflexivity.
    + rewrite <- E, startsWith_app. reflexivity.
  - cbn [app contains]. rewrite IH. apply orb_true_r.
Qed.

(** ** The deny list *)

Lemma exec_from_some re s : forall l,
  exec_from re l s <> None <->
  exists a b,
    s = a ++ b
    /\ matcher (ignoreCase re) (pattern re) Some (mkState (rev a ++ l) b [])
       <> None.
Proof.
  induction s as [|c s IH]; intros l; cbn [exec_from].
  - destruct (matcher (ignoreCase re) (pattern re) Some (mkState l [] []))
      eqn:E.
    + split; [|discriminate]. intros _. exists [], []. cbn [rev app].
      split; [reflexivity|congruence].
    + split; [congruence|]. intros (a & b & H & M).
      symmetry in H. apply app_eq_nil in H as [-> ->]. cbn [rev app] in M.
      congruence.
  - destruct (matcher (ignoreCase re) (pattern re) Some (mkState l (c :: s) []))
      eqn:E.
    + split; [|discriminate]. intros _. exists [], (c :: s). cbn [rev app].
      split; [reflexivity|congruence].
    + rewrite IH. split.
      * intros (a & b & -> & M). exists (c :: a), b. split; [reflexivity|].
        cbn [rev]. now rewrite <- app_assoc.
      * intros (a & b & H & M). destruct a as [|c' a].
        -- cbn [rev app] in *. subst b. congruence.
        -- cbn [app] in H. inversion H; subst c'. exists a, b.
           split; [reflexivity|]. cbn [rev] in M.
           now rewrite <- app_assoc in M.
Qed.

Lemma test_true_iff re s :
  RegExp_test re s = true <->
  exists a b,
    s = a ++ b
    /\ matcher (ignoreCase re) (pattern re) Some (mkState (rev a) b []) <> None.
Proof.
  unfold RegExp_test, RegExp_exec.
  pose proof (exec_from_some re s []) as H.
  destruct (exec_from re [] s).
  - split; [|reflexivity]. intros _.
    destruct H as [H _]. destruct H as (a & b & E & M); [discriminate|].
    exists a, b. now rewrite app_nil_r in M.
  - split; [discriminate|]. intros (a & b & E & M).
    destruct H as [_ H]. exfalso. apply H; trivial.
    exists a, b. now rewrite app_nil_r.
Qed.

Lemma matcher_alt ic r1 r2 k x :
  matcher ic (Alt r1 r2) k x =
  match matcher ic r1 k x with
  | Some y => Some y
  | None => matcher ic r2 k x
  end.
Proof. reflexivity. Qed.

Lemma matcher_alt_of k x os : forall o,
  is_some (matcher true (alt_of (literal o) (map literal os)) k x) =
  existsb (fun o' => is_some (matcher true (literal o') k x)) (o :: os).
Proof.
  induction os as [|o' os IH]; intros o; cbn [alt_of map].
  - cbn [existsb]. now rewrite orb_false_r.
  - rewrite matcher_alt.
    change (existsb (fun o' => is_some (matcher true (literal o') k x))
              (o :: o' :: os))
      with (is_some (matcher true (literal o) k x)
            || existsb (fun o' => is_some (matcher true (literal o') k x))
                 (o' :: os)).
    rewrite <- IH.
    now destruct (matcher true (literal o) k x).
Qed.

Lemma space_no_letter a c :
  is_letter a = true -> isWhiteSpace c = true -> char_match true a c = false.
Proof.
  intros Ha Hc. destruct (char_match true a c) eqn:M; trivial.
  destruct (letter_match a c Ha M) as (_ & _ & W & _). congruence.
Qed.

Lemma literal_blocked o k l c s cs :
  is_word o = true -> isWhiteSpace c = true ->
  matcher true (literal o) k (mkState l (c :: s) cs) = None.
Proof.
  intros Ho Hc. unfold is_word in Ho. apply andb_true_iff in Ho as [Hl Hn].
  destruct o as [|a o]; [discriminate|].
  cbn [forallb] in Hl. apply andb_true_iff in Hl as [Ha _].
  cbn [literal]. rewrite matcher_seq. cbn [matcher after].
  now rewrite (space_no_letter a c Ha Hc).
Qed.

Lemma context_word_is_word o : In o contextWords -> is_word o = true.
Proof.
  assert (forallb is_word contextWords = true) as F by reflexivity.
  rewrite forallb_forall in F. apply F.
Qed.

Lemma forbidden_keyword_is_word k : In k forbiddenKeywords -> is_word k = true.
Proof.
  assert (forallb is_word forbiddenKeywords = true) as F by reflexivity.
  rewrite forallb_forall in F. apply F.
Qed.

Lemma existsb_pointwise {A} (f g : A -> bool) l :
  (forall x, In x l -> f x = g x) -> existsb f l = existsb g l.
Proof.
  induction l as [|a l IH]; intros H; cbn [existsb]; trivial.
  rewrite (H a (or_introl eq_refl)), IH; trivial.
  intros x Hx. apply H. now right.
Qed.

(** The pattern of a keyword at one position. *)
Lemma forbidden_match_at keyword l s :
  is_some (matcher true (pattern (forbidden_regex keyword)) Some
             (mkState l s [])) =
  deny_at keyword l s.
Proof.
  unfold forbidden_regex, deny_at, seq_of. cbn [pattern fold_right].
  rewrite matcher_seq, matcher_boundary. cbn [before after].
  destruct (is_boundary l s); [|reflexivity]. cbn [andb].
  rewrite matcher_seq, matcher_literal. cbn [before after captures].
  destruct (strip_ci keyword s) as [[kw s1]|]; [|reflexivity].
  rewrite matcher_seq, matcher_boundary. cbn [before after].
  destruct (is_boundary (rev kw ++ l) s1); [|reflexivity]. cbn [andb].
  rewrite matcher_seq, matcher_plus.
  2:{ left. intros l' c s' cs Hc.
      rewrite matcher_seq, matcher_group.
      match goal with
      | |- matcher true context_alternatives ?k ?x = None =>
          pose proof (matcher_alt_of k x (tl contextWords) (str "into")) as H;
          change (alt_of (literal (str "into")) (map literal (tl contextWords)))
            with context_alternatives in H;
          destruct (matcher true context_alternatives k x); trivial;
          symmetry in H; apply existsb_exists in H as (o & Ho & M)
      end.
      pose proof (context_word_is_word o Ho) as W.
      now rewrite (literal_blocked o _ _ _ _ _ W Hc) in M. }
  cbn [before after captures].
  destruct (span isWhiteSpace s1) as [ws s2]. cbn [fst snd].
  destruct ws as [|w0 ws]; [reflexivity|].
  rewrite matcher_seq, matcher_group.
  match goal with
  | |- is_some (matcher true context_alternatives ?k ?x) = _ =>
      pose proof (matcher_alt_of k x (tl contextWords) (str "into")) as H;
      change (alt_of (literal (str "into")) (map literal (tl contextWords)))
        with context_alternatives in H;
      change (str "into" :: tl contextWords) with contextWords in H;
      rewrite H; clear H
  end.
  apply existsb_pointwise. intros o _.
  rewrite matcher_literal. cbn [before after captures].
  destruct (strip_ci o s2) as [[ctx s3]|]; [|reflexivity].
  rewrite matcher_seq, matcher_boundary. cbn [before after].
  rewrite matcher_empty.
  now destruct (is_boundary (rev ctx ++ rev (w0 :: ws) ++ rev kw ++ l) s3).
Qed.

Lemma letter_is_word c :
  is_letter c = true -> isWordChar c = true /\ isWhiteSpace c = false.
Proof.
  intros H.
  generalize (forall_ascii
    (fun c => implb (is_letter c) (isWordChar c && negb (isWhiteSpace c)))
    eq_refl c).
  rewrite H. simpl. destruct (isWordChar c), (isWhiteSpace c); simpl;
    intros; try discriminate; auto.
Qed.

Lemma eq_ci_word w k : is_word k = true -> eq_ci w k -> is_word w = true.
Proof.
  unfold is_word, eq_ci. revert w.
  induction k as [|a k IH]; intros w Hk E; [discriminate|].
  destruct w as [|c w]; [discriminate|].
  cbn [forallb map] in *. inversion E as [[Ec Ew]].
  apply andb_true_iff in Hk as [Hk _]. apply andb_true_iff in Hk as [Ha Hk].
  assert (char_match true a c = true) as M
    by (apply char_match_canon; congruence).
  destruct (letter_match a c Ha M) as (Lc & _). rewrite Lc. cbn [andb].
  rewrite andb_true_r. destruct k as [|a' k].
  - destruct w; [reflexivity|discriminate].
  - assert (forallb is_letter w && match w with [] => false | _ => true end
            = true) as H
      by (apply IH; [now rewrite Hk|exact Ew]).
    now apply andb_true_iff in H as [H _].
Qed.

Lemma word_head w :
  is_word w = true ->
  exists c t, w = c :: t /\ isWordChar c = true /\ isWhiteSpace c = false.
Proof.
  unfold is_word. intros H. apply andb_true_iff in H as [Hl Hn].
  destruct w as [|c t]; [discriminate|].
  cbn [forallb] in Hl. apply andb_true_iff in Hl as [Hc _].
  exists c, t. split; trivial. now apply letter_is_word.
Qed.

Lemma word_last w x : is_word w = true -> word_at (rev w ++ x) = true.
Proof.
  unfold is_word. intros H. apply andb_true_iff in H as [Hl Hn].
  assert (all_of is_letter w) as A
    by (split; trivial; destruct w; [discriminate|discriminate]).
  destruct (all_of_last _ _ A) as (c & t & -> & Hc).
  cbn [app word_at]. now apply letter_is_word.
Qed.

Lemma deny_at_iff keyword l s :
  is_word keyword = true ->
  deny_at keyword l s = true <->
  exists kw ws ctx post,
    s = kw ++ ws ++ ctx ++ post /\ word_at l = false /\ eq_ci kw keyword
    /\ all_of isWhiteSpace ws
    /\ (exists o, In o contextWords /\ eq_ci ctx o)
    /\ word_at post = false.
Proof.
  intros Hk. unfold deny_at. split.
  - intros H. apply andb_true_iff in H as [B H].
    destruct (strip_ci keyword s) as [[kw s1]|] eqn:K; [|discriminate].
    apply andb_true_iff in H as [_ H].
    pose proof (span_app isWhiteSpace s1) as A1.
    pose proof (span_all isWhiteSpace s1) as W1.
    destruct (span isWhiteSpace s1) as [ws s2]. cbn [fst snd] in *.
    destruct ws as [|w0 ws]; [discriminate|].
    apply existsb_exists in H as (o & Ho & H).
    destruct (strip_ci o s2) as [[ctx s3]|] eqn:C; [|discriminate].
    apply strip_ci_sound in K as [-> K]. apply strip_ci_sound in C as [-> C].
    exists kw, (w0 :: ws), ctx, s3.
    pose proof (eq_ci_word _ _ Hk K) as Wkw.
    pose proof (context_word_is_word o Ho) as Wo.
    pose proof (eq_ci_word _ _ Wo C) as Wctx.
    split; [now rewrite A1|]. split.
    { destruct (word_head _ Wkw) as (c & t & -> & Hc & _).
      unfold is_boundary in B. cbn [app word_at] in B. rewrite Hc in B.
      now destruct (word_at l). }
    split; [exact K|]. split; [split; [discriminate|exact W1]|].
    split; [eauto|].
    unfold is_boundary in H. rewrite (word_last ctx _ Wctx) in H.
    now destruct (word_at s3).
  - intros (kw & ws & ctx & post & -> & Hl & K & Hw & (o & Ho & C) & Hp).
    pose proof (eq_ci_word _ _ Hk K) as Wkw.
    pose proof (context_word_is_word o Ho) as Wo.
    pose proof (eq_ci_word _ _ Wo C) as Wctx.
    destruct (word_head _ Wkw) as (c & t & Ekw & Hc & _).
    destruct (word_head _ Wctx) as (c' & t' & Ectx & Hc' & Hs').
    destruct (all_of_head _ _ Hw) as (w0 & wt & Ews & Hw0).
    apply andb_true_iff. split.
    { unfold is_boundary. rewrite Hl, Ekw. cbn [app word_at]. now rewrite Hc. }
    rewrite (strip_ci_complete _ _ _ K). apply andb_true_iff. split.
    { unfold is_boundary. rewrite (word_last kw l Wkw), Ews.
      cbn [app word_at]. now rewrite (space_not_word w0 Hw0). }
    rewrite (span_intro isWhiteSpace ws (ctx ++ post)).
    + rewrite Ews. apply existsb_exists. exists o. split; trivial.
      rewrite (strip_ci_complete _ _ _ C).
      unfold is_boundary. rewrite (word_last ctx _ Wctx), Hp. reflexivity.
    + apply Hw.
    + rewrite Ectx. cbn [app]. exact Hs'.
Qed.

Lemma deny_pattern_iff q :
  HasDenyPattern q <->
  exists keyword,
    In keyword forbiddenKeywords
    /\ RegExp_test (forbidden_regex keyword) q = true.
Proof.
  split.
  - intros (pre & kw & ws & ctx & post & [H1 H2 (k & Hk & K) H4 H5 H6]).
    exists k. split; trivial. apply test_true_iff.
    exists pre, (kw ++ ws ++ ctx ++ post). split; trivial.
    pose proof (forbidden_keyword_is_word k Hk) as Wk.
    assert (deny_at k (rev pre) (kw ++ ws ++ ctx ++ post) = true) as D.
    { apply deny_at_iff; trivial. exists kw, ws, ctx, post. repeat split; trivial;
        try apply H4. }
    rewrite <- forbidden_match_at in D.
    change (ignoreCase (forbidden_regex k)) with true.
    now destruct (matcher true (pattern (forbidden_regex k)) Some _).
  - intros (k & Hk & T). apply test_true_iff in T as (a & b & -> & M).
    pose proof (forbidden_keyword_is_word k Hk) as Wk.
    assert (deny_at k (rev a) b = true) as D.
    { rewrite <- forbidden_match_at.
      change (ignoreCase (forbidden_regex k)) with true in M.
      now destruct (matcher true (pattern (forbidden_regex k)) Some _). }
    apply deny_at_iff in D as (kw & ws & ctx & post & -> & H2 & K & H4 & H5 & H6);
      trivial.
    exists a, kw, ws, ctx, post. constructor; trivial. eauto.
Qed.

Lemma check_forbidden_spec q keywords :
  (check_forbidden keywords q = Ok tt
   /\ forall k, In k keywords -> RegExp_test (forbidden_regex k) q = false)
  \/ (exists k, In k keywords /\ RegExp_test (forbidden_regex k) q = true
                /\ check_forbidden keywords q = Throw (ForbiddenKeyword k)).
Proof.
  induction keywords as [|k ks IH]; cbn [check_forbidden].
  - left. split; trivial. intros k [].
  - destruct (RegExp_test (forbidden_regex k) q) eqn:T.
    + right. exists k. split; [now left|]. split; trivial.
    + destruct IH as [[H1 H2]|(k' & H1 & H2 & H3)].
      * left. split; trivial. intros k' [<-|H]; auto.
      * right. exists k'. split; [now right|]. split; trivial.
Qed.

Lemma validate_after_prefix q :
  select_or_with q = true ->
  validate_query q = check_forbidden forbiddenKeywords q.
Proof.
  unfold select_or_with, validate_query. intros H.
  destruct (startsWith (toLowerCase (trim q)) (str "select")); trivial.
  cbn [orb] in H. now rewrite H.
Qed.

Lemma validate_before_prefix q :
  select_or_with q = false -> validate_query q = Throw NotSelectOrWith.
Proof.
  unfold select_or_with, validate_query. intros H.
  apply orb_false_iff in H as [-> ->]. reflexivity.
Qed.

(** ** C6 *)

(** C6, as stated, fails: [UPDATE t SET x = 1] holds no deny-listed keyword
    followed by an object-context word, and fails the validation with
    InvalidOperation all the same, on its first word. *)
Lemma rejected_without_deny_pattern :
  ~ fails_exactly_on_deny_pattern (str "UPDATE t SET x = 1").
Proof.
  intros [H _].
  assert (HasDenyPattern (str "UPDATE t SET x = 1")) as D.
  { apply H. exists NotSelectOrWith. split; vm_compute; reflexivity. }
  apply deny_pattern_iff in D as (k & Hk & T).
  assert (existsb (fun k => RegExp_test (forbidden_regex k)
                              (str "UPDATE t SET x = 1"))
            forbiddenKeywords = false) as E by (vm_compute; reflexivity).
  assert (existsb (fun k => RegExp_test (forbidden_regex k)
                              (str "UPDATE t SET x = 1"))
            forbiddenKeywords = true) as E'
    by (apply existsb_exists; eauto).
  congruence.
Qed.

(** C6, amended: a statement that holds a deny-listed keyword, as a whole
    word in any case, followed by white space and an object-context word,
    fails the validation with InvalidOperation; for a statement that starts
    with [select] or [with] (trimmed, lower-cased) the validation fails with
    InvalidOperation exactly when it holds such an occurrence.
    [DELETE FROM users] fails the validation and
    [SELECT delete_date FROM logs] passes it. *)
Theorem deny_list_after_prefix q :
  (HasDenyPattern q ->
   exists e, validate_query q = Throw e /\ kind e = InvalidOperation)
  /\ (select_or_with q = true ->
      ((exists e, validate_query q = Throw e /\ kind e = InvalidOperation)
       <-> HasDenyPattern q))
  /\ (exists e, validate_query (str "DELETE FROM users") = Throw e
                /\ kind e = InvalidOperation)
  /\ validate_query (str "SELECT delete_date FROM logs") = Ok tt.
Proof.
  assert (select_or_with q = true ->
          ((exists e, validate_query q = Throw e /\ kind e = InvalidOperation)
           <-> HasDenyPattern q)) as Hiff.
  { intros P. rewrite (validate_after_prefix q P), deny_pattern_iff.
    destruct (check_forbidden_spec q forbiddenKeywords)
      as [[H1 H2]|(k & H1 & H2 & H3)].
    - rewrite H1. split.
      + intros (e & He & _). discriminate He.
      + intros (k & Hk & T). rewrite (H2 k Hk) in T. discriminate T.
    - rewrite H3. split; [eauto|].
      intros _. eexists. split; reflexivity. }
  split; [|split; [exact Hiff|split]].
  - intros D. destruct (select_or_with q) eqn:P.
    + now apply Hiff.
    + rewrite (validate_before_prefix q P). eexists. split; reflexivity.
  - exists NotSelectOrWith. split; vm_compute; reflexivity.
  - vm_compute. reflexivity.
Qed.

Lemma deny_list_after_prefix_witness :
  select_or_with (str "SELECT 1; drop   TABLE users") = true
  /\ HasDenyPattern (str "SELECT 1; drop   TABLE users")
  /\ exists e, validate_query (str "SELECT 1; drop   TABLE users") = Throw e
               /\ kind e = InvalidOperation.
Proof.
  assert (select_or_with (str "SELECT 1; drop   TABLE users") = true) as P
    by (vm_compute; reflexivity).
  assert (HasDenyPattern (str "SELECT 1; drop   TABLE users")) as D.
  { exists (str "SELECT 1; "), (str "drop"), (str "   "), (str "TABLE"),
      (str " users").
    constructor; try (vm_compute; reflexivity).
    - exists (str "drop"). split; [|reflexivity].
      apply includes_In. vm_compute. reflexivity.
    - split; [discriminate|reflexivity].
    - exists (str "table"). split; [|reflexivity].
      apply includes_In. vm_compute. reflexivity. }
  split; [exact P|]. split; [exact D|].
  exact (proj2 (proj1 (proj2 (deny_list_after_prefix
                                (str "SELECT 1; drop   TABLE users"))) P) D).
Defined.

(** * Further properties *)

(** ** Numbers and their decimal text *)

Lemma uint_chars_digits d :
  forallb isDigit (list_ascii_of_string (NilEmpty.string_of_uint d)) = true.
Proof. induction d; simpl; trivial. Qed.

Lemma uint_chars_fold d : forall acc,
  fold_left (fun a c => a * 10 + (Z.of_N (code c) - 48))%Z
    (list_ascii_of_string (NilEmpty.string_of_uint d)) (Zpos acc)
  = Zpos (Pos.of_uint_acc d acc).
Proof.
  induction d; intros acc;
    cbn [NilEmpty.string_of_uint list_ascii_of_string fold_left Pos.of_uint_acc];
    trivial;
    rewrite <- IHd; f_equal; vm_compute (code _); lia.
Qed.

Lemma uint_chars_value d :
  digits_value (list_ascii_of_string (NilEmpty.string_of_uint d))
  = Z.of_N (Pos.of_uint d).
Proof.
  unfold digits_value.
  induction d;
    cbn [NilEmpty.string_of_uint list_ascii_of_string fold_left Pos.of_uint];
    trivial;
    try exact IHd;
    cbn [Z.of_N]; rewrite <- uint_chars_fold; f_equal.
Qed.

Lemma positive_chars p :
  let ds := list_ascii_of_string (NilEmpty.string_of_uint (Pos.to_uint p)) in
  decimal (Zpos p) = ds /\ decimal (Zneg p) = "-"%char :: ds
  /\ all_of isDigit ds /\ digits_value ds = Zpos p.
Proof.
  intros ds.
  assert (digits_value ds = Zpos p) as V.
  { unfold ds. rewrite uint_chars_value, DecimalPos.Unsigned.of_to.
    reflexivity. }
  assert (NilZero.string_of_uint (Pos.to_uint p)
          = NilEmpty.string_of_uint (Pos.to_uint p)) as E.
  { destruct (Pos.to_uint p) eqn:U; trivial.
    subst ds. rewrite ?U in V. discriminate V. }
  unfold decimal. cbn [Z.to_int NilZero.string_of_int]. rewrite E.
  repeat split; trivial.
  - intros N. fold ds in N. rewrite N in V. discriminate V.
  - apply uint_chars_digits.
Qed.

Lemma decimal_digits n :
  (0 <= n)%Z -> all_of isDigit (decimal n) /\ digits_value (decimal n) = n.
Proof.
  intros Hn. destruct n as [|p|p]; [| |lia].
  - split; [split; [discriminate|reflexivity]|reflexivity].
  - destruct (positive_chars p) as (-> & _ & A & V). now split.
Qed.

(** [parseInt] reads back the decimal text of every integer. *)
Lemma parseInt_decimal z : parseInt (decimal z) = Num z.
Proof.
  destruct z as [|p|p].
  - reflexivity.
  - destruct (decimal_digits (Zpos p)) as [A V]; [lia|].
    now rewrite (parseInt_digits _ A), V.
  - destruct (positive_chars p) as (_ & -> & A & V).
    destruct (all_of_head _ _ A) as (c & t & E & Hc).
    unfold parseInt. cbn [trimStart]. change (isWhiteSpace "-") with false.
    cbn iota. cbn [strip_sign].
    rewrite (strip_hex_prefix_digits _ (proj2 A)), E.
    cbn [parse_digits]. rewrite (digit_value_decimal c Hc).
    pose proof (proj2 A) as Hd. rewrite E in Hd. cbn [forallb] in Hd.
    apply andb_true_iff in Hd as [_ Hd].
    rewrite (parse_digits_all t _ Hd).
    unfold digits_value in V. rewrite E in V. cbn [fold_left] in V.
    rewrite Z.mul_0_l, Z.add_0_l in V. rewrite V. reflexivity.
Qed.

Lemma decimal_nonempty z : decimal z <> [].
Proof.
  destruct z as [|p|p]; [discriminate| |].
  - destruct (positive_chars p) as (-> & _ & A & _). apply A.
  - destruct (positive_chars p) as (_ & -> & _). discriminate.
Qed.

(** ** [trim] *)

Lemma trimStart_head s :
  match trimStart s with
  | c :: _ => isWhiteSpace c = false
  | [] => True
  end.
Proof.
  induction s as [|c s IH]; simpl; trivial.
  destruct (isWhiteSpace c) eqn:E; trivial.
Qed.

Lemma trimStart_split s :
  exists w, s = w ++ trimStart s /\ forallb isWhiteSpace w = true.
Proof.
  induction s as [|c s (w & E & Hw)]; simpl.
  - now exists [].
  - destruct (isWhiteSpace c) eqn:Ec.
    + exists (c :: w). simpl. rewrite Ec. split; [now f_equal|exact Hw].
    + now exists [].
Qed.

Lemma trimStart_fixed s :
  match s with c :: _ => isWhiteSpace c = false | [] => True end ->
  trimStart s = s.
Proof. destruct s as [|c s]; simpl; trivial. now intros ->. Qed.

Lemma trimEnd_split s :
  exists w, s = trimEnd s ++ w /\ forallb isWhiteSpace w = true.
Proof.
  unfold trimEnd. destruct (trimStart_split (rev s)) as (w & E & Hw).
  exists (rev w). split.
  - rewrite <- rev_app_distr, <- E. now rewrite rev_involutive.
  - rewrite forallb_forall in *. intros x Hx. apply Hw. now apply in_rev.
Qed.

Lemma trim_last s :
  match rev (trim s) with
  | c :: _ => isWhiteSpace c = false
  | [] => True
  end.
Proof.
  unfold trim, trimEnd. rewrite rev_involutive. apply trimStart_head.
Qed.

Lemma trim_head s :
  match trim s with
  | c :: _ => isWhiteSpace c = false
  | [] => True
  end.
Proof.
  unfold trim. destruct (trimEnd_split (trimStart s)) as (w & E & _).
  pose proof (trimStart_head s) as H. rewrite E in H.
  destruct (trimEnd (trimStart s)); trivial.
Qed.

Lemma trim_fixed s :
  match s with c :: _ => isWhiteSpace c = false | [] => True end ->
  match rev s with c :: _ => isWhiteSpace c = false | [] => True end ->
  trim s = s.
Proof.
  intros H1 H2. unfold trim, trimEnd.
  rewrite (trimStart_fixed s H1), (trimStart_fixed (rev s) H2).
  apply rev_involutive.
Qed.

Lemma trim_idempotent s : trim (trim s) = trim s.
Proof. apply trim_fixed; [apply trim_head|apply trim_last]. Qed.

Lemma head_app (P : ascii -> Prop) (a b : jsstring) :
  a <> [] ->
  match a with c :: _ => P c | [] => True end ->
  match a ++ b with c :: _ => P c | [] => True end.
Proof. destruct a; [congruence|trivial]. Qed.

Lemma last_app (P : ascii -> Prop) (a b : jsstring) :
  b <> [] ->
  match rev b with c :: _ => P c | [] => True end ->
  match rev (a ++ b) with c :: _ => P c | [] => True end.
Proof.
  intros Hb H. rewrite rev_app_distr.
  destruct (rev b) as [|c t] eqn:E; trivial.
  apply (f_equal (@rev ascii)) in E. rewrite rev_involutive in E.
  simpl in E. congruence.
Qed.

(** ** The rewritten statement is stable *)

Lemma limit_match_other_letters c :
  char_match true "L"%char c = true ->
  forall a, In a (str "IMIT") -> char_match true a c = false.
Proof.
  intros H a Ha. apply char_match_canon in H.
  destruct (char_match true a c) eqn:M; trivial.
  apply char_match_canon in M. rewrite <- H in M.
  simpl in Ha. intuition (subst; discriminate M).
Qed.

Lemma strip_limit_straddle u c r :
  u <> [] -> strip_ci (str "LIMIT") u = None ->
  char_match true "L"%char c = true ->
  strip_ci (str "LIMIT") (u ++ c :: r) = None.
Proof.
  intros Hu H Hc. destruct u as [|b u]; [congruence|].
  change (str "LIMIT") with ("L"%char :: str "IMIT") in *.
  cbn [app strip_ci] in *.
  destruct (char_match true "L"%char b); trivial.
  destruct (strip_ci (str "IMIT") u) as [[w r']|] eqn:E; [discriminate|].
  rewrite (strip_ci_app_none _ _ _ _ E); trivial.
  now apply limit_match_other_letters.
Qed.

(** A position before a keyword is a clause or not whatever follows the
    keyword: the clause, if any, ends before it. *)
Lemma limit_at_before_keyword l u c r c' r' :
  u <> [] ->
  char_match true "L"%char c = true -> char_match true "L"%char c' = true ->
  limit_at l (u ++ c :: r) = None -> limit_at l (u ++ c' :: r') = None.
Proof.
  intros Hu Hc Hc'.
  destruct (letter_match "L"%char c eq_refl Hc) as (_ & _ & Ws & Dg).
  destruct (letter_match "L"%char c' eq_refl Hc') as (_ & _ & Ws' & Dg').
  unfold limit_at.
  assert (is_boundary l (u ++ c' :: r') = is_boundary l (u ++ c :: r)) as ->
    by (destruct u; [congruence|reflexivity]).
  destruct (is_boundary l (u ++ c :: r)); trivial.
  destruct (strip_ci (str "LIMIT") u) as [[kw u1]|] eqn:K.
  - rewrite !(strip_ci_app_some _ _ _ _ _ K).
    destruct (snd (span isWhiteSpace u1)) as [|x y] eqn:S1.
    + intros _. rewrite (span_app_all _ _ _ S1).
      cbn [span]. rewrite Ws'. cbn [fst snd]. rewrite app_nil_r.
      destruct u1; trivial. cbn [span]. now rewrite Dg'.
    + rewrite !(span_app_stop _ _ _ _ _ S1).
      destruct (fst (span isWhiteSpace u1)); trivial.
      destruct (snd (span isDigit (x :: y))) as [|x' y'] eqn:S2.
      * rewrite (span_app_all _ _ (c :: r) S2).
        cbn [span]. rewrite Dg. cbn [fst snd]. rewrite app_nil_r.
        discriminate.
      * rewrite !(span_app_stop _ _ _ _ _ S2).
        now destruct (fst (span isDigit (x :: y))).
  - intros _. now rewrite (strip_limit_straddle u c' r' Hu K Hc').
Qed.

Lemma keyword_starts kw rest :
  eq_ci kw (str "LIMIT") ->
  exists c r, kw ++ rest = c :: r /\ char_match true "L"%char c = true.
Proof.
  unfold eq_ci. intros H. destruct kw as [|c t]; [discriminate|].
  exists c, (t ++ rest). split; trivial.
  apply char_match_canon. simpl in H. now inversion H.
Qed.

(** After the rewriting, the rewritten clause is the first clause. *)
Lemma rewritten_clause_first t pre kw ws ds post :
  FirstLimitClause t pre kw ws ds post ->
  FirstLimitClause
    (pre ++ str "LIMIT " ++ decimal (Z.min (digits_value ds) 100) ++ post)
    pre (str "LIMIT") (str " ") (decimal (Z.min (digits_value ds) 100)) post.
Proof.
  intros F. pose proof (first_clause_found _ _ _ _ _ _ F) as Found.
  destruct F as [[H1 H2 H3 H4 H5 H6] _].
  pose proof (digits_value_nonneg ds (proj2 H5)) as Hnn.
  destruct (decimal_digits (Z.min (digits_value ds) 100)) as [Hd _]; [lia|].
  apply found_first_clause.
  apply (find_limit_first _ [] pre
           (str "LIMIT " ++ decimal (Z.min (digits_value ds) 100) ++ post)).
  - reflexivity.
  - rewrite app_nil_r.
    apply (limit_at_complete (rev pre) (str "LIMIT") (str " ")); trivial.
    + reflexivity.
    + split; [discriminate|reflexivity].
  - intros a' b' E Hlen. rewrite app_nil_r.
    apply app_eq_app in E as [u [[E1 E2]|[E1 E2]]].
    + subst b'. destruct u as [|x u].
      { rewrite app_nil_r in E1. subst a'. lia. }
      apply find_limit_sound in Found
        as (a & b & Hs & Hpre & _ & Hfirst).
      simpl in Hpre. subst a.
      assert (limit_at (rev a') ((x :: u) ++ kw ++ ws ++ ds ++ post) = None)
        as Hn.
      { specialize (Hfirst a' ((x :: u) ++ kw ++ ws ++ ds ++ post)).
        rewrite app_nil_r in Hfirst. apply Hfirst; trivial.
        rewrite H1, E1, <- app_assoc. reflexivity. }
      destruct (keyword_starts kw (ws ++ ds ++ post) H3) as (c & r & Ek & Hc).
      rewrite Ek in Hn.
      apply (limit_at_before_keyword (rev a') (x :: u) c r "L"%char
               (str "IMIT " ++ decimal (Z.min (digits_value ds) 100) ++ post));
        trivial.
      discriminate.
    + subst a'. rewrite length_app in Hlen. lia.
Qed.

Lemma appended_clause_first t d :
  all_of isDigit d -> NoLimitClause t ->
  FirstLimitClause (t ++ str " LIMIT " ++ d) (t ++ str " ") (str "LIMIT")
    (str " ") d [].
Proof.
  intros Hd Hno. split; [now apply appended_clause|].
  intros pre' kw' ws' ds' post' Hc.
  rewrite (appended_clause_unique _ _ _ _ _ _ _ (proj2 Hd) Hno Hc). lia.
Qed.

(** X1: the statement [postgres_execute_query] builds always has a
    [LIMIT] clause, and the value of its first one is at most 100. *)
Theorem final_statement_is_capped q limit :
  exists pre kw ws ds post,
    FirstLimitClause (limit_query q limit) pre kw ws ds post
    /\ (0 <= digits_value ds <= 100)%Z.
Proof.
  destruct (find_limit [] (trim q)) as [[pre [[[kw ws] ds] post]]|] eqn:E.
  - apply found_first_clause in E.
    rewrite (limit_query_first q limit _ _ _ _ _ E).
    pose proof (rewritten_clause_first _ _ _ _ _ _ E) as F.
    destruct E as [[_ _ _ _ Hd _] _].
    pose proof (digits_value_nonneg ds (proj2 Hd)) as Hnn.
    destruct (decimal_digits (Z.min (digits_value ds) 100)) as [_ V]; [lia|].
    do 5 eexists. split; [exact F|]. rewrite V. lia.
  - apply no_clause_iff in E. rewrite (limit_query_none q limit E).
    destruct (decimal_digits (Z.min (Z.max 1 limit) 100)) as [A V]; [lia|].
    do 5 eexists. split; [exact (appended_clause_first _ _ A E)|].
    rewrite V. lia.
Qed.

Lemma limit_query_trimmed q limit :
  trim q <> [] -> trim (limit_query q limit) = limit_query q limit.
Proof.
  intros Hq.
  destruct (find_limit [] (trim q)) as [[pre [[[kw ws] ds] post]]|] eqn:E.
  - apply found_first_clause in E.
    rewrite (limit_query_first q limit _ _ _ _ _ E).
    destruct E as [[H1 _ _ _ Hd _] _].
    pose proof (digits_value_nonneg ds (proj2 Hd)) as Hnn.
    destruct (decimal_digits (Z.min (digits_value ds) 100)) as [A _]; [lia|].
    pose proof (trim_head q) as Hh. pose proof (trim_last q) as Hl.
    rewrite H1 in Hh, Hl. apply trim_fixed.
    + destruct pre as [|c pre]; [exact (eq_refl false)|exact Hh].
    + destruct post as [|c post].
      * rewrite app_nil_r.
        replace (pre ++ str "LIMIT " ++ decimal (Z.min (digits_value ds) 100))
          with ((pre ++ str "LIMIT ")
                  ++ decimal (Z.min (digits_value ds) 100))
          by now rewrite <- app_assoc.
        apply (last_app (fun c => isWhiteSpace c = false)); [apply A|].
        destruct (all_of_last _ _ A) as (c & r & -> & Hc).
        now apply digit_not_space.
      * replace (pre ++ str "LIMIT "
                   ++ decimal (Z.min (digits_value ds) 100) ++ c :: post)
          with ((pre ++ str "LIMIT "
                   ++ decimal (Z.min (digits_value ds) 100)) ++ c :: post)
          by now rewrite <- !app_assoc.
        replace (pre ++ kw ++ ws ++ ds ++ c :: post)
          with ((pre ++ kw ++ ws ++ ds) ++ c :: post) in Hl
          by now rewrite <- !app_assoc.
        rewrite rev_app_distr in *.
        destruct (rev (c :: post)) eqn:R; [|exact Hl].
        apply (f_equal (@rev ascii)) in R. rewrite rev_involutive in R.
        discriminate R.
  - apply no_clause_iff in E. rewrite (limit_query_none q limit E).
    destruct (decimal_digits (Z.min (Z.max 1 limit) 100)) as [A _]; [lia|].
    apply trim_fixed.
    + apply (head_app (fun c => isWhiteSpace c = false)); trivial.
      apply trim_head.
    + replace (trim q ++ str " LIMIT " ++ decimal (Z.min (Z.max 1 limit) 100))
        with ((trim q ++ str " LIMIT ")
                ++ decimal (Z.min (Z.max 1 limit) 100))
        by now rewrite <- app_assoc.
      apply (last_app (fun c => isWhiteSpace c = false)); [apply A|].
      destruct (all_of_last _ _ A) as (c & r & -> & Hc).
      now apply digit_not_space.
Qed.

(** X2: for a statement that is not blank, rewriting the rewritten
    statement changes nothing, whatever cap is requested the second
    time. *)
Theorem limit_rewrite_idempotent q limit limit' :
  trim q <> [] ->
  limit_query (limit_query q limit) limit' = limit_query q limit.
Proof.
  intros Hq. pose proof (limit_query_trimmed q limit Hq) as T.
  destruct (find_limit [] (trim q)) as [[pre [[[kw ws] ds] post]]|] eqn:E.
  - apply found_first_clause in E.
    pose proof (rewritten_clause_first _ _ _ _ _ _ E) as F.
    rewrite <- (limit_query_first q limit _ _ _ _ _ E) in F.
    rewrite <- T in F at 1.
    rewrite (limit_query_first _ limit' _ _ _ _ _ F).
    rewrite (limit_query_first q limit _ _ _ _ _ E).
    destruct E as [[_ _ _ _ Hd _] _].
    pose proof (digits_value_nonneg ds (proj2 Hd)) as Hnn.
    destruct (decimal_digits (Z.min (digits_value ds) 100)) as [_ V]; [lia|].
    rewrite V.
    replace (Z.min (Z.min (digits_value ds) 100) 100)
      with (Z.min (digits_value ds) 100) by lia.
    reflexivity.
  - apply no_clause_iff in E.
    destruct (decimal_digits (Z.min (Z.max 1 limit) 100)) as [A V]; [lia|].
    pose proof (appended_clause_first _ _ A E) as F.
    rewrite <- (limit_query_none q limit E) in F.
    rewrite <- T in F at 1.
    rewrite (limit_query_first _ limit' _ _ _ _ _ F).
    rewrite (limit_query_none q limit E), V.
    replace (Z.min (Z.min (Z.max 1 limit) 100) 100)
      with (Z.min (Z.max 1 limit) 100) by lia.
    now rewrite <- app_assoc, app_nil_r.
Qed.

Lemma limit_rewrite_idempotent_witness :
  trim (str " select * from t limit 500 ") <> []
  /\ limit_query (limit_query (str " select * from t limit 500 ") 5) 40 =
     str "select * from t LIMIT 100".
Proof.
  assert (trim (str " select * from t limit 500 ") <> []) as H
    by (vm_compute; discriminate).
  split; [exact H|].
  rewrite (limit_rewrite_idempotent (str " select * from t limit 500 ") 5 40 H).
  vm_compute. reflexivity.
Defined.

(** ** The session of [postgres_execute_query] *)

Lemma execute_query_trace db allowedSchemas q limit log :
  validate_query q = Ok tt -> pool_connect db = inr tt ->
  let final := limit_query q limit in
  let plan := session_plan allowedSchemas final in
  calls (postgres_execute_query db allowedSchemas q limit) log =
  log ++ [PoolConnect] ++ map ClientQuery (run_plan db plan) ++ [ClientRelease]
  /\ outcome (postgres_execute_query db allowedSchemas q limit) log =
     match first_failure db plan with
     | Some msg => Throw (DriverError msg)
     | None =>
         match client_query db final with
         | inr res =>
             Ok (formatResult
                   (JObj [(str "query", JStr final);
                          (str "rows", JArr (rows res));
                          (str "row_count", JNum (count_of (rows res)));
                          (str "fields", JArr (map JStr (fields res)))]))
         | inl msg => Throw (DriverError msg)
         end
     end.
Proof.
  intros V C final plan. unfold calls, outcome, postgres_execute_query.
  rewrite (bind_ok _ _ tt log V).
  cbv [bind connect emit of_driver try_finally client_run release ret].
  rewrite C. subst plan. unfold session_plan. fold final.
  destruct (0 <? length allowedSchemas);
    cbn [app run_plan first_failure map];
    destruct (client_query db (str "SET statement_timeout = 30000"));
    cbn [fst snd app map]; try (split; [now rewrite <- !app_assoc|reflexivity]).
  - destruct (client_query db (str "SET search_path = " ++ _));
      cbn [fst snd app map];
      try (split; [now rewrite <- !app_assoc|reflexivity]).
    destruct (client_query db final); cbn [fst snd app map];
      split; try reflexivity; now rewrite <- !app_assoc.
  - destruct (client_query db final); cbn [fst snd app map];
      split; try reflexivity; now rewrite <- !app_assoc.
Qed.

Lemma run_plan_complete db plan :
  first_failure db plan = None -> run_plan db plan = plan.
Proof.
  induction plan as [|s rest IH]; cbn [first_failure run_plan]; trivial.
  destruct (client_query db s); [discriminate|].
  intros H. now rewrite IH.
Qed.

Lemma plan_first_failure db done bad rest msg :
  all_succeed db done -> client_query db bad = inl msg ->
  run_plan db (done ++ bad :: rest) = done ++ [bad]
  /\ first_failure db (done ++ bad :: rest) = Some msg.
Proof.
  intros Hd Hb.
  induction done as [|s done IH]; cbn [app run_plan first_failure].
  - now rewrite Hb.
  - destruct (Hd s (or_introl eq_refl)) as (res & ->).
    destruct IH as [E F]; [intros x Hx; apply Hd; now right|].
    now rewrite E, F.
Qed.

Lemma plan_no_failure db plan :
  first_failure db plan = None <-> all_succeed db plan.
Proof.
  induction plan as [|s plan IH]; cbn [first_failure].
  - split; trivial. intros _ s [].
  - destruct (client_query db s) as [msg|res] eqn:E.
    + split; [discriminate|]. intros H.
      destruct (H s (or_introl eq_refl)) as (r & Hr). congruence.
    + rewrite IH. split.
      * intros H x [<-|Hx]; eauto.
      * intros H x Hx. apply H. now right.
Qed.

(** X3: once the statement has passed the validation and a connection is
    obtained, [postgres_execute_query] sends on it the statement timeout,
    then the search path of the allowed schemas (quoted, comma-joined, and
    only when the list is not empty), then the rewritten statement.  When
    all of them succeed, all are sent and the handler succeeds.  When one
    fails after the ones before it succeeded, these and the failing one are
    sent, none of the later ones is, and the handler throws the driver's
    message of that failure.  In both cases the release follows the last
    statement sent. *)
Theorem execute_query_session db allowedSchemas q limit log :
  validate_query q = Ok tt -> pool_connect db = inr tt ->
  let plan := session_plan allowedSchemas (limit_query q limit) in
  let run := postgres_execute_query db allowedSchemas q limit in
  (all_succeed db plan ->
   calls run log
   = log ++ [PoolConnect] ++ map ClientQuery plan ++ [ClientRelease]
   /\ exists r, outcome run log = Ok r)
  /\ (forall done bad rest msg,
        plan = done ++ bad :: rest ->
        all_succeed db done -> client_query db bad = inl msg ->
        calls run log
        = log ++ [PoolConnect] ++ map ClientQuery (done ++ [bad])
              ++ [ClientRelease]
        /\ outcome run log = Throw (DriverError msg))
  /\ ((exists r, outcome run log = Ok r) <-> all_succeed db plan).
Proof.
  intros V C plan run.
  destruct (execute_query_trace db allowedSchemas q limit log V C) as [Hc Ho].
  fold plan in Hc, Ho. fold run in Hc, Ho.
  assert (In (limit_query q limit) plan) as Hlast.
  { unfold plan, session_plan. apply in_or_app. right.
    apply in_or_app. right. now left. }
  assert (all_succeed db plan -> exists r, outcome run log = Ok r) as Hok.
  { intros A. rewrite Ho, (proj2 (plan_no_failure db plan) A).
    destruct (A _ Hlast) as (res & ->). eauto. }
  split; [|split].
  - intros A. split; [|now apply Hok].
    now rewrite Hc, (run_plan_complete db plan (proj2 (plan_no_failure db plan) A)).
  - intros done bad rest msg E A B.
    destruct (plan_first_failure db done bad rest msg A B) as [R F].
    rewrite <- E in R, F. now rewrite Hc, Ho, R, F.
  - split; [|exact Hok].
    intros (r & Hr). apply plan_no_failure.
    rewrite Ho in Hr. destruct (first_failure db plan); [discriminate|trivial].
Qed.

Lemma execute_query_session_witness :
  let db := mkDriver (fun _ _ => inl (str "unused")) (inr tt)
              (fun sql =>
                 if startsWith sql (str "SET search_path")
                 then inl (str "permission denied")
                 else inr (mkQueryResult [] [])) in
  validate_query (str "select 1") = Ok tt
  /\ pool_connect db = inr tt
  /\ all_succeed db [str "SET statement_timeout = 30000"]
  /\ calls (postgres_execute_query db [str "app"] (str "select 1") 5) [] =
     [PoolConnect; ClientQuery (str "SET statement_timeout = 30000");
      ClientQuery (str "SET search_path = " ++ [dquote] ++ str "app"
                     ++ [dquote]);
      ClientRelease]
  /\ outcome (postgres_execute_query db [str "app"] (str "select 1") 5) [] =
     Throw (DriverError (str "permission denied")).
Proof.
  intros db.
  assert (validate_query (str "select 1") = Ok tt) as V
    by (vm_compute; reflexivity).
  assert (pool_connect db = inr tt) as C by reflexivity.
  assert (all_succeed db [str "SET statement_timeout = 30000"]) as A.
  { intros s [<-|[]]. eexists. reflexivity. }
  split; [exact V|]. split; [exact C|]. split; [exact A|].
  exact (proj1 (proj2 (execute_query_session db [str "app"] (str "select 1") 5
                         [] V C))
           [str "SET statement_timeout = 30000"]
           (str "SET search_path = " ++ [dquote] ++ str "app" ++ [dquote])
           [str "select 1 LIMIT 5"] (str "permission denied")
           eq_refl A eq_refl).
Defined.

Lemma count_client_queries p l :
  (forall s, p (ClientQuery s) = false) ->
  count_events p (map ClientQuery l) = 0.
Proof.
  intros H. unfold count_events.
  induction l as [|s l IH]; simpl; trivial. now rewrite H.
Qed.

Lemma count_events_app p a b :
  count_events p (a ++ b) = count_events p a + count_events p b.
Proof. unfold count_events. now rewrite filter_app, length_app. Qed.

(** X4: whatever the driver answers, [postgres_execute_query] asks for a
    connection exactly when the statement passes the validation, releases
    it exactly when it obtained one, once and as its last call, and never
    releases otherwise. *)
Theorem execute_query_releases db allowedSchemas q limit log :
  exists new,
    calls (postgres_execute_query db allowedSchemas q limit) log = log ++ new
    /\ count_events is_connect new =
       (if passes (validate_query q) then 1 else 0)
    /\ count_events is_release new =
       (if passes (validate_query q) && connects db then 1 else 0)
    /\ (if passes (validate_query q) && connects db
        then exists sent, new = PoolConnect :: sent ++ [ClientRelease]
                          /\ count_events is_release sent = 0
        else True).
Proof.
  unfold connects.
  destruct (validate_query q) as [[]|e] eqn:V.
  - destruct (pool_connect db) as [msg|[]] eqn:C.
    + exists [PoolConnect]. cbn [passes andb].
      unfold calls, postgres_execute_query. rewrite (bind_ok _ _ tt log V).
      cbv [bind connect emit of_driver]. rewrite C.
      repeat split; trivial.
    + destruct (execute_query_trace db allowedSchemas q limit log V C)
        as [Hc _].
      eexists. split; [exact Hc|]. cbn [passes andb app].
      unfold count_events at 1 2. cbn [filter is_connect is_release length].
      fold (count_events is_connect
              (map ClientQuery
                 (run_plan db (session_plan allowedSchemas (limit_query q limit)))
               ++ [ClientRelease])).
      fold (count_events is_release
              (map ClientQuery
                 (run_plan db (session_plan allowedSchemas (limit_query q limit)))
               ++ [ClientRelease])).
      rewrite !count_events_app, !count_client_queries by reflexivity.
      repeat split; trivial.
      eexists. split; [reflexivity|].
      now apply count_client_queries.
  - exists []. cbn [passes andb].
    unfold calls, postgres_execute_query. rewrite (bind_throw _ _ e log V).
    rewrite app_nil_r. repeat split; trivial.
Qed.

Lemma deny_pattern_rejected q :
  HasDenyPattern q ->
  exists e, validate_query q = Throw e /\ kind e = InvalidOperation.
Proof.
  intros D. destruct (select_or_with q) eqn:P.
  - rewrite (validate_after_prefix q P).
    apply deny_pattern_iff in D as (k & Hk & T).
    destruct (check_forbidden_spec q forbiddenKeywords)
      as [[_ H]|(k' & _ & _ & ->)].
    + rewrite (H k Hk) in T. discriminate T.
    + eexists. split; reflexivity.
  - rewrite (validate_before_prefix q P). eexists. split; reflexivity.
Qed.

(** X5: a statement that fails the validation never reaches the driver:
    no connection is asked for and nothing is sent.  This is so for every
    statement that holds a deny-listed keyword followed by an
    object-context word, which ends with an InvalidOperation error. *)
Theorem rejected_statement_not_sent db allowedSchemas q limit log :
  (forall e, validate_query q = Throw e ->
     postgres_execute_query db allowedSchemas q limit log = (log, Throw e))
  /\ (HasDenyPattern q ->
      calls (postgres_execute_query db allowedSchemas q limit) log = log
      /\ exists e,
           outcome (postgres_execute_query db allowedSchemas q limit) log
           = Throw e
           /\ kind e = InvalidOperation).
Proof.
  assert (forall e, validate_query q = Throw e ->
            postgres_execute_query db allowedSchemas q limit log
            = (log, Throw e)) as H.
  { intros e V. unfold postgres_execute_query. now apply bind_throw. }
  split; [exact H|].
  intros D. destruct (deny_pattern_rejected q D) as (e & V & K).
  unfold calls, outcome. rewrite (H e V). split; [reflexivity|].
  exists e. split; [reflexivity|exact K].
Qed.

Lemma rejected_statement_not_sent_witness :
  HasDenyPattern (str "WITH x AS (SELECT 1) DELETE FROM users")
  /\ postgres_execute_query (constant_driver (mkQueryResult [] [])) []
       (str "WITH x AS (SELECT 1) DELETE FROM users") 5 [] =
     ([], Throw (ForbiddenKeyword (str "delete"))).
Proof.
  assert (HasDenyPattern (str "WITH x AS (SELECT 1) DELETE FROM users")) as D.
  { exists (str "WITH x AS (SELECT 1) "), (str "DELETE"), (str " "),
      (str "FROM"), (str " users").
    constructor; try (vm_compute; reflexivity).
    - exists (str "delete"). split; [|reflexivity].
      apply includes_In. vm_compute. reflexivity.
    - split; [discriminate|reflexivity].
    - exists (str "from"). split; [|reflexivity].
      apply includes_In. vm_compute. reflexivity. }
  split; [exact D|].
  apply (proj1 (rejected_statement_not_sent
                  (constant_driver (mkQueryResult [] [])) []
                  (str "WITH x AS (SELECT 1) DELETE FROM users") 5 [])).
  vm_compute. reflexivity.
Defined.

(** ** The statement of [postgres_query_table] *)

Lemma query_table_trace db allowedSchemas schema table columns where_ limit
    log :
  assertSchemaAllowed schema allowedSchemas = Ok tt ->
  let text := table_query schema table columns where_ in
  let cap := Z.min (Z.max 1 limit) 100 in
  postgres_query_table db allowedSchemas schema table columns where_ limit log
  = (log ++ [PoolQuery text [JNum (Num cap)]],
     match pool_query db text [JNum (Num cap)] with
     | inl msg => Throw (DriverError msg)
     | inr res =>
         Ok (formatResult
               (JObj [(str "schema", JStr schema);
                      (str "table", JStr table);
                      (str "query", JStr text);
                      (str "rows", JArr (rows res));
                      (str "row_count", JNum (count_of (rows res)));
                      (str "limit", JNum (Num cap))]))
     end).
Proof.
  intros G text cap.
  unfold postgres_query_table.
  rewrite (bind_ok _ _ tt log G).
  cbv [bind query emit of_driver ret]. cbn [length Z.of_nat Z.add app].
  assert ((match where_ with
           | Some (c :: w) =>
               (str "SELECT " ++ columns ++ str " FROM " ++ [dquote] ++ schema
                  ++ [dquote] ++ str "." ++ [dquote] ++ table ++ [dquote])
                 ++ str " WHERE " ++ c :: w
           | _ =>
               str "SELECT " ++ columns ++ str " FROM " ++ [dquote] ++ schema
                 ++ [dquote] ++ str "." ++ [dquote] ++ table ++ [dquote]
           end) ++ str " LIMIT $" ++ number_to_string (Num 1) = text) as E.
  { unfold text, table_query.
    destruct where_ as [[|c w]|]; rewrite <- ?app_assoc; cbn [app];
      repeat (rewrite <- ?app_assoc; cbn [app]); try reflexivity;
      rewrite ?app_nil_l; repeat f_equal;
      rewrite <- ?app_assoc; reflexivity. }
  cbn [app] in E |- *. rewrite E.
  change (Math_min (Math_max (Num 1) (Num limit)) (Num 100)) with (Num cap).
  destruct (pool_query db text [JNum (Num cap)]); reflexivity.
Qed.

(** X6: with an allowed schema, [postgres_query_table] makes exactly one
    call, whatever the driver answers: the text
    [SELECT <columns> FROM "<schema>"."<table>"], then [ WHERE <where>]
    when a non-empty filter is given, then [ LIMIT $1], with one bound
    parameter, the cap min(max(1, limit), 100), which is never written into
    the text.  A failure of the driver is thrown with its message.  On
    success the response is made from the object of schema, table, query
    text, rows, row_count and the cap: its whole JSON text when that has at
    most 25000 characters, and otherwise the first 25000 characters of it
    followed by the notice. *)
Theorem query_table_statement db allowedSchemas schema table columns where_
    limit log :
  assertSchemaAllowed schema allowedSchemas = Ok tt ->
  let text := table_query schema table columns where_ in
  let cap := Z.min (Z.max 1 limit) 100 in
  let run :=
    postgres_query_table db allowedSchemas schema table columns where_ limit in
  (1 <= cap <= 100)%Z
  /\ calls run log = log ++ [PoolQuery text [JNum (Num cap)]]
  /\ (forall msg,
        pool_query db text [JNum (Num cap)] = inl msg ->
        outcome run log = Throw (DriverError msg))
  /\ (forall res,
        pool_query db text [JNum (Num cap)] = inr res ->
        let obj :=
          JObj [(str "schema", JStr schema);
                (str "table", JStr table);
                (str "query", JStr text);
                (str "rows", JArr (rows res));
                (str "row_count", JNum (Num (Z.of_nat (length (rows res)))));
                (str "limit", JNum (Num cap))] in
        (fits obj -> outcome run log = Ok (whole obj))
        /\ (~ fits obj -> outcome run log = Ok (cut obj))).
Proof.
  intros G text cap run. split; [unfold cap; lia|].
  pose proof (query_table_trace db allowedSchemas schema table columns where_
                limit log G) as E.
  fold text in E. fold cap in E. fold run in E.
  unfold calls, outcome. rewrite E. cbn [fst snd].
  split; [reflexivity|]. split.
  - intros msg ->. reflexivity.
  - intros res ->. cbv zeta. apply formatted_outcome. reflexivity.
Qed.

Lemma query_table_statement_witness :
  let db := constant_driver
              (mkQueryResult [JObj [(str "id", JNum (Num 7))]] [str "id"]) in
  let text :=
    str "SELECT id FROM " ++ [dquote] ++ str "public" ++ [dquote]
      ++ str "." ++ [dquote] ++ str "users" ++ [dquote]
      ++ str " WHERE age > 30 LIMIT $1" in
  let obj :=
    JObj [(str "schema", JStr (str "public"));
          (str "table", JStr (str "users"));
          (str "query", JStr text);
          (str "rows", JArr [JObj [(str "id", JNum (Num 7))]]);
          (str "row_count", JNum (Num 1));
          (str "limit", JNum (Num 100))] in
  assertSchemaAllowed (str "public") [str "public"] = Ok tt
  /\ fits obj
  /\ calls (postgres_query_table db [str "public"] (str "public") (str "users")
              (str "id") (Some (str "age > 30")) 500) []
     = [PoolQuery text [JNum (Num 100)]]
  /\ outcome (postgres_query_table db [str "public"] (str "public")
                (str "users") (str "id") (Some (str "age > 30")) 500) []
     = Ok (whole obj).
Proof.
  intros db text obj.
  assert (assertSchemaAllowed (str "public") [str "public"] = Ok tt) as G
    by (vm_compute; reflexivity).
  assert (fits obj) as F by (vm_compute; discriminate).
  pose proof (query_table_statement db [str "public"] (str "public")
                (str "users") (str "id") (Some (str "age > 30")) 500 [] G)
    as (_ & Hc & _ & Hs).
  split; [exact G|]. split; [exact F|]. split; [exact Hc|].
  exact (proj1 (Hs (mkQueryResult [JObj [(str "id", JNum (Num 7))]] [str "id"])
                  eq_refl) F).
Defined.

(** ** The tools that take a schema *)

(** X7: the schema gate comes before every call of the tools that take a
    schema: with a non-empty allowed list that does not hold the schema,
    the three list tools, [postgres_describe_table],
    [postgres_get_function_definition] and
    [postgres_get_trigger_definition] end with the PermissionDenied error
    and have made no call. *)
Theorem gate_before_every_call db allowedSchemas schema log :
  allowedSchemas <> [] -> ~ In schema allowedSchemas ->
  (forall t limit offset,
     list_tool t db allowedSchemas schema limit offset log
     = (log, Throw (SchemaNotAllowed schema)))
  /\ (forall race table,
        postgres_describe_table db allowedSchemas race schema table log
        = (log, Throw (SchemaNotAllowed schema)))
  /\ (forall function_name,
        postgres_get_function_definition db allowedSchemas schema function_name
          log
        = (log, Throw (SchemaNotAllowed schema)))
  /\ (forall trigger_name,
        postgres_get_trigger_definition db allowedSchemas schema trigger_name
          log
        = (log, inl (Raised (SchemaNotAllowed schema))))
  /\ kind (SchemaNotAllowed schema) = PermissionDenied.
Proof.
  intros Hne Hin. pose proof (assert_denied schema allowedSchemas Hne Hin) as D.
  split; [|split; [|split; [|split]]].
  - intros [] limit offset; cbn [list_tool];
      [unfold postgres_list_tables|unfold postgres_list_functions
      |unfold postgres_list_triggers]; now apply bind_throw.
  - intros race table. unfold postgres_describe_table. now apply bind_throw.
  - intros function_name. unfold postgres_get_function_definition.
    now apply bind_throw.
  - intros trigger_name. unfold postgres_get_trigger_definition.
    now rewrite D.
  - reflexivity.
Qed.

Lemma gate_before_every_call_witness :
  [str "sales"] <> []
  /\ ~ In (str "public") [str "sales"]
  /\ postgres_list_triggers (constant_driver (mkQueryResult [] []))
       [str "sales"] (str "public") 50 0 []
     = ([], Throw (SchemaNotAllowed (str "public"))).
Proof.
  assert ([str "sales"] <> []) as Hne by discriminate.
  assert (~ In (str "public") [str "sales"]) as Hin.
  { intros H. apply includes_In in H. vm_compute in H. discriminate H. }
  split; [exact Hne|]. split; [exact Hin|].
  exact (proj1 (gate_before_every_call
                  (constant_driver (mkQueryResult [] [])) [str "sales"]
                  (str "public") [] Hne Hin) Triggers 50%Z 0%Z).
Defined.

(** ** The JSON text of an object *)

Lemma serialize_nonempty indent j : serialize indent j <> [].
Proof.
  destruct j as [|[|]|[z|]|s|[|i items]|[|kv props]]; cbn [serialize];
    try discriminate.
  apply decimal_nonempty.
Qed.

Lemma join_holds sep l1 x l2 :
  exists pre post, join sep (l1 ++ x :: l2) = pre ++ x ++ post.
Proof.
  induction l1 as [|a l1 (pre & post & E)]; cbn [app].
  - exists [].
    destruct l2 as [|b l2]; cbn [join app].
    + exists []. now rewrite app_nil_r.
    + eexists. reflexivity.
  - exists (a ++ sep ++ pre), post.
    destruct (l1 ++ x :: l2) as [|b l] eqn:F; [now destruct l1|].
    cbn [join]. change (match l with
                        | [] => b
                        | _ :: _ => b ++ sep ++ join sep l
                        end) with (join sep (b :: l)).
    rewrite E. now rewrite <- !app_assoc.
Qed.

Lemma stringify_shows props key v :
  In (key, v) props ->
  contains (JSON_stringify (JObj props))
    (quote key ++ str ": " ++ serialize gap v) = true.
Proof.
  intros H. apply in_split in H as (l1 & l2 & ->).
  unfold JSON_stringify.
  destruct (l1 ++ (key, v) :: l2) as [|kv rest] eqn:E; [now destruct l1|].
  cbn [serialize]. rewrite <- E. rewrite map_app. cbn [map].
  match goal with
  | |- context [join ?sep ?l] =>
      match l with
      | ?a ++ ?x :: ?b =>
          destruct (join_holds sep a x b) as (pre & post & J);
          assert (join sep l = pre ++ x ++ post) as -> by exact J
      end
  end.
  change ([] ++ gap) with gap.
  replace (str "{" ++ [newline] ++ gap
             ++ (pre ++ (quote key ++ str ": " ++ serialize gap v) ++ post)
             ++ [newline] ++ [] ++ str "}")
    with ((str "{" ++ [newline] ++ gap ++ pre)
            ++ (quote key ++ str ": " ++ serialize gap v)
            ++ (post ++ [newline] ++ [] ++ str "}"))
    by (rewrite <- !app_assoc; reflexivity).
  apply contains_middle.
Qed.

Lemma assoc_In key props v : assoc key props = Some v -> In (key, v) props.
Proof.
  induction props as [|[k w] props IH]; cbn [assoc]; [discriminate|].
  destruct (string_eqb k key) eqn:E.
  - intros [= ->]. apply string_eqb_eq in E as ->. now left.
  - intros H. right. now apply IH.
Qed.

(** ** The list tools *)

Lemma list_tool_trace t db allowedSchemas schema limit offset log :
  assertSchemaAllowed schema allowedSchemas = Ok tt ->
  let count_call := PoolQuery (count_sql t) [JStr schema] in
  let page_call :=
    PoolQuery (page_sql t) [JStr schema; JNum (Num limit); JNum (Num offset)] in
  list_tool t db allowedSchemas schema limit offset log =
  match pool_query db (count_sql t) [JStr schema] with
  | inl msg => (log ++ [count_call], Throw (DriverError msg))
  | inr countResult =>
      match member (str "total") (nth_error (rows countResult) 0) with
      | Throw e => (log ++ [count_call], Throw e)
      | Ok total_field =>
          match pool_query db (page_sql t)
                  [JStr schema; JNum (Num limit); JNum (Num offset)] with
          | inl msg => (log ++ [count_call; page_call], Throw (DriverError msg))
          | inr page =>
              (log ++ [count_call; page_call],
               Ok (formatResult
                     (page_object t schema offset
                        (parseInt (toString_opt total_field))
                        (rows page))))
          end
      end
  end.
Proof.
  intros G count_call page_call.
  destruct t; cbn [list_tool count_sql page_sql] in *;
    [unfold postgres_list_tables|unfold postgres_list_functions
    |unfold postgres_list_triggers];
    rewrite (bind_ok _ _ tt log G);
    cbv [bind query emit of_driver lift ret];
    (destruct (pool_query db _ [JStr schema]) as [msg|countResult];
     [reflexivity|]);
    (destruct (member (str "total") (nth_error (rows countResult) 0))
       as [total_field|e]; [|reflexivity]);
    (destruct (pool_query db _ [JStr schema; JNum (Num limit); JNum (Num offset)])
       as [msg|page];
     rewrite <- app_assoc; reflexivity).
Qed.

Lemma list_tool_page t db allowedSchemas schema limit offset log
    countResult row0 others T page :
  assertSchemaAllowed schema allowedSchemas = Ok tt ->
  pool_query db (count_sql t) [JStr schema] = inr countResult ->
  rows countResult = row0 :: others -> row0 <> JNull ->
  parseInt (toString_opt (get_prop (str "total") row0)) = Num T ->
  pool_query db (page_sql t)
    [JStr schema; JNum (Num limit); JNum (Num offset)] = inr page ->
  list_tool t db allowedSchemas schema limit offset log =
  (log ++ [PoolQuery (count_sql t) [JStr schema];
           PoolQuery (page_sql t)
             [JStr schema; JNum (Num limit); JNum (Num offset)]],
   Ok (formatResult (page_report (items_key t) schema (rows page) T offset))).
Proof.
  intros G Hc Hr Hn Ht Hp.
  rewrite (list_tool_trace t db allowedSchemas schema limit offset log G).
  rewrite Hc, Hr. cbn [nth_error]. rewrite (member_row _ _ Hn), Hp, Ht.
  reflexivity.
Qed.

(** C7, as stated, fails: over a catalogue of 600 tables, a page of 500
    makes a JSON text of more than 25000 characters; the response is cut
    inside the list of tables, and the fields that follow it (count, total,
    offset, has_more, next_offset) are not in it. *)
Lemma pagination_cut_off_a_long_page :
  ~ pagination_always_shown (tables_driver archive_tables) (str "public") 500 0.
Proof.
  intros H.
  specialize (H (mkQueryResult
                   [JObj [(str "total", JStr (decimal 600))]] [str "total"])
                (JObj [(str "total", JStr (decimal 600))]) [] 600%Z
                (mkQueryResult
                   (map (fun t => JObj [(str "table_name", JStr t)])
                      (firstn 500 archive_tables))
                   [str "table_name"])).
  destruct H as (_ & _ & _ & _ & H); try (vm_compute; reflexivity).
  vm_compute in H. discriminate (H eq_refl).
Qed.

(** C7, amended: with an allowed schema, when the count statement returns
    a first row whose [total] reads as the integer T and the page statement
    returns k rows (T, the offset O and O + k being integers a double holds
    exactly), [postgres_list_tables] makes these two calls and succeeds.
    The response is made from the object of schema, tables, count = k,
    total = T, offset = O, has_more = (T > O + k) and, exactly when
    T > O + k, next_offset = O + k: when the JSON text of this object has at
    most 25000 characters the response is that text, and otherwise it is
    its first 25000 characters followed by the notice.  Over a schema of
    five tables, limit 2 and offset 0 give the text of count 2, total 5,
    has_more true and next_offset 2. *)
Theorem list_tables_pagination :
  (forall db allowedSchemas schema limit offset log countResult row0 others T
          page,
     assertSchemaAllowed schema allowedSchemas = Ok tt ->
     pool_query db count_tables_sql [JStr schema] = inr countResult ->
     rows countResult = row0 :: others -> row0 <> JNull ->
     parseInt (toString_opt (get_prop (str "total") row0)) = Num T ->
     pool_query db list_tables_sql
       [JStr schema; JNum (Num limit); JNum (Num offset)] = inr page ->
     exact_double T -> exact_double offset ->
     exact_double (offset + Z.of_nat (length (rows page))) ->
     let k := Z.of_nat (length (rows page)) in
     let obj :=
       JObj ([(str "schema", JStr schema);
              (str "tables", JArr (rows page));
              (str "count", JNum (Num k));
              (str "total", JNum (Num T));
              (str "offset", JNum (Num offset));
              (str "has_more", JBool (T >? offset + k)%Z)]
             ++ (if (T >? offset + k)%Z
                 then [(str "next_offset", JNum (Num (offset + k)))]
                 else [])) in
     let run := postgres_list_tables db allowedSchemas schema limit offset in
     calls run log
     = log ++ [PoolQuery count_tables_sql [JStr schema];
               PoolQuery list_tables_sql
                 [JStr schema; JNum (Num limit); JNum (Num offset)]]
     /\ (fits obj -> outcome run log = Ok (whole obj))
     /\ (~ fits obj -> outcome run log = Ok (cut obj)))
  /\ outcome (postgres_list_tables
                (tables_driver [str "a"; str "b"; str "c"; str "d"; str "e"])
                [] (str "public") 2 0) []
     = Ok (whole
             (JObj [(str "schema", JStr (str "public"));
                    (str "tables",
                      JArr [JObj [(str "table_name", JStr (str "a"))];
                            JObj [(str "table_name", JStr (str "b"))]]);
                    (str "count", JNum (Num 2));
                    (str "total", JNum (Num 5));
                    (str "offset", JNum (Num 0));
                    (str "has_more", JBool true);
                    (str "next_offset", JNum (Num 2))])).
Proof.
  split; [|vm_compute; reflexivity].
  intros db allowedSchemas schema limit offset log countResult row0 others T
    page G Hc Hr Hn Ht Hp _ _ _ k obj run.
  pose proof (list_tool_page Tables db allowedSchemas schema limit offset log
                countResult row0 others T page G Hc Hr Hn Ht Hp) as E.
  cbn [list_tool count_sql page_sql items_key] in E.
  unfold calls, outcome, run. rewrite E. cbn [fst snd].
  split; [reflexivity|]. apply formatted_outcome. reflexivity.
Qed.

Lemma list_tables_pagination_witness :
  let db := tables_driver [str "t1"; str "t2"; str "t3"] in
  let obj :=
    JObj [(str "schema", JStr (str "public"));
          (str "tables", JArr [JObj [(str "table_name", JStr (str "t3"))]]);
          (str "count", JNum (Num 1));
          (str "total", JNum (Num 3));
          (str "offset", JNum (Num 2));
          (str "has_more", JBool false)] in
  assertSchemaAllowed (str "public") [str "public"] = Ok tt
  /\ exact_double 3 /\ exact_double 2 /\ exact_double (2 + 1)
  /\ fits obj
  /\ postgres_list_tables db [str "public"] (str "public") 2 2 [] =
     ([PoolQuery count_tables_sql [JStr (str "public")];
       PoolQuery list_tables_sql
         [JStr (str "public"); JNum (Num 2); JNum (Num 2)]],
      Ok (whole obj)).
Proof.
  intros db obj.
  assert (exact_double 3) as E3 by (vm_compute; discriminate).
  assert (exact_double 2) as E2 by (vm_compute; discriminate).
  assert (exact_double (2 + 1)) as E21 by (vm_compute; discriminate).
  assert (fits obj) as F by (vm_compute; discriminate).
  split; [reflexivity|]. split; [exact E3|]. split; [exact E2|].
  split; [exact E21|]. split; [exact F|].
  destruct (proj1 list_tables_pagination db [str "public"] (str "public")
              2%Z 2%Z []
              (mkQueryResult [JObj [(str "total", JStr (str "3"))]]
                 [str "total"])
              (JObj [(str "total", JStr (str "3"))]) [] 3%Z
              (mkQueryResult
                 [JObj [(str "table_name", JStr (str "t3"))]]
                 [str "table_name"])
              eq_refl eq_refl eq_refl ltac:(discriminate) eq_refl eq_refl
              E3 E2 E21)
    as (Hc & Hw & _).
  specialize (Hw F). unfold calls in Hc. unfold outcome in Hw.
  destruct (postgres_list_tables db [str "public"] (str "public") 2 2 [])
    as [l o]. cbn [fst snd] in Hc, Hw. now rewrite Hc, Hw.
Defined.

(** X8: the three list tools page alike.  With an allowed schema, when the
    count statement returns a first row whose [total] is the decimal text of
    T and the page statement returns k rows (T, the offset O and O + k being
    integers a double holds exactly), the response is made from the object
    of schema, the rows under the tool's own key ([tables], [functions] or
    [triggers]), count = k, total = T, offset = O, has_more = (T > O + k)
    and, exactly when has_more is true, next_offset = O + k: its whole JSON
    text when that has at most 25000 characters, and otherwise the first
    25000 characters of it followed by the notice. *)
Theorem list_tools_page t db allowedSchemas schema limit offset log
    countResult row0 others T page :
  assertSchemaAllowed schema allowedSchemas = Ok tt ->
  pool_query db (count_sql t) [JStr schema] = inr countResult ->
  rows countResult = row0 :: others ->
  get_prop (str "total") row0 = Some (JStr (decimal T)) ->
  pool_query db (page_sql t)
    [JStr schema; JNum (Num limit); JNum (Num offset)] = inr page ->
  exact_double T -> exact_double offset ->
  exact_double (offset + Z.of_nat (length (rows page))) ->
  let k := Z.of_nat (length (rows page)) in
  let obj :=
    JObj ([(str "schema", JStr schema);
           (items_key t, JArr (rows page));
           (str "count", JNum (Num k));
           (str "total", JNum (Num T));
           (str "offset", JNum (Num offset));
           (str "has_more", JBool (T >? offset + k)%Z)]
          ++ (if (T >? offset + k)%Z
              then [(str "next_offset", JNum (Num (offset + k)))]
              else [])) in
  let run := list_tool t db allowedSchemas schema limit offset in
  (fits obj -> outcome run log = Ok (whole obj))
  /\ (~ fits obj -> outcome run log = Ok (cut obj)).
Proof.
  intros G Hc Hr Ht Hp _ _ _ k obj run.
  assert (row0 <> JNull) as Hn by (intros ->; discriminate Ht).
  assert (parseInt (toString_opt (get_prop (str "total") row0)) = Num T) as Hv.
  { rewrite Ht. cbn [toString_opt toString]. apply parseInt_decimal. }
  unfold outcome, run.
  rewrite (list_tool_page t db allowedSchemas schema limit offset log
             countResult row0 others T page G Hc Hr Hn Hv Hp).
  cbn [snd]. apply formatted_outcome. reflexivity.
Qed.

Lemma list_tools_page_witness :
  let res := mkQueryResult
               [JObj [(str "total", JStr (str "7"));
                      (str "function_name", JStr (str "f"))]] [] in
  let db := constant_driver res in
  let obj :=
    JObj [(str "schema", JStr (str "public"));
          (str "functions",
            JArr [JObj [(str "total", JStr (str "7"));
                        (str "function_name", JStr (str "f"))]]);
          (str "count", JNum (Num 1));
          (str "total", JNum (Num 7));
          (str "offset", JNum (Num 3));
          (str "has_more", JBool true);
          (str "next_offset", JNum (Num 4))] in
  assertSchemaAllowed (str "public") [] = Ok tt
  /\ exact_double 7 /\ exact_double 3 /\ exact_double (3 + 1)
  /\ fits obj
  /\ outcome (postgres_list_functions db [] (str "public") 1 3) []
     = Ok (whole obj).
Proof.
  intros res db obj.
  assert (exact_double 7) as E7 by (vm_compute; discriminate).
  assert (exact_double 3) as E3 by (vm_compute; discriminate).
  assert (exact_double (3 + 1)) as E31 by (vm_compute; discriminate).
  assert (fits obj) as F by (vm_compute; discriminate).
  split; [reflexivity|]. split; [exact E7|]. split; [exact E3|].
  split; [exact E31|]. split; [exact F|].
  exact (proj1 (list_tools_page Functions db [] (str "public") 1%Z 3%Z []
                  res
                  (JObj [(str "total", JStr (str "7"));
                         (str "function_name", JStr (str "f"))]) [] 7%Z
                  res eq_refl eq_refl eq_refl eq_refl eq_refl E7 E3 E31) F).
Defined.

(** X9: the list tools read the count before they send the page
    statement.  With an allowed schema: when the count statement fails, the
    tool throws the driver's message and the page statement is never sent;
    when the count statement returns no row, or a first row that is
    [null], the tool fails on reading [rows[0].total], again before the
    page statement; when the first row is not [null] and the page statement
    fails, both have been sent and the driver's message is thrown. *)
Theorem list_tools_failures t db allowedSchemas schema limit offset log :
  assertSchemaAllowed schema allowedSchemas = Ok tt ->
  let count_call := PoolQuery (count_sql t) [JStr schema] in
  let page_call :=
    PoolQuery (page_sql t) [JStr schema; JNum (Num limit); JNum (Num offset)] in
  let run := list_tool t db allowedSchemas schema limit offset log in
  (forall msg,
     pool_query db (count_sql t) [JStr schema] = inl msg ->
     run = (log ++ [count_call], Throw (DriverError msg)))
  /\ (forall countResult,
        pool_query db (count_sql t) [JStr schema] = inr countResult ->
        rows countResult = [] ->
        exists e, run = (log ++ [count_call], Throw e) /\ kind e = RuntimeFault)
  /\ (forall countResult others,
        pool_query db (count_sql t) [JStr schema] = inr countResult ->
        rows countResult = JNull :: others ->
        exists e, run = (log ++ [count_call], Throw e) /\ kind e = RuntimeFault)
  /\ (forall countResult row0 others msg,
        pool_query db (count_sql t) [JStr schema] = inr countResult ->
        rows countResult = row0 :: others -> row0 <> JNull ->
        pool_query db (page_sql t)
          [JStr schema; JNum (Num limit); JNum (Num offset)] = inl msg ->
        run = (log ++ [count_call; page_call], Throw (DriverError msg))).
Proof.
  intros G count_call page_call run. unfold run.
  rewrite (list_tool_trace t db allowedSchemas schema limit offset log G).
  split; [|split; [|split]].
  - intros msg ->. reflexivity.
  - intros countResult -> ->. eexists. split; reflexivity.
  - intros countResult others -> ->. eexists. split; reflexivity.
  - intros countResult row0 others msg -> -> Hn ->.
    cbn [nth_error]. now rewrite (member_row _ _ Hn).
Qed.

Lemma list_tools_failures_witness :
  let db := constant_driver (mkQueryResult [JNull] []) in
  assertSchemaAllowed (str "public") [] = Ok tt
  /\ pool_query db count_tables_sql [JStr (str "public")]
     = inr (mkQueryResult [JNull] [])
  /\ exists e,
       postgres_list_tables db [] (str "public") 50 0 []
       = ([PoolQuery count_tables_sql [JStr (str "public")]], Throw e)
       /\ kind e = RuntimeFault.
Proof.
  intros db. split; [reflexivity|]. split; [reflexivity|].
  exact (proj1 (proj2 (proj2 (list_tools_failures Tables db [] (str "public")
                                50%Z 0%Z [] eq_refl)))
           (mkQueryResult [JNull] []) [] eq_refl eq_refl).
Defined.

(** X10: a total that is no number does not stop a list tool.  With an
    allowed schema, when the first row of the count is not [null] and
    [parseInt] of its [total] is NaN, the tool still sends the page
    statement and succeeds.  The response is made from the object of
    schema, the rows, count, total = NaN, offset, has_more = false, without
    next_offset, whatever the page: its whole JSON text, in which the total
    reads [null], when that has at most 25000 characters, and otherwise the
    first 25000 characters of it followed by the notice. *)
Theorem list_tools_total_not_a_number t db allowedSchemas schema limit offset
    log countResult row0 others page :
  assertSchemaAllowed schema allowedSchemas = Ok tt ->
  pool_query db (count_sql t) [JStr schema] = inr countResult ->
  rows countResult = row0 :: others -> row0 <> JNull ->
  parseInt (toString_opt (get_prop (str "total") row0)) = NaN ->
  pool_query db (page_sql t)
    [JStr schema; JNum (Num limit); JNum (Num offset)] = inr page ->
  exact_double offset ->
  let obj :=
    JObj [(str "schema", JStr schema);
          (items_key t, JArr (rows page));
          (str "count", JNum (Num (Z.of_nat (length (rows page)))));
          (str "total", JNum NaN);
          (str "offset", JNum (Num offset));
          (str "has_more", JBool false)] in
  let run := list_tool t db allowedSchemas schema limit offset in
  (fits obj -> outcome run log = Ok (whole obj))
  /\ (~ fits obj -> outcome run log = Ok (cut obj))
  /\ contains (JSON_stringify obj) (quote (str "total") ++ str ": null") = true.
Proof.
  intros G Hc Hr Hn Ht Hp _ obj run.
  assert (outcome run log = Ok (formatResult obj)) as E.
  { unfold outcome, run.
    rewrite (list_tool_trace t db allowedSchemas schema limit offset log G).
    rewrite Hc, Hr. cbn [nth_error]. rewrite (member_row _ _ Hn), Hp, Ht.
    reflexivity. }
  destruct (formatted_outcome obj _ E) as [W C].
  split; [exact W|]. split; [exact C|].
  apply (stringify_shows _ (str "total") (JNum NaN)).
  cbn [In]. tauto.
Qed.

Lemma list_tools_total_not_a_number_witness :
  let res := mkQueryResult [JObj [(str "table_name", JStr (str "t"))]] [] in
  let db := constant_driver res in
  let obj :=
    JObj [(str "schema", JStr (str "public"));
          (str "tables", JArr [JObj [(str "table_name", JStr (str "t"))]]);
          (str "count", JNum (Num 1));
          (str "total", JNum NaN);
          (str "offset", JNum (Num 0));
          (str "has_more", JBool false)] in
  assertSchemaAllowed (str "public") [] = Ok tt
  /\ parseInt (toString_opt
                 (get_prop (str "total")
                    (JObj [(str "table_name", JStr (str "t"))]))) = NaN
  /\ exact_double 0
  /\ fits obj
  /\ outcome (postgres_list_tables db [] (str "public") 50 0) []
     = Ok (whole obj).
Proof.
  intros res db obj.
  assert (exact_double 0) as E0 by (vm_compute; discriminate).
  assert (fits obj) as F by (vm_compute; discriminate).
  split; [reflexivity|]. split; [reflexivity|]. split; [exact E0|].
  split; [exact F|].
  exact (proj1 (list_tools_total_not_a_number Tables db [] (str "public")
                  50%Z 0%Z [] res
                  (JObj [(str "table_name", JStr (str "t"))]) [] res
                  eq_refl eq_refl eq_refl ltac:(discriminate) eq_refl eq_refl
                  E0) F).
Defined.

Lemma string_eqb_refl a : string_eqb a a = true.
Proof. now apply string_eqb_eq. Qed.

(** X11: over a catalogue that answers as [LIMIT] and [OFFSET] do, with a
    limit and an offset that are not negative (the number of tables and
    offset + limit being integers a double holds exactly),
    [postgres_list_tables] makes its response from the object of the tables
    from the offset on, at most [limit] of them, their count, the number of
    tables as total, the offset, has_more, which is true exactly when
    tables remain after the page, and then next_offset, the index of the
    first of those: its whole JSON text when that has at most 25000
    characters, and otherwise the first 25000 characters of it followed by
    the notice. *)
Theorem list_tables_over_catalogue tables allowedSchemas schema limit offset
    log :
  assertSchemaAllowed schema allowedSchemas = Ok tt ->
  (0 <= limit)%Z -> (0 <= offset)%Z ->
  exact_double (offset + limit) -> exact_double (Z.of_nat (length tables)) ->
  let page := firstn (Z.to_nat limit) (skipn (Z.to_nat offset) tables) in
  let rest := skipn (Z.to_nat offset + length page) tables in
  let T := Z.of_nat (length tables) in
  let k := Z.of_nat (length page) in
  let obj :=
    JObj ([(str "schema", JStr schema);
           (str "tables", JArr (map table_row page));
           (str "count", JNum (Num k));
           (str "total", JNum (Num T));
           (str "offset", JNum (Num offset));
           (str "has_more", JBool (T >? offset + k)%Z)]
          ++ (if (T >? offset + k)%Z
              then [(str "next_offset", JNum (Num (offset + k)))]
              else [])) in
  let run :=
    postgres_list_tables (tables_driver tables) allowedSchemas schema limit
      offset in
  ((T >? offset + k)%Z = true <-> rest <> [])
  /\ (fits obj -> outcome run log = Ok (whole obj))
  /\ (~ fits obj -> outcome run log = Ok (cut obj)).
Proof.
  intros G Hl Ho _ _ page rest T k obj run. split.
  - assert (length rest = length tables - (Z.to_nat offset + length page))
      as Lr by (unfold rest; apply length_skipn).
    unfold T, k. rewrite Z.gtb_ltb, Z.ltb_lt. split.
    + intros H N. rewrite N in Lr. simpl in Lr. lia.
    + intros H. destruct rest; [congruence|]. simpl in Lr. lia.
  - apply formatted_outcome. unfold outcome, run.
    pose proof (list_tool_page Tables (tables_driver tables) allowedSchemas
                  schema limit offset log
                  (mkQueryResult [JObj [(str "total", JStr (decimal T))]]
                     [str "total"])
                  (JObj [(str "total", JStr (decimal T))]) [] T
                  (mkQueryResult (map table_row page) [str "table_name"]) G)
      as E.
    cbn [list_tool count_sql page_sql items_key rows] in E.
    rewrite E; clear E.
    + cbn [snd]. unfold page_report. rewrite length_map. reflexivity.
    + unfold tables_driver. cbn [pool_query].
      now rewrite string_eqb_refl.
    + reflexivity.
    + discriminate.
    + cbn [get_prop assoc]. rewrite string_eqb_refl.
      cbn [toString_opt toString]. apply parseInt_decimal.
    + unfold tables_driver. cbn [pool_query].
      assert (string_eqb list_tables_sql count_tables_sql = false) as ->
        by (vm_compute; reflexivity).
      reflexivity.
Qed.

Lemma list_tables_over_catalogue_witness :
  let obj :=
    JObj [(str "schema", JStr (str "public"));
          (str "tables", JArr [table_row (str "e")]);
          (str "count", JNum (Num 1));
          (str "total", JNum (Num 5));
          (str "offset", JNum (Num 4));
          (str "has_more", JBool false)] in
  assertSchemaAllowed (str "public") [] = Ok tt
  /\ (0 <= 2)%Z /\ (0 <= 4)%Z /\ exact_double (4 + 2) /\ exact_double 5
  /\ fits obj
  /\ outcome (postgres_list_tables
                (tables_driver [str "a"; str "b"; str "c"; str "d"; str "e"])
                [] (str "public") 2 4) []
     = Ok (whole obj).
Proof.
  intros obj.
  assert (0 <= 2)%Z as H2 by lia. assert (0 <= 4)%Z as H4 by lia.
  assert (exact_double (4 + 2)) as E6 by (vm_compute; discriminate).
  assert (exact_double 5) as E5 by (vm_compute; discriminate).
  assert (fits obj) as F by (vm_compute; discriminate).
  split; [reflexivity|]. split; [exact H2|]. split; [exact H4|].
  split; [exact E6|]. split; [exact E5|]. split; [exact F|].
  exact (proj1 (proj2 (list_tables_over_catalogue
                         [str "a"; str "b"; str "c"; str "d"; str "e"] []
                         (str "public") 2 4 [] eq_refl H2 H4 E6 E5)) F).
Defined.

(** ** [postgres_describe_table] *)

(** X12: with an allowed schema, [postgres_describe_table] always sends
    its three statements, in the order columns, constraints, indexes, even
    when one of them fails; it succeeds exactly when all three succeed.
    Then the response is made from the object of schema, table and the
    three lists of rows: its whole JSON text when that has at most 25000
    characters, and otherwise the first 25000 characters of it followed by
    the notice.  When some fail it throws the message of one of the
    failures and gives no partial result. *)
Theorem describe_table_all_or_nothing db allowedSchemas race schema table log :
  assertSchemaAllowed schema allowedSchemas = Ok tt ->
  (forall l, l <> [] -> In (race l) l) ->
  let params := [JStr schema; JStr table] in
  let columns := pool_query db describe_columns_sql params in
  let constraints := pool_query db describe_constraints_sql params in
  let indexes := pool_query db describe_indexes_sql params in
  let run := postgres_describe_table db allowedSchemas race schema table in
  calls run log
  = log ++ [PoolQuery describe_columns_sql params;
            PoolQuery describe_constraints_sql params;
            PoolQuery describe_indexes_sql params]
  /\ ((exists r, outcome run log = Ok r)
      <-> rejections [columns; constraints; indexes] = [])
  /\ (forall c k i,
        columns = inr c -> constraints = inr k -> indexes = inr i ->
        let obj :=
          JObj [(str "schema", JStr schema);
                (str "table", JStr table);
                (str "columns", JArr (rows c));
                (str "constraints", JArr (rows k));
                (str "indexes", JArr (rows i))] in
        (fits obj -> outcome run log = Ok (whole obj))
        /\ (~ fits obj -> outcome run log = Ok (cut obj)))
  /\ (rejections [columns; constraints; indexes] <> [] ->
      exists msg, outcome run log = Throw (DriverError msg)
                  /\ In msg (rejections [columns; constraints; indexes])).
Proof.
  intros G R params columns constraints indexes run.
  unfold run, calls, outcome, postgres_describe_table.
  rewrite (bind_ok _ _ tt log G).
  fold params. fold columns. fold constraints. fold indexes.
  destruct columns as [m1|c], constraints as [m2|k], indexes as [m3|i];
    cbn [fst snd rejections];
    (split; [reflexivity|]);
    first [ split; [split; [intros (r & Hr); discriminate Hr|discriminate]|]
          | split; [split; [reflexivity|eauto]|] ];
    (split; [intros ? ? ? H1 H2 H3; try discriminate H1; try discriminate H2;
             try discriminate H3;
             inversion H1; inversion H2; inversion H3;
             cbv zeta; apply formatted_outcome; reflexivity|]);
    intros Hne; try congruence;
    eexists; (split; [reflexivity|]); apply R; discriminate.
Qed.

Lemma describe_table_all_or_nothing_witness :
  let db := mkDriver
              (fun sql _ =>
                 if string_eqb sql describe_constraints_sql
                 then inl (str "timeout")
                 else inr (mkQueryResult [] []))
              (inr tt) (fun _ => inr (mkQueryResult [] [])) in
  let race := fun l : list jsstring => hd [] l in
  let run := postgres_describe_table db [] race (str "public") (str "users") in
  assertSchemaAllowed (str "public") [] = Ok tt
  /\ (forall l, l <> [] -> In (race l) l)
  /\ calls run [] =
     [PoolQuery describe_columns_sql [JStr (str "public"); JStr (str "users")];
      PoolQuery describe_constraints_sql
        [JStr (str "public"); JStr (str "users")];
      PoolQuery describe_indexes_sql [JStr (str "public"); JStr (str "users")]]
  /\ exists msg, outcome run [] = Throw (DriverError msg)
                 /\ In msg [str "timeout"].
Proof.
  intros db race run.
  assert (forall l, l <> [] -> In (race l) l) as R.
  { intros [|x l] H; [congruence|now left]. }
  split; [reflexivity|]. split; [exact R|].
  destruct (describe_table_all_or_nothing db [] race (str "public")
              (str "users") [] eq_refl R) as (Hc & _ & _ & Hf).
  split; [exact Hc|].
  apply Hf. vm_compute. discriminate.
Defined.

(** ** [postgres_get_function_definition] *)

(** C9, as stated, fails on the success: for a function whose definition
    has 25000 characters and more, the lookup returns the row and the
    handler succeeds, but the response is cut inside the definition and
    does not hold it. *)
Lemma long_definition_not_returned :
  ~ definition_always_returned
      (constant_driver
         (mkQueryResult
            [JObj [(str "function_name", JStr (str "report"));
                   (str "definition", JStr long_definition);
                   (str "description", JNull)]] []))
      (str "public") (str "report").
Proof.
  intros H.
  specialize (H _ _ _ long_definition eq_refl eq_refl eq_refl).
  vm_compute in H. discriminate H.
Qed.

(** C9, amended: with an allowed schema, [postgres_get_function_definition]
    ends with the NotFound error, which names the function and the schema,
    exactly when the lookup returns no row.  When it returns rows the
    handler succeeds, and never with an empty response: the response is
    made from the first row, and is its whole JSON text, which holds the
    definition of the row, when that text has at most 25000 characters, and
    otherwise the first 25000 characters of it followed by the notice. *)
Theorem function_definition_not_found db allowedSchemas schema function_name
    log :
  assertSchemaAllowed schema allowedSchemas = Ok tt ->
  let lookup :=
    pool_query db function_definition_sql [JStr schema; JStr function_name] in
  let end_ :=
    outcome (postgres_get_function_definition db allowedSchemas schema
               function_name) log in
  ((exists e, end_ = Throw e /\ kind e = NotFound)
   <-> exists res, lookup = inr res /\ rows res = [])
  /\ (forall res, lookup = inr res -> rows res = [] ->
      end_ = Throw (FunctionNotFound function_name schema)
      /\ contains (message (FunctionNotFound function_name schema))
           function_name = true
      /\ contains (message (FunctionNotFound function_name schema))
           schema = true)
  /\ (forall res row0 others, lookup = inr res -> rows res = row0 :: others ->
      (fits row0 -> end_ = Ok (whole row0))
      /\ (~ fits row0 -> end_ = Ok (cut row0))
      /\ (exists r, end_ = Ok r /\ response_text r <> [])
      /\ (forall def,
            fits row0 -> get_prop (str "definition") row0 = Some (JStr def) ->
            shown_in end_ (str "definition") (quote def) = true)).
Proof.
  intros Hgate lookup end_.
  assert (end_ =
          match lookup with
          | inl msg => Throw (DriverError msg)
          | inr res =>
              match rows res with
              | [] => Throw (FunctionNotFound function_name schema)
              | row0 :: _ => Ok (formatResult row0)
              end
          end) as E.
  { unfold end_, outcome, postgres_get_function_definition.
    rewrite (bind_ok _ _ tt log Hgate).
    cbv [bind query emit of_driver throw ret]. fold lookup.
    destruct lookup as [msg|res]; [reflexivity|].
    destruct (rows res); reflexivity. }
  rewrite E. clear E. split; [|split].
  - split.
    + intros (e & He & Hk). destruct lookup as [msg|res].
      * inversion He; subst e. discriminate Hk.
      * exists res. split; trivial.
        destruct (rows res); trivial. discriminate He.
    + intros (res & -> & ->). eexists. split; reflexivity.
  - intros res -> ->. split; [reflexivity|]. split.
    + cbn [message].
      apply (contains_middle (str "Function '") function_name).
    + cbn [message].
      replace (str "Function '" ++ function_name
                 ++ str "' not found in schema '" ++ schema ++ str "'")
        with ((str "Function '" ++ function_name
                 ++ str "' not found in schema '") ++ schema ++ str "'")
        by now rewrite <- !app_assoc.
      apply contains_middle.
  - intros res row0 others -> ->.
    destruct (formatResult_cases row0) as [W C].
    split; [intros F; now rewrite (W F)|].
    split; [intros F; now rewrite (C F)|]. split.
    + eexists. split; [reflexivity|].
      unfold formatResult.
      destruct (str_length (JSON_stringify row0) <=? CHARACTER_LIMIT)%Z;
        cbn [response_text content text].
      * apply serialize_nonempty.
      * intros N. apply app_eq_nil in N as [_ N]. discriminate N.
    + intros def F D. rewrite (W F). cbn [shown_in whole response_text content text].
      destruct row0 as [| | | | |props]; try discriminate D.
      apply (stringify_shows props (str "definition") (JStr def)).
      now apply assoc_In.
Qed.

Lemma function_definition_not_found_witness :
  let row :=
    JObj [(str "function_name", JStr (str "refresh_totals"));
          (str "definition", JStr (str "CREATE FUNCTION refresh_totals()"))] in
  let db := constant_driver
              (mkQueryResult
                 [row; JObj [(str "function_name", JStr (str "other"))]] []) in
  assertSchemaAllowed (str "public") [str "public"] = Ok tt
  /\ outcome (postgres_get_function_definition
                (constant_driver (mkQueryResult [] [])) [str "public"]
                (str "public") (str "refresh_totals")) [] =
     Throw (FunctionNotFound (str "refresh_totals") (str "public"))
  /\ fits row
  /\ outcome (postgres_get_function_definition db [str "public"]
                (str "public") (str "refresh_totals")) [] = Ok (whole row)
  /\ shown_in
       (outcome (postgres_get_function_definition db [str "public"]
                   (str "public") (str "refresh_totals")) [])
       (str "definition") (quote (str "CREATE FUNCTION refresh_totals()"))
     = true.
Proof.
  intros row db.
  assert (assertSchemaAllowed (str "public") [str "public"] = Ok tt) as G
    by (vm_compute; reflexivity).
  assert (fits row) as F by (vm_compute; discriminate).
  split; [exact G|]. split.
  - exact (proj1 (proj1 (proj2 (function_definition_not_found
             (constant_driver (mkQueryResult [] [])) [str "public"]
             (str "public") (str "refresh_totals") [] G))
             (mkQueryResult [] []) eq_refl eq_refl)).
  - split; [exact F|].
    destruct (proj2 (proj2 (function_definition_not_found db [str "public"]
                              (str "public") (str "refresh_totals") [] G))
                _ _ _ eq_refl eq_refl) as (W & _ & _ & D).
    split; [exact (W F)|].
    exact (D (str "CREATE FUNCTION refresh_totals()") F eq_refl).
Defined.

(** ** [postgres_get_trigger_definition] *)

(** X13: with an allowed schema, [postgres_get_trigger_definition] makes
    one call, the lookup with the schema and the trigger name as bound
    parameters; it ends with the NotFound error that names the trigger
    and the schema exactly when the lookup returns no row, with the
    driver's error when the lookup fails, and with the first row,
    formatted, when there is one. *)
Theorem trigger_definition_not_found db allowedSchemas schema trigger_name
    log :
  assertSchemaAllowed schema allowedSchemas = Ok tt ->
  let lookup :=
    pool_query db trigger_definition_sql [JStr schema; JStr trigger_name] in
  let run :=
    postgres_get_trigger_definition db allowedSchemas schema trigger_name log in
  fst run
  = log ++ [PoolQuery trigger_definition_sql [JStr schema; JStr trigger_name]]
  /\ ((exists e, snd run = inl e /\ object_kind e = NotFound)
      <-> exists res, lookup = inr res /\ rows res = [])
  /\ (forall res, lookup = inr res -> rows res = [] ->
      snd run = inl (TriggerNotFound trigger_name schema)
      /\ contains (object_message (TriggerNotFound trigger_name schema))
           trigger_name = true
      /\ contains (object_message (TriggerNotFound trigger_name schema))
           schema = true)
  /\ (forall msg, lookup = inl msg -> snd run = inl (Raised (DriverError msg)))
  /\ (forall res row0 others, lookup = inr res -> rows res = row0 :: others ->
      snd run = inr (formatResult row0)).
Proof.
  intros G lookup run. unfold run, postgres_get_trigger_definition.
  rewrite G. cbv [query emit of_driver]. fold lookup.
  destruct lookup as [msg|res]; cbn [fst snd].
  - split; [reflexivity|]. split; [|split; [|split]].
    + split.
      * intros (e & He & Hk). inversion He; subst e. discriminate Hk.
      * intros (res & H & _). discriminate H.
    + intros res H. discriminate H.
    + intros msg' H. now inversion H.
    + intros res row0 others H. discriminate H.
  - destruct (rows res) as [|row0 others] eqn:Rw; cbn [fst snd].
    + split; [reflexivity|]. split; [|split; [|split]].
      * split; [eauto|]. intros _. eexists. split; reflexivity.
      * intros res' H _. split; [reflexivity|]. split.
        -- cbn [object_message].
           apply (contains_middle (str "Trigger '") trigger_name).
        -- cbn [object_message].
           replace (str "Trigger '" ++ trigger_name
                      ++ str "' not found in schema '" ++ schema ++ str "'")
             with ((str "Trigger '" ++ trigger_name
                      ++ str "' not found in schema '") ++ schema ++ str "'")
             by now rewrite <- !app_assoc.
           apply contains_middle.
      * intros msg H. discriminate H.
      * intros res' r o H H'. inversion H; subst res'. congruence.
    + split; [reflexivity|]. split; [|split; [|split]].
      * split.
        -- intros (e & He & _). discriminate He.
        -- intros (res' & H & H'). inversion H; subst res'. congruence.
      * intros res' H H'. inversion H; subst res'. congruence.
      * intros msg H. discriminate H.
      * intros res' r o H H'. inversion H; subst res'.
        rewrite Rw in H'. now inversion H'.
Qed.

Lemma trigger_definition_not_found_witness :
  assertSchemaAllowed (str "public") [str "public"] = Ok tt
  /\ snd (postgres_get_trigger_definition
            (constant_driver (mkQueryResult [] [])) [str "public"]
            (str "public") (str "audit_row") []) =
     inl (TriggerNotFound (str "audit_row") (str "public")).
Proof.
  assert (assertSchemaAllowed (str "public") [str "public"] = Ok tt) as G
    by (vm_compute; reflexivity).
  split; [exact G|].
  exact (proj1 (proj1 (proj2 (proj2 (trigger_definition_not_found
           (constant_driver (mkQueryResult [] [])) [str "public"]
           (str "public") (str "audit_row") [] G)))
           (mkQueryResult [] []) eq_refl eq_refl)).
Defined.

(** ** [postgres_list_schemas] *)

Lemma filtered_names allowed key rows :
  map array_item
    (filter (fun s => includes_value allowed s) (map (get_prop key) rows))
  = map JStr (filter (includes allowed) (text_values key rows)).
Proof.
  unfold text_values.
  induction rows as [|row rows IH]; cbn [map filter flat_map]; trivial.
  destruct (get_prop key row) as [[| | |s| |]|]; cbn [includes_value app];
    trivial.
  cbn [filter]. destruct (includes allowed s); cbn [map array_item];
    now rewrite IH.
Qed.

Lemma map_member_rows key rows :
  ~ In JNull rows ->
  map_result (fun row => member key (Some row)) rows
  = Ok (map (get_prop key) rows).
Proof.
  induction rows as [|row rows IH]; intros H; cbn [map_result map]; trivial.
  rewrite member_row by (intros ->; apply H; now left).
  rewrite IH; trivial. intros N. apply H. now right.
Qed.

Lemma map_member_null key rows :
  In JNull rows ->
  exists e, map_result (fun row => member key (Some row)) rows = Throw e
            /\ kind e = RuntimeFault.
Proof.
  induction rows as [|row rows IH]; intros H; [destruct H|].
  cbn [map_result].
  destruct (member key (Some row)) as [v|e] eqn:M.
  - destruct H as [->|H]; [discriminate M|].
    destruct (IH H) as (e & -> & K). eauto.
  - exists e. split; trivial.
    destruct row; try discriminate M. now inversion M.
Qed.

Lemma list_schemas_trace db allowedSchemas log :
  postgres_list_schemas db allowedSchemas log =
  (log ++ [PoolQuery list_schemas_sql []],
   match pool_query db list_schemas_sql [] with
   | inl msg => Throw (DriverError msg)
   | inr res =>
       match map_result (fun row => member (str "schema_name") (Some row))
               (rows res) with
       | Throw e => Throw e
       | Ok schemas =>
           let filtered :=
             if 0 <? length allowedSchemas
             then filter (fun s => includes_value allowedSchemas s) schemas
             else schemas in
           Ok (formatResult
                 (JObj [(str "schemas", JArr (map array_item filtered));
                        (str "total", JNum (Num (Z.of_nat (length filtered))));
                        (str "configured_schemas",
                          if 0 <? length allowedSchemas
                          then JArr (map JStr allowedSchemas)
                          else JStr (str "all"))]))
       end
   end).
Proof.
  unfold postgres_list_schemas. cbv [bind query emit of_driver lift ret].
  destruct (pool_query db list_schemas_sql []) as [msg|res]; [reflexivity|].
  destruct (map_result _ (rows res)); reflexivity.
Qed.

(** X14: [postgres_list_schemas] is not gated: whatever the driver
    answers, it sends its one statement.  A failure of the driver is thrown
    with its message, and a row that is [null] makes the handler fail on
    reading its [schema_name].  Otherwise, with a non-empty allowed list,
    the response is made from the object of the returned names that the
    list holds, in the order returned (so a name is among them exactly when
    it was returned and passes the schema gate), their number as total and
    the configured list; with an empty list it is made from the object of
    the [schema_name] of every row, their number, and [all] as the
    configuration.  The response is the whole JSON text of the object when
    that has at most 25000 characters, and otherwise the first 25000
    characters of it followed by the notice. *)
Theorem list_schemas_filtered db allowedSchemas log :
  let run := postgres_list_schemas db allowedSchemas in
  calls run log = log ++ [PoolQuery list_schemas_sql []]
  /\ (forall msg,
        pool_query db list_schemas_sql [] = inl msg ->
        outcome run log = Throw (DriverError msg))
  /\ (forall res,
        pool_query db list_schemas_sql [] = inr res -> In JNull (rows res) ->
        exists e, outcome run log = Throw e /\ kind e = RuntimeFault)
  /\ (forall res,
        pool_query db list_schemas_sql [] = inr res -> ~ In JNull (rows res) ->
        let names := text_values (str "schema_name") (rows res) in
        let shown := filter (includes allowedSchemas) names in
        (allowedSchemas <> [] ->
         let obj :=
           JObj [(str "schemas", JArr (map JStr shown));
                 (str "total", JNum (Num (Z.of_nat (length shown))));
                 (str "configured_schemas", JArr (map JStr allowedSchemas))] in
         (fits obj -> outcome run log = Ok (whole obj))
         /\ (~ fits obj -> outcome run log = Ok (cut obj))
         /\ forall s,
              In s shown
              <-> In s names /\ assertSchemaAllowed s allowedSchemas = Ok tt)
        /\ (allowedSchemas = [] ->
            let obj :=
              JObj [(str "schemas",
                      JArr (map array_item
                              (map (get_prop (str "schema_name")) (rows res))));
                    (str "total", JNum (Num (Z.of_nat (length (rows res)))));
                    (str "configured_schemas", JStr (str "all"))] in
            (fits obj -> outcome run log = Ok (whole obj))
            /\ (~ fits obj -> outcome run log = Ok (cut obj)))).
Proof.
  intros run. unfold calls, outcome, run.
  rewrite list_schemas_trace. cbn [fst snd].
  split; [reflexivity|]. split; [|split].
  - intros msg ->. reflexivity.
  - intros res -> N.
    destruct (map_member_null (str "schema_name") (rows res) N) as (e & -> & K).
    eauto.
  - intros res Hq N. rewrite Hq.
    rewrite (map_member_rows (str "schema_name") (rows res) N). split.
    + intros Hne. destruct allowedSchemas as [|a l]; [congruence|].
      cbn [length Nat.ltb Nat.leb].
      pose proof (f_equal (@length Json)
                    (filtered_names (a :: l) (str "schema_name") (rows res)))
        as L.
      rewrite !length_map in L. rewrite L, filtered_names.
      match goal with
      | |- (fits ?o -> _) /\ _ =>
          destruct (formatted_outcome o (Ok (formatResult o)) eq_refl)
            as [W C]
      end.
      split; [exact W|]. split; [exact C|].
      intros s.
      rewrite filter_In, includes_In, assert_allowed_iff.
      split; [tauto|]. intros [H1 [H2|H2]]; [discriminate H2|tauto].
    + intros E. subst allowedSchemas. cbn [length Nat.ltb Nat.leb].
      rewrite length_map. apply formatted_outcome. reflexivity.
Qed.

Lemma list_schemas_filtered_witness :
  let res := mkQueryResult
               [JObj [(str "schema_name", JStr (str "audit"))];
                JObj [(str "schema_name", JStr (str "public"))];
                JObj [(str "schema_name", JStr (str "sales"))]] [] in
  let obj :=
    JObj [(str "schemas", JArr [JStr (str "public"); JStr (str "sales")]);
          (str "total", JNum (Num 2));
          (str "configured_schemas",
            JArr [JStr (str "sales"); JStr (str "public")])] in
  pool_query (constant_driver res) list_schemas_sql [] = inr res
  /\ ~ In JNull (rows res)
  /\ [str "sales"; str "public"] <> []
  /\ fits obj
  /\ outcome (postgres_list_schemas (constant_driver res)
                [str "sales"; str "public"]) []
     = Ok (whole obj).
Proof.
  intros res obj.
  assert ([str "sales"; str "public"] <> []) as Hne by discriminate.
  assert (~ In JNull (rows res)) as N.
  { cbn [rows res In]. intros [H|[H|[H|[]]]]; discriminate H. }
  assert (fits obj) as F by (vm_compute; discriminate).
  split; [reflexivity|]. split; [exact N|]. split; [exact Hne|].
  split; [exact F|].
  exact (proj1 (proj1 (proj2 (proj2 (proj2
           (list_schemas_filtered (constant_driver res)
              [str "sales"; str "public"] [])))
           res eq_refl N) Hne) F).
Defined.

(** ** The configuration of [pool.ts] *)

Lemma split_on_nonempty sep s : split_on sep s <> [].
Proof.
  destruct s as [|c s]; cbn [split_on]; [discriminate|].
  destruct (Ascii.eqb c sep); [discriminate|].
  destruct (split_on sep s); discriminate.
Qed.

Lemma split_on_plain sep p : ~ In sep p -> split_on sep p = [p].
Proof.
  induction p as [|c p IH]; intros H; cbn [split_on]; trivial.
  destruct (Ascii.eqb_spec c sep) as [->|_].
  - exfalso. apply H. now left.
  - rewrite IH; trivial. intros Hin. apply H. now right.
Qed.

Lemma split_on_app sep p rest :
  ~ In sep p -> split_on sep (p ++ sep :: rest) = p :: split_on sep rest.
Proof.
  induction p as [|c p IH]; intros H; cbn [app split_on].
  - now rewrite Ascii.eqb_refl.
  - destruct (Ascii.eqb_spec c sep) as [->|_].
    + exfalso. apply H. now left.
    + rewrite IH; trivial. intros Hin. apply H. now right.
Qed.

Lemma split_on_join sep names :
  names <> [] -> (forall n, In n names -> ~ In sep n) ->
  split_on sep (join [sep] names) = names.
Proof.
  induction names as [|p names IH]; intros Hne Hp; [congruence|].
  destruct names as [|q names].
  - cbn [join]. apply split_on_plain, Hp. now left.
  - change (join [sep] (p :: q :: names))
      with (p ++ [sep] ++ join [sep] (q :: names)).
    cbn [app]. rewrite split_on_app by (apply Hp; now left).
    f_equal. apply IH; [discriminate|].
    intros n Hn. apply Hp. now right.
Qed.

Lemma split_on_chars sep s :
  forall e, In e (split_on sep s) -> forall x, In x e -> In x s /\ x <> sep.
Proof.
  induction s as [|c s IH]; cbn [split_on]; intros e He x Hx.
  - destruct He as [<-|[]]. destruct Hx.
  - destruct (Ascii.eqb_spec c sep) as [->|Hc].
    + destruct He as [<-|He]; [destruct Hx|].
      destruct (IH e He x Hx). split; [now right|assumption].
    + destruct (split_on sep s) as [|p ps] eqn:E.
      * destruct He as [<-|[]]. destruct Hx as [<-|[]]. split; [now left|exact Hc].
      * destruct He as [<-|He].
        -- destruct Hx as [<-|Hx]; [split; [now left|exact Hc]|].
           destruct (IH p (or_introl eq_refl) x Hx). split; [now right|assumption].
        -- destruct (IH e (or_intror He) x Hx). split; [now right|assumption].
Qed.

Lemma trimStart_blank s : forallb isWhiteSpace s = true -> trimStart s = [].
Proof.
  induction s as [|c s IH]; cbn [forallb trimStart]; trivial.
  intros H. apply andb_true_iff in H as [-> H]. now apply IH.
Qed.

Lemma trim_blank s : forallb isWhiteSpace s = true -> trim s = [].
Proof. intros H. unfold trim. now rewrite (trimStart_blank s H). Qed.

(** X15: [DB_SCHEMAS] reads back.  For names without a comma and without
    white space at their ends, joined by commas into a text that is not
    empty, the allowed list of [pool.ts] is the list of these names. *)
Theorem allowed_schemas_read_back names :
  Forall plain_name names -> join (str ",") names <> [] ->
  pool_allowedSchemas (Some (join (str ",") names)) = names.
Proof.
  intros Hp Hj. unfold pool_allowedSchemas.
  assert (names <> []) as Hne by (intros ->; now apply Hj).
  rewrite Forall_forall in Hp.
  assert (map trim (split_on ","%char (join (str ",") names)) = names) as E.
  { change (str ",") with [","%char]. rewrite split_on_join; trivial.
    - clear Hj Hne. induction names as [|n names IH]; trivial.
      cbn [map]. rewrite (proj2 (Hp n (or_introl eq_refl))). f_equal.
      apply IH. intros x Hx. apply Hp. now right.
    - intros n Hn. apply (Hp n Hn). }
  destruct (join (str ",") names) eqn:J; [congruence|exact E].
Qed.

Lemma allowed_schemas_read_back_witness :
  Forall plain_name [str "public"; str "sales"; str "audit log"]
  /\ join (str ",") [str "public"; str "sales"; str "audit log"] <> []
  /\ pool_allowedSchemas (Some (str "public,sales,audit log"))
     = [str "public"; str "sales"; str "audit log"].
Proof.
  assert (Forall plain_name [str "public"; str "sales"; str "audit log"]) as P.
  { repeat constructor; try (vm_compute; reflexivity);
      intros H; simpl in H; intuition discriminate. }
  assert (join (str ",") [str "public"; str "sales"; str "audit log"] <> [])
    as J by (vm_compute; discriminate).
  split; [exact P|]. split; [exact J|].
  exact (allowed_schemas_read_back _ P J).
Defined.

(** X16: a [DB_SCHEMAS] that is set to a non-empty text never gives the
    open policy.  The allowed list is then not empty, its entries carry no
    white space at their ends and no comma, and a schema passes the gate
    exactly when it is one of them; when the text holds only white space
    and commas, every entry is empty and no schema with a name passes.  An
    absent or empty [DB_SCHEMAS] gives the empty list, under which every
    schema passes. *)
Theorem configured_policy_is_closed c s :
  let allowed := pool_allowedSchemas (Some (c :: s)) in
  allowed <> []
  /\ (forall e, In e allowed -> trim e = e /\ ~ In ","%char e)
  /\ (forall S, assertSchemaAllowed S allowed = Ok tt <-> In S allowed)
  /\ (forallb blank_or_comma (c :: s) = true ->
      forall S, S <> [] ->
        assertSchemaAllowed S allowed = Throw (SchemaNotAllowed S))
  /\ (forall S,
        assertSchemaAllowed S (pool_allowedSchemas None) = Ok tt
        /\ assertSchemaAllowed S (pool_allowedSchemas (Some [])) = Ok tt).
Proof.
  intros allowed. unfold allowed, pool_allowedSchemas.
  assert (map trim (split_on ","%char (c :: s)) <> []) as Hne.
  { pose proof (split_on_nonempty ","%char (c :: s)) as H.
    destruct (split_on ","%char (c :: s)); [congruence|discriminate]. }
  split; [exact Hne|]. split; [|split; [|split]].
  - intros e He. apply in_map_iff in He as (e0 & <- & He0).
    split; [apply trim_idempotent|].
    intros Hin.
    destruct (trimEnd_split (trimStart e0)) as (w1 & E1 & _).
    destruct (trimStart_split e0) as (w0 & E0 & _).
    assert (In ","%char e0) as Hin0.
    { rewrite E0. apply in_or_app. right. rewrite E1.
      apply in_or_app. now left. }
    destruct (split_on_chars _ _ e0 He0 _ Hin0) as [_ H]. congruence.
  - intros S. rewrite assert_allowed_iff. tauto.
  - intros Hb S HS. apply assert_denied; trivial.
    intros Hin. apply in_map_iff in Hin as (e0 & E & He0).
    assert (forallb isWhiteSpace e0 = true) as Hw.
    { apply forallb_forall. intros x Hx.
      destruct (split_on_chars _ _ e0 He0 x Hx) as [Hx' Hn].
      rewrite forallb_forall in Hb. specialize (Hb x Hx').
      unfold blank_or_comma in Hb. apply orb_true_iff in Hb as [Hb|Hb];
        trivial.
      apply Ascii.eqb_eq in Hb. congruence. }
    rewrite (trim_blank e0 Hw) in E. congruence.
  - intros S. split; reflexivity.
Qed.

Lemma configured_policy_is_closed_witness :
  forallb blank_or_comma (str " , ") = true
  /\ str "public" <> []
  /\ pool_allowedSchemas (Some (str " , ")) = [[]; []]
  /\ assertSchemaAllowed (str "public") (pool_allowedSchemas (Some (str " , ")))
     = Throw (SchemaNotAllowed (str "public")).
Proof.
  assert (forallb blank_or_comma (str " , ") = true) as B by reflexivity.
  assert (str "public" <> []) as N by discriminate.
  split; [exact B|]. split; [exact N|]. split; [reflexivity|].
  exact (proj1 (proj2 (proj2 (proj2
           (configured_policy_is_closed " "%char (str ", ")))))
           B (str "public") N).
Defined.

(** X17: the default cap of [pool.ts] is 5 when [DEFAULT_LIMIT] is absent
    or empty, and otherwise what [parseInt] reads: for the decimal text of
    an integer (one a double holds exactly) that integer itself, below 1 and
    above 100 included, since the configuration checks no range.  The cap
    the two query handlers apply to it lies between 1 and 100 all the
    same. *)
Theorem default_limit_from_environment :
  pool_defaultLimit None = Num 5
  /\ pool_defaultLimit (Some []) = Num 5
  /\ (forall z, (Z.abs z <= 2 ^ 53)%Z ->
        pool_defaultLimit (Some (decimal z)) = Num z)
  /\ (forall z, exists n,
        effective_cap z = Num n /\ (1 <= n <= 100)%Z
        /\ effective_cap n = Num n).
Proof.
  split; [reflexivity|]. split; [reflexivity|]. split.
  - intros z _. unfold pool_defaultLimit.
    pose proof (decimal_nonempty z) as H.
    destruct (decimal z) eqn:E; [congruence|].
    rewrite <- E. apply parseInt_decimal.
  - intros z. exists (Z.min (Z.max 1 z) 100). split; [reflexivity|].
    split; [lia|]. unfold effective_cap. cbn [Math_max Math_min].
    f_equal. lia.
Qed.

Lemma default_limit_from_environment_witness :
  (Z.abs 250 <= 2 ^ 53)%Z
  /\ pool_defaultLimit (Some (str "250")) = Num 250
  /\ effective_cap 250 = Num 100.
Proof.
  assert (Z.abs 250 <= 2 ^ 53)%Z as H by (vm_compute; discriminate).
  split; [exact H|]. split; [|reflexivity].
  exact (proj1 (proj2 (proj2 default_limit_from_environment)) 250%Z H).
Defined.

(** ** The validation and the case of letters *)

Lemma lower_char_classes c :
  canonicalize (lower_char c) = canonicalize c
  /\ isWordChar (lower_char c) = isWordChar c
  /\ isWhiteSpace (lower_char c) = isWhiteSpace c
  /\ lower_char (lower_char c) = lower_char c.
Proof.
  generalize (forall_ascii
    (fun c => Ascii.eqb (canonicalize (lower_char c)) (canonicalize c)
              && Bool.eqb (isWordChar (lower_char c)) (isWordChar c)
              && Bool.eqb (isWhiteSpace (lower_char c)) (isWhiteSpace c)
              && Ascii.eqb (lower_char (lower_char c)) (lower_char c))
    eq_refl c).
  intros H. apply andb_true_iff in H as [H H4].
  apply andb_true_iff in H as [H H3]. apply andb_true_iff in H as [H1 H2].
  apply Ascii.eqb_eq in H1, H4. apply Bool.eqb_prop in H2, H3. auto.
Qed.

Lemma same_case_same_lower a c :
  canonicalize a = canonicalize c -> lower_char a = lower_char c.
Proof.
  intros H.
  generalize (forall_ascii2
    (fun a c => implb (Ascii.eqb (canonicalize a) (canonicalize c))
                  (Ascii.eqb (lower_char a) (lower_char c)))
    eq_refl a c).
  rewrite (proj2 (Ascii.eqb_eq _ _) H). simpl. apply Ascii.eqb_eq.
Qed.

Lemma word_at_lower s : word_at (toLowerCase s) = word_at s.
Proof. destruct s as [|c s]; simpl; trivial. apply lower_char_classes. Qed.

Lemma is_boundary_lower l s :
  is_boundary (toLowerCase l) (toLowerCase s) = is_boundary l s.
Proof. unfold is_boundary. now rewrite !word_at_lower. Qed.

Lemma strip_ci_lower p s :
  strip_ci p (toLowerCase s) =
  match strip_ci p s with
  | Some (w, r) => Some (toLowerCase w, toLowerCase r)
  | None => None
  end.
Proof.
  revert s. induction p as [|a p IH]; intros s; cbn [strip_ci]; trivial.
  destruct s as [|b s]; cbn [toLowerCase map strip_ci]; trivial.
  assert (char_match true a (lower_char b) = char_match true a b) as ->.
  { unfold char_match. now rewrite (proj1 (lower_char_classes b)). }
  destruct (char_match true a b); trivial.
  fold (toLowerCase s). rewrite IH.
  now destruct (strip_ci p s) as [[w r]|].
Qed.

Lemma span_space_lower s :
  span isWhiteSpace (toLowerCase s) =
  (toLowerCase (fst (span isWhiteSpace s)),
   toLowerCase (snd (span isWhiteSpace s))).
Proof.
  induction s as [|c s IH]; cbn [toLowerCase map span]; trivial.
  rewrite (proj1 (proj2 (proj2 (lower_char_classes c)))).
  destruct (isWhiteSpace c); trivial.
  fold (toLowerCase s). rewrite IH.
  now destruct (span isWhiteSpace s).
Qed.

Lemma deny_at_lower k l s :
  deny_at k (toLowerCase l) (toLowerCase s) = deny_at k l s.
Proof.
  unfold deny_at. rewrite is_boundary_lower, strip_ci_lower.
  destruct (strip_ci k s) as [[kw s1]|]; trivial.
  assert (forall x y, rev (toLowerCase x) ++ toLowerCase y
                      = toLowerCase (rev x ++ y)) as Hrev.
  { intros x y. unfold toLowerCase. now rewrite map_app, map_rev. }
  rewrite Hrev, is_boundary_lower, span_space_lower.
  destruct (span isWhiteSpace s1) as [ws s2]. cbn [fst snd].
  destruct ws as [|w0 ws]; trivial.
  change (toLowerCase (w0 :: ws)) with (lower_char w0 :: toLowerCase ws).
  cbv iota. do 2 f_equal.
  apply existsb_pointwise. intros o _.
  rewrite strip_ci_lower. destruct (strip_ci o s2) as [[ctx s3]|]; trivial.
  change (lower_char w0 :: toLowerCase ws) with (toLowerCase (w0 :: ws)).
  now rewrite !Hrev, is_boundary_lower.
Qed.

Lemma test_forbidden_iff k q :
  RegExp_test (forbidden_regex k) q = true <->
  exists a b, q = a ++ b /\ deny_at k (rev a) b = true.
Proof.
  rewrite test_true_iff. change (ignoreCase (forbidden_regex k)) with true.
  split; intros (a & b & E & M); exists a, b; split; trivial.
  - rewrite <- forbidden_match_at.
    now destruct (matcher true (pattern (forbidden_regex k)) Some _).
  - rewrite <- forbidden_match_at in M.
    now destruct (matcher true (pattern (forbidden_regex k)) Some _).
Qed.

Lemma test_forbidden_lower k q :
  RegExp_test (forbidden_regex k) (toLowerCase q)
  = RegExp_test (forbidden_regex k) q.
Proof.
  apply Bool.eq_true_iff_eq. rewrite !test_forbidden_iff. split.
  - intros (a' & b' & E & D). unfold toLowerCase in E.
    apply map_eq_app in E as (a & b & -> & <- & <-).
    exists a, b. split; trivial.
    rewrite <- map_rev in D. now rewrite deny_at_lower in D.
  - intros (a & b & -> & D). exists (toLowerCase a), (toLowerCase b).
    split; [apply map_app|].
    unfold toLowerCase at 1. rewrite <- map_rev. now rewrite deny_at_lower.
Qed.

Lemma trimStart_lower s : trimStart (toLowerCase s) = toLowerCase (trimStart s).
Proof.
  induction s as [|c s IH]; cbn [toLowerCase map trimStart]; trivial.
  rewrite (proj1 (proj2 (proj2 (lower_char_classes c)))).
  now destruct (isWhiteSpace c).
Qed.

Lemma trim_lower s : trim (toLowerCase s) = toLowerCase (trim s).
Proof.
  unfold trim, trimEnd. rewrite trimStart_lower.
  unfold toLowerCase at 1. rewrite <- map_rev.
  fold (toLowerCase (rev (trimStart s))). rewrite trimStart_lower.
  unfold toLowerCase. now rewrite map_rev.
Qed.

Lemma validate_lower q : validate_query (toLowerCase q) = validate_query q.
Proof.
  unfold validate_query. rewrite trim_lower.
  assert (toLowerCase (toLowerCase (trim q)) = toLowerCase (trim q)) as ->.
  { unfold toLowerCase. rewrite map_map. apply map_ext.
    intros c. apply lower_char_classes. }
  destruct (negb (startsWith (toLowerCase (trim q)) (str "select"))
            && negb (startsWith (toLowerCase (trim q)) (str "with"))); trivial.
  induction forbiddenKeywords as [|k ks IH]; cbn [check_forbidden]; trivial.
  now rewrite test_forbidden_lower, IH.
Qed.

(** X18: the validation does not look at the case of letters: two
    statements that are equal up to case get the same verdict, with the
    same error when they fail. *)
Theorem validation_ignores_case q q' :
  eq_ci q q' -> validate_query q = validate_query q'.
Proof.
  intros H. rewrite <- (validate_lower q), <- (validate_lower q').
  f_equal. unfold eq_ci in H. unfold toLowerCase.
  revert q' H. induction q as [|c q IH]; intros [|c' q'] H;
    try discriminate; trivial.
  cbn [map] in *. inversion H as [[Hc Hq]].
  now rewrite (same_case_same_lower c c' Hc), (IH q' Hq).
Qed.

Lemma validation_ignores_case_witness :
  eq_ci (str "SeLeCt 1; dRoP tAbLe t") (str "select 1; DROP TABLE t")
  /\ validate_query (str "SeLeCt 1; dRoP tAbLe t")
     = Throw (ForbiddenKeyword (str "drop")).
Proof.
  assert (eq_ci (str "SeLeCt 1; dRoP tAbLe t") (str "select 1; DROP TABLE t"))
    as H by reflexivity.
  split; [exact H|].
  rewrite (validation_ignores_case _ _ H). vm_compute. reflexivity.
Defined.
